(** * SimpleWeb utility.hpp: percent codec, query strings, HTTP line parsers,
      Content-Disposition scanner and ScopeRunner, embedded and verified.

    Source: src/web_server/utility.hpp (namespace SimpleWeb).

    Conventions of the embedding.
    - [std::string] is a list of 8-bit characters ([str]).
    - [size_t] is a [Z] in [0, 2^64); every subtraction the source performs
      on [size_t] is written with [usub], which wraps modulo 2^64, and
      [std::string::npos] is [2^64 - 1].
    - [CaseInsensitiveMultimap] is the list of its (key, value) entries in
      insertion order; [emplace] appends.  The source type is a
      [std::unordered_multimap], which keeps every entry emplaced but
      iterates in an order of its own: the list stands for the collection
      of entries, and its order is the order of the [emplace] calls, not
      the order an iteration over the container gives.  The hash and the
      case-insensitive key comparison only matter for lookups, which none
      of the parsers does.
    - [std::istream] is the unread characters together with the eofbit and
      failbit flags; [getline] follows the standard's unformatted input rules.
    - the [for] loops that visit every position are run by [for_range]; the
      loops that skip positions, [break] or wait on the stream have their
      own fixpoints, with fuel where the source gives no bound. *)

From Stdlib Require Import ZArith Ascii String List Bool Lia Permutation.
Import ListNotations.
Open Scope Z_scope.

(* ================================================================== *)
(** * Strings and size_t *)

Definition str := list ascii.

Definition lit (s : string) : str := list_ascii_of_string s.

Definition size_t_modulus : Z := 2 ^ 64.
Definition npos : Z := size_t_modulus - 1.

(** Unsigned 64-bit subtraction. *)
Definition usub (a b : Z) : Z := (a - b) mod size_t_modulus.

Definition size (s : str) : Z := Z.of_nat (length s).

(** [s[i]] for [0 <= i < size s]. *)
Definition at_ (s : str) (i : Z) : ascii := nth (Z.to_nat i) s zero.

(** [s.substr(pos, n)]: at most [n] characters from [pos]; every call in
    the source has [pos <= size s], so [std::out_of_range] is never thrown. *)
Definition substr (s : str) (pos n : Z) : str :=
  firstn (Z.to_nat (Z.min n (size s - pos))) (skipn (Z.to_nat pos) s).

(** [s.substr(pos)], i.e. [substr(pos, npos)]. *)
Definition substr_from (s : str) (pos : Z) : str := substr s pos npos.

Definition ch_eqb (a b : ascii) : bool := Ascii.eqb a b.

Fixpoint find_aux (ch : ascii) (s : str) (i : Z) : Z :=
  match s with
  | [] => npos
  | c :: r => if ch_eqb c ch then i else find_aux ch r (i + 1)
  end.

(** [s.find(ch, pos)]: the first index [>= pos] holding [ch], else [npos]. *)
Definition find (s : str) (ch : ascii) (pos : Z) : Z :=
  if size s <=? pos then npos else find_aux ch (skipn (Z.to_nat pos) s) pos.

Fixpoint str_eqb (a b : str) : bool :=
  match a, b with
  | [], [] => true
  | x :: a', y :: b' => ch_eqb x y && str_eqb a' b'
  | _, _ => false
  end.

(** [for (size_t c = c0; c < c0 + n; ++c) st = body c st]. *)
Fixpoint for_range {A : Type} (n : nat) (c : Z) (body : Z -> A -> A) (st : A) : A :=
  match n with
  | O => st
  | S n' => for_range n' (c + 1) body (body c st)
  end.

(** The value of a [char] in comparisons and shifts ([char] is signed on the
    platforms the project builds for; every test below gives the same answer
    for an unsigned [char]). *)
Definition char_code (c : ascii) : Z :=
  let n := Z.of_N (N_of_ascii c) in if n <? 128 then n else n - 256.

(** [static_cast<char>] of a [long]. *)
Definition char_of_long (v : Z) : ascii := ascii_of_N (Z.to_N (v mod 256)).

(* ================================================================== *)
(** * CaseInsensitiveMultimap *)

(** The entries, in the order in which they were emplaced; the container
    of the source is unordered, so only the collection of entries, not the
    position of an entry, is a property of the real result. *)
Definition CaseInsensitiveMultimap := list (str * str).

Definition emplace (m : CaseInsensitiveMultimap) (k v : str) : CaseInsensitiveMultimap :=
  m ++ [(k, v)].

(* ================================================================== *)
(** * libc: strtol with base 16 *)

Module Libc.

Definition isspace (c : ascii) : bool :=
  let n := N_of_ascii c in ((n =? 32) || ((9 <=? n) && (n <=? 13)))%N.

Definition hex_digit (c : ascii) : option Z :=
  let n := Z.of_N (N_of_ascii c) in
  if (48 <=? n) && (n <=? 57) then Some (n - 48)
  else if (97 <=? n) && (n <=? 102) then Some (n - 87)
  else if (65 <=? n) && (n <=? 70) then Some (n - 55)
  else None.

Fixpoint skip_space (s : str) : str :=
  match s with
  | c :: r => if isspace c then skip_space r else s
  | [] => []
  end.

Fixpoint digits16 (acc : Z) (s : str) : Z :=
  match s with
  | c :: r => match hex_digit c with
              | Some d => digits16 (acc * 16 + d) r
              | None => acc
              end
  | [] => acc
  end.

(** [strtol(s, nullptr, 16)]: leading white space, an optional sign, an
    optional [0x]/[0X] prefix (only when a hex digit follows), then the
    longest run of hex digits; 0 when there is none.  The range check
    ([ERANGE]) is left out: the source only passes two characters. *)
Definition strtol16 (s : str) : Z :=
  let s1 := skip_space s in
  let '(neg, s2) :=
    match s1 with
    | c :: r => if ch_eqb c "-" then (true, r)
                else if ch_eqb c "+" then (false, r) else (false, s1)
    | [] => (false, s1)
    end in
  let s3 :=
    match s2 with
    | z :: x :: d :: r =>
        if ch_eqb z "0" && (ch_eqb x "x" || ch_eqb x "X")
           && match hex_digit d with Some _ => true | None => false end
        then d :: r else s2
    | _ => s2
    end in
  let v := digits16 0 s3 in
  if neg then - v else v.

End Libc.

(* ================================================================== *)
(** * Percent *)

Module Percent.

Definition hex_chars : str := lit "0123456789ABCDEF".

(** The second test of [encode]'s loop body. *)
Definition reserved (chr : ascii) : bool :=
  let c := char_code chr in
  ch_eqb chr "!" || ch_eqb chr "#" || ch_eqb chr "$"
  || ((char_code "&" <=? c) && (c <=? char_code ","))
  || ((char_code "/" <=? c) && (c <=? char_code ";"))
  || ch_eqb chr "=" || ch_eqb chr "?" || ch_eqb chr "@"
  || ch_eqb chr "[" || ch_eqb chr "]".

Definition encode_step (result : str) (chr : ascii) : str :=
  if ch_eqb chr " " then result ++ ["+"%char]
  else if reserved chr then
    result ++ ["%"%char; at_ hex_chars (Z.shiftr (char_code chr) 4);
               at_ hex_chars (Z.land (char_code chr) 15)]
  else result ++ [chr].

Definition encode (value : str) : str := fold_left encode_step value [].

(** The loop of [decode]: [fuel] bounds the number of iterations, [i] is the
    loop index, which the first branch advances by three in all. *)
Fixpoint decode_loop (fuel : nat) (value : str) (i : Z) (result : str) : str :=
  match fuel with
  | O => result
  | S fuel' =>
      if i <? size value then
        let chr := at_ value i in
        if ch_eqb chr "%" && (i + 2 <? size value) then
          let hex := substr value (i + 1) 2 in
          let decoded_chr := char_of_long (Libc.strtol16 hex) in
          decode_loop fuel' value (i + 2 + 1) (result ++ [decoded_chr])
        else if ch_eqb chr "+" then
          decode_loop fuel' value (i + 1) (result ++ [" "%char])
        else
          decode_loop fuel' value (i + 1) (result ++ [chr])
      else result
  end.

Definition decode (value : str) : str :=
  decode_loop (length value) value 0 [].

End Percent.

(* ================================================================== *)
(** * QueryString *)

Module QueryString.

(** One iteration of [create]'s range-for; the state is [(result, first)]. *)
Definition create_step (st : str * bool) (field : str * str) : str * bool :=
  let '(result, first) := st in
  (result ++ (if negb first then ["&"%char] else []) ++ fst field
          ++ ["="%char] ++ Percent.encode (snd field),
   false).

(** [fields] lists the entries in the order the multimap iterates them. *)
Definition create (fields : CaseInsensitiveMultimap) : str :=
  fst (fold_left create_step fields ([], true)).

Record scan := mkScan {
  name_pos : Z;
  name_end_pos : Z;
  value_pos : Z;
  result : CaseInsensitiveMultimap
}.

Definition parse_body (query_string : str) (c : Z) (st : scan) : scan :=
  if ch_eqb (at_ query_string c) "&" then
    let name :=
      substr query_string (name_pos st)
             (usub (if name_end_pos st =? npos then c else name_end_pos st)
                   (name_pos st)) in
    let result' :=
      match name with
      | [] => result st
      | _ :: _ =>
          let value :=
            if value_pos st =? npos then []
            else substr query_string (value_pos st) (usub c (value_pos st)) in
          emplace (result st) name (Percent.decode value)
      end in
    mkScan (c + 1) npos npos result'
  else if ch_eqb (at_ query_string c) "=" then
    mkScan (name_pos st) c (c + 1) (result st)
  else st.

Definition parse (query_string : str) : CaseInsensitiveMultimap :=
  match query_string with
  | [] => []
  | _ :: _ =>
      let st := for_range (length query_string) 0 (parse_body query_string)
                          (mkScan 0 npos npos []) in
      if name_pos st <? size query_string then
        let name := substr query_string (name_pos st)
                           (usub (name_end_pos st) (name_pos st)) in
        match name with
        | [] => result st
        | _ :: _ =>
            let value :=
              if size query_string <=? value_pos st then []
              else substr_from query_string (value_pos st) in
            emplace (result st) name (Percent.decode value)
        end
      else result st
  end.

End QueryString.

(* ================================================================== *)
(** * std::istream and getline *)

Record istream := mkStream {
  unread : str;      (* characters not yet extracted *)
  eofbit : bool;
  failbit : bool
}.

Definition good (s : istream) : bool := negb (eofbit s) && negb (failbit s).

(** A stream over the given bytes, nothing read yet. *)
Definition stream_of (s : str) : istream := mkStream s false false.

Definition newline : ascii := ascii_of_nat 10.
Definition cr : ascii := ascii_of_nat 13.
Definition dquote : ascii := ascii_of_nat 34.

(** Characters up to the first line feed, and what follows that line feed;
    [None] when the input ends before any line feed. *)
Fixpoint read_line (s : str) : str * option str :=
  match s with
  | [] => ([], None)
  | c :: r =>
      if ch_eqb c newline then ([], Some r)
      else let '(l, rest) := read_line r in (c :: l, rest)
  end.

(** [getline(stream, line)].  When the stream is not good on entry the
    sentry fails: failbit is set and [line] is left as it was.  Otherwise
    [line] is erased and filled up to the line feed, which is extracted and
    dropped; reaching the end of input sets eofbit, and failbit too when
    not a single character was extracted. *)
Definition getline (stream : istream) (line : str) : str * istream :=
  if good stream then
    match read_line (unread stream) with
    | (l, Some rest) => (l, mkStream rest false false)
    | (l, None) => (l, mkStream [] true (match l with [] => true | _ => false end))
    end
  else (line, mkStream (unread stream) (eofbit stream) true).

(* ================================================================== *)
(** * HttpHeader *)

Module HttpHeader.

(** The body of the [while] loop up to its [getline]. *)
Definition header_line (line : str) (param_end : Z)
           (result : CaseInsensitiveMultimap) : CaseInsensitiveMultimap :=
  let value_start := param_end + 1 in
  if value_start <? size line then
    let value_start :=
      if ch_eqb (at_ line value_start) " " then value_start + 1 else value_start in
    if value_start <? size line then
      emplace result (substr line 0 param_end)
              (substr line value_start (usub (usub (size line) value_start) 1))
    else result
  else result
.

(** The [while] loop; [None] when [fuel] iterations did not reach its exit. *)
Fixpoint parse_loop (fuel : nat) (stream : istream) (line : str)
         (result : CaseInsensitiveMultimap)
  : option (CaseInsensitiveMultimap * istream) :=
  match fuel with
  | O => None
  | S fuel' =>
      let param_end := find line ":" 0 in
      if negb (param_end =? npos) then
        let result' := header_line line param_end result in
        let '(line', stream') := getline stream line in
        parse_loop fuel' stream' line' result'
      else Some (result, stream)
  end.

Definition parse (fuel : nat) (stream : istream)
  : option (CaseInsensitiveMultimap * istream) :=
  let '(line, stream') := getline stream [] in
  parse_loop fuel stream' line [].

End HttpHeader.

(* ================================================================== *)
(** * RequestMessage *)

Module RequestMessage.

(** The out-parameters. *)
Record outs := mkOuts {
  method : str;
  path : str;
  query_string : str;
  version : str;
  header : CaseInsensitiveMultimap
}.

(** The scan of the target: the [for] loop with its [break].  It returns
    [(query_start, path_and_query_string_end)]. *)
Fixpoint scan_target (n : nat) (line : str) (i : Z)
         (query_start path_and_query_string_end : Z) : Z * Z :=
  match n with
  | O => (query_start, path_and_query_string_end)
  | S n' =>
      if ch_eqb (at_ line i) "?" && (i + 1 <? size line) then
        scan_target n' line (i + 1) (i + 1) path_and_query_string_end
      else if ch_eqb (at_ line i) " " then (query_start, i)
      else scan_target n' line (i + 1) query_start path_and_query_string_end
  end.

(** [parse]: the returned [bool], the out-parameters and the stream after
    the call; [None] when the header loop does not finish within [fuel]. *)
Definition parse (fuel : nat) (stream : istream) (o : outs)
  : option (bool * outs * istream) :=
  let o := mkOuts (method o) (path o) (query_string o) (version o) [] in
  let '(line, stream) := getline stream [] in
  let method_end := find line " " 0 in
  if negb (method_end =? npos) then
    let o := mkOuts (substr line 0 method_end) (path o) (query_string o)
                    (version o) (header o) in
    let '(query_start, path_and_query_string_end) :=
      scan_target (Z.to_nat (size line - (method_end + 1))) line
                  (method_end + 1) npos npos in
    if negb (path_and_query_string_end =? npos) then
      let o :=
        if negb (query_start =? npos) then
          mkOuts (method o)
                 (substr line (method_end + 1)
                         (usub (usub query_start method_end) 2))
                 (substr line query_start
                         (usub path_and_query_string_end query_start))
                 (version o) (header o)
        else
          mkOuts (method o)
                 (substr line (method_end + 1)
                         (usub (usub path_and_query_string_end method_end) 1))
                 (query_string o) (version o) (header o) in
      let protocol_end := find line "/" (path_and_query_string_end + 1) in
      if negb (protocol_end =? npos) then
        if negb (str_eqb (substr line (path_and_query_string_end + 1)
                                 (usub (usub protocol_end path_and_query_string_end) 1))
                         (lit "HTTP"))
        then Some (false, o, stream)
        else
          let o := mkOuts (method o) (path o) (query_string o)
                          (substr line (protocol_end + 1)
                                  (usub (usub (size line) protocol_end) 2))
                          (header o) in
          match HttpHeader.parse fuel stream with
          | Some (h, stream) =>
              Some (true,
                    mkOuts (method o) (path o) (query_string o) (version o) h,
                    stream)
          | None => None
          end
      else Some (false, o, stream)
    else Some (false, o, stream)
  else Some (false, o, stream).

End RequestMessage.

(* ================================================================== *)
(** * ResponseMessage *)

Module ResponseMessage.

Record outs := mkOuts {
  version : str;
  status_code : str;
  header : CaseInsensitiveMultimap
}.

Definition parse (fuel : nat) (stream : istream) (o : outs)
  : option (bool * outs * istream) :=
  let o := mkOuts (version o) (status_code o) [] in
  let '(line, stream) := getline stream [] in
  let version_end := find line " " 0 in
  if negb (version_end =? npos) then
    if 5 <? size line then
      let o := mkOuts (substr line 5 (usub version_end 5)) (status_code o) (header o) in
      if version_end + 1 <? size line then
        let o := mkOuts (version o)
                        (substr line (version_end + 1)
                                (usub (usub (size line) (version_end + 1)) 1))
                        (header o) in
        match HttpHeader.parse fuel stream with
        | Some (h, stream) =>
            Some (true, mkOuts (version o) (status_code o) h, stream)
        | None => None
        end
      else Some (false, o, stream)
    else Some (false, o, stream)
  else Some (false, o, stream).

End ResponseMessage.

(* ================================================================== *)
(** * ContentDisposition *)

Module ContentDisposition.

Record scan := mkScan {
  para_start_pos : Z;
  para_end_pos : Z;
  value_start_pos : Z;
  result : CaseInsensitiveMultimap
}.

Definition parse_body (line : str) (c : Z) (st : scan) : scan :=
  if negb (para_start_pos st =? npos) then
    if para_end_pos st =? npos then
      if ch_eqb (at_ line c) ";" then
        mkScan npos (para_end_pos st) (value_start_pos st)
               (emplace (result st)
                        (substr line (para_start_pos st) (usub c (para_start_pos st)))
                        [])
      else if ch_eqb (at_ line c) "=" then
        mkScan (para_start_pos st) c (value_start_pos st) (result st)
      else st
    else
      if value_start_pos st =? npos then
        if ch_eqb (at_ line c) dquote && (c + 1 <? size line) then
          mkScan (para_start_pos st) (para_end_pos st) (c + 1) (result st)
        else st
      else if ch_eqb (at_ line c) dquote then
        mkScan npos npos npos
               (emplace (result st)
                        (substr line (para_start_pos st)
                                (usub (para_end_pos st) (para_start_pos st)))
                        (substr line (value_start_pos st)
                                (usub c (value_start_pos st))))
      else st
  else if negb (ch_eqb (at_ line c) " ") && negb (ch_eqb (at_ line c) ";") then
    mkScan c (para_end_pos st) (value_start_pos st) (result st)
  else st.

Definition parse (line : str) : CaseInsensitiveMultimap :=
  let st := for_range (length line) 0 (parse_body line) (mkScan 0 npos npos []) in
  if negb (para_start_pos st =? npos) && (para_end_pos st =? npos) then
    emplace (result st) (substr_from line (para_start_pos st)) []
  else result st.

End ContentDisposition.

(* ================================================================== *)
(** * ScopeRunner *)

Module ScopeRunner.

(** [std::atomic<long>]: every operation below is one indivisible step on
    the shared counter (the source uses the default, sequentially
    consistent, memory order), so an execution of several threads is an
    interleaving of such steps. *)

Definition LONG_MAX : Z := 2 ^ 63 - 1.

(** Two's-complement wrap-around of [long]. *)
Definition long_wrap (z : Z) : Z := (z + 2 ^ 63) mod 2 ^ 64 - 2 ^ 63.

(** [count.compare_exchange_weak(expected, desired)]: the returned flag, the
    counter and [expected] afterwards.  [spurious] says whether this attempt
    fails although the values are equal, which the weak form may do. *)
Definition compare_exchange_weak (spurious : bool) (count expected desired : Z)
  : bool * Z * Z :=
  if (count =? expected) && negb spurious then (true, desired, expected)
  else (false, count, count).

(** [count.fetch_sub(1)]: the counter afterwards. *)
Definition fetch_sub (count : Z) : Z := long_wrap (count - 1).

(** Where a thread stands. *)
Inductive pc : Type :=
| Idle
| ContinueLoop (expected : Z)   (* in [continue_lock], at the [while] test *)
| StopLoop.                     (* in [stop], at the [while] test, [expected] is 0 *)

Inductive event : Type :=
| CallContinue      (* [long expected = count] *)
| Spin              (* a failed compare-exchange, then [spin_loop_pause] *)
| ReturnNull        (* [continue_lock] returns [nullptr] *)
| ReturnLock        (* [continue_lock] returns a new [SharedLock] *)
| CallStop
| StopClosed        (* [stop]'s compare-exchange succeeded; [stop] returns *)
| StopAlready       (* [stop] saw a negative counter; it returns *)
| Release.          (* [~SharedLock] *)

(** One evaluation of the [while] test of [continue_lock] and what follows
    it.  [None]: [expected + 1] overflows [long], which is undefined. *)
Definition continue_lock_step (spurious : bool) (count expected : Z)
  : option (Z * pc * event) :=
  if expected >=? 0 then
    if expected =? LONG_MAX then None
    else
      let '(ok, count', expected') :=
        compare_exchange_weak spurious count expected (expected + 1) in
      if ok then Some (count', Idle, ReturnLock)
      else Some (count', ContinueLoop expected', Spin)
  else Some (count, Idle, ReturnNull).

(** One evaluation of the [while] test of [stop] and the loop body. *)
Definition stop_step (spurious : bool) (count : Z) : Z * pc * event :=
  let '(ok, count', expected') := compare_exchange_weak spurious count 0 (-1) in
  if ok then (count', Idle, StopClosed)
  else if expected' <? 0 then (count', Idle, StopAlready)
  else (count', StopLoop, Spin).

(** The runner and its users: the counter, the number of [SharedLock]
    objects alive (each was returned by [continue_lock]; none can be copied,
    and each is destroyed once, by its [unique_ptr]), and every thread's
    position. *)
Record state := mkState {
  count : Z;
  live : nat;
  threads : nat -> pc
}.

Definition set_pc (t : nat -> pc) (i : nat) (p : pc) : nat -> pc :=
  fun j => if Nat.eqb j i then p else t j.

(** [ScopeRunner() : count(0)]. *)
Definition init : state := mkState 0 0 (fun _ => Idle).

Inductive step : state -> event -> state -> Prop :=
| step_call_continue s i :
    threads s i = Idle ->
    step s CallContinue
         (mkState (count s) (live s) (set_pc (threads s) i (ContinueLoop (count s))))
| step_continue s i expected spurious count' p ev :
    threads s i = ContinueLoop expected ->
    continue_lock_step spurious (count s) expected = Some (count', p, ev) ->
    step s ev
         (mkState count'
                  (match ev with ReturnLock => S (live s) | _ => live s end)
                  (set_pc (threads s) i p))
| step_call_stop s i :
    threads s i = Idle ->
    step s CallStop (mkState (count s) (live s) (set_pc (threads s) i StopLoop))
| step_stop s i spurious count' p ev :
    threads s i = StopLoop ->
    stop_step spurious (count s) = (count', p, ev) ->
    step s ev (mkState count' (live s) (set_pc (threads s) i p))
| step_release s n :
    live s = S n ->
    step s Release (mkState (fetch_sub (count s)) n (threads s)).

(** Executions: the events in the order they happened. *)
Inductive steps : state -> list event -> state -> Prop :=
| steps_nil s : steps s [] s
| steps_cons s ev s' tr s'' :
    step s ev s' -> steps s' tr s'' -> steps s (ev :: tr) s''.

(** A call of [continue_lock] that no other thread interferes with:
    [spurious k] tells whether the [k]-th compare-exchange fails spuriously.
    The result is the counter afterwards and whether a lock was returned;
    [None] when [fuel] iterations were not enough. *)
Fixpoint continue_lock_loop (fuel : nat) (spurious : nat -> bool) (k : nat)
         (count expected : Z) : option (Z * bool) :=
  match fuel with
  | O => None
  | S fuel' =>
      match continue_lock_step (spurious k) count expected with
      | Some (count', ContinueLoop expected', _) =>
          continue_lock_loop fuel' spurious (S k) count' expected'
      | Some (count', _, ev) =>
          Some (count', match ev with ReturnLock => true | _ => false end)
      | None => None
      end
  end.

Definition continue_lock (fuel : nat) (spurious : nat -> bool) (count : Z)
  : option (Z * bool) :=
  continue_lock_loop fuel spurious 0 count count.

(** A call of [stop] that no other thread interferes with: the counter when
    it returns; [None] when [fuel] iterations were not enough. *)
Fixpoint stop_loop (fuel : nat) (spurious : nat -> bool) (k : nat) (count : Z)
  : option Z :=
  match fuel with
  | O => None
  | S fuel' =>
      match stop_step (spurious k) count with
      | (count', StopLoop, _) => stop_loop fuel' spurious (S k) count'
      | (count', _, _) => Some count'
      end
  end.

Definition stop (fuel : nat) (spurious : nat -> bool) (count : Z) : option Z :=
  stop_loop fuel spurious 0 count.

End ScopeRunner.


(* ================================================================== *)
(** * Case-insensitive comparison and hash *)

Module CaseInsensitive.

(** [tolower] in the "C" locale, on the value of the character.  The
    lambda and the loop pass a [char], so a byte from 0x80 on arrives as a
    negative [int]; glibc looks such a value up in a table that reaches down
    to -128, where -128 to -2 give 128 to 254 and -1 (EOF) gives itself. *)
Definition tolower (c : Z) : Z :=
  if (65 <=? c) && (c <=? 90) then c + 32
  else if (-128 <=? c) && (c <? -1) then c + 256
  else c.

(** [std::equal(first1, last1, first2, pred)]. *)
Fixpoint std_equal (pred : ascii -> ascii -> bool) (s1 s2 : str) : bool :=
  match s1, s2 with
  | [], _ => true
  | a :: s1', b :: s2' => pred a b && std_equal pred s1' s2'
  | _ :: _, [] => false  (* not reached: the sizes are compared first *)
  end.

Definition case_insensitive_equal (str1 str2 : str) : bool :=
  (size str1 =? size str2) &&
  std_equal (fun a b => tolower (char_code a) =? tolower (char_code b)) str1 str2.

Section Hash.

(** [std::hash<int>], which the standard leaves to the implementation; its
    result is taken as it comes and reduced to [size_t] by the sum. *)
Variable hash : Z -> Z.

(** One round of the loop of [CaseInsensitiveHash::operator()], in
    [size_t] arithmetic. *)
Definition hash_step (h : Z) (c : ascii) : Z :=
  Z.lxor h
         ((hash (tolower (char_code c)) + 2654435769
           + (Z.shiftl h 6) mod size_t_modulus + Z.shiftr h 2)
          mod size_t_modulus).

Definition CaseInsensitiveHash (s : str) : Z := fold_left hash_step s 0.

End Hash.

End CaseInsensitive.

(* ================================================================== *)
(** * SharedMutex (the variant with a mutex and a condition variable) *)

Module SharedMutex.

(** The fields [r] and [w]; every access happens with the mutex [m] held,
    so each block below, from taking [m] to releasing it or waiting on [c],
    is one indivisible step.  A thread that waits on [c] may wake at any
    time (a notification or a spurious wake-up) and then runs the test of
    its [while] loop again. *)

Definition INT_MAX : Z := 2 ^ 31 - 1.

(** Where a thread stands. *)
Inductive pc : Type :=
| Idle
| InSharedLock     (* in the constructor of [SharedLock], waiting on [c] *)
| InUniqueLock.    (* in the constructor of [UniqueLock], waiting on [c] *)

Inductive event : Type :=
| SharedWaits | SharedAcquired | SharedReleased
| UniqueWaits | UniqueAcquired | UniqueReleased.

(** The constructor of [SharedLock], from taking the mutex (on entry or on
    waking) on: [while(w) c.wait(lock); ++r;].  [None]: [++r] overflows. *)
Definition shared_attempt (r : Z) (w : bool) : option (Z * bool * pc * event) :=
  if w then Some (r, w, InSharedLock, SharedWaits)
  else if r =? INT_MAX then None
  else Some (r + 1, w, Idle, SharedAcquired).

(** [~SharedLock]: [--r; if(r == 0) c.notify_all();]. *)
Definition shared_release (r : Z) (w : bool) : Z * bool := (r - 1, w).

(** The constructor of [UniqueLock]: [while(w || r > 0) c.wait(lock); w = true;]. *)
Definition unique_attempt (r : Z) (w : bool) : Z * bool * pc * event :=
  if w || (0 <? r) then (r, w, InUniqueLock, UniqueWaits)
  else (r, true, Idle, UniqueAcquired).

(** [~UniqueLock]: [w = false; c.notify_all();]. *)
Definition unique_release (r : Z) (w : bool) : Z * bool := (r, false).

(** The mutex and its users: the fields, the numbers of [SharedLock] and
    [UniqueLock] objects alive (each made by [shared_lock()] or
    [unique_lock()] and destroyed once, by its [unique_ptr]), and every
    thread's position. *)
Record state := mkState {
  r : Z;
  w : bool;
  shared_held : nat;
  unique_held : nat;
  threads : nat -> pc
}.

Definition set_pc (t : nat -> pc) (i : nat) (p : pc) : nat -> pc :=
  fun j => if Nat.eqb j i then p else t j.

(** [int r = 0; bool w = false;]. *)
Definition init : state := mkState 0 false 0 0 (fun _ => Idle).

Inductive step : state -> event -> state -> Prop :=
| step_shared s i r' w' p ev :
    threads s i = Idle \/ threads s i = InSharedLock ->
    shared_attempt (r s) (w s) = Some (r', w', p, ev) ->
    step s ev
         (mkState r' w'
                  (match ev with SharedAcquired => S (shared_held s) | _ => shared_held s end)
                  (unique_held s) (set_pc (threads s) i p))
| step_shared_release s n :
    shared_held s = S n ->
    step s SharedReleased
         (mkState (fst (shared_release (r s) (w s))) (snd (shared_release (r s) (w s)))
                  n (unique_held s) (threads s))
| step_unique s i r' w' p ev :
    threads s i = Idle \/ threads s i = InUniqueLock ->
    unique_attempt (r s) (w s) = (r', w', p, ev) ->
    step s ev
         (mkState r' w' (shared_held s)
                  (match ev with UniqueAcquired => S (unique_held s) | _ => unique_held s end)
                  (set_pc (threads s) i p))
| step_unique_release s n :
    unique_held s = S n ->
    step s UniqueReleased
         (mkState (fst (unique_release (r s) (w s))) (snd (unique_release (r s) (w s)))
                  (shared_held s) n (threads s)).

Inductive steps : state -> list event -> state -> Prop :=
| steps_nil s : steps s [] s
| steps_cons s ev s' tr s'' :
    step s ev s' -> steps s' tr s'' -> steps s (ev :: tr) s''.

End SharedMutex.
(* ================================================================== *)
(** * Auxiliary definitions used by the statements and proofs *)

(** The counter is the number of live locks, or the runner is closed and no
    lock is alive. *)
Definition runner_inv (s : ScopeRunner.state) : Prop :=
  (ScopeRunner.count s = -1 /\ ScopeRunner.live s = O) \/
  (ScopeRunner.count s = Z.of_nat (ScopeRunner.live s) /\ ScopeRunner.count s <= ScopeRunner.LONG_MAX).


(** What [Percent::encode] appends for one character. *)
Definition encode_char (chr : ascii) : str := Percent.encode_step [] chr.

(** [Percent::decode] as a scanner over the remaining input. *)
Fixpoint decode_list (s : str) : str :=
  match s with
  | [] => []
  | c :: r =>
      if ch_eqb c "%" then
        match r with
        | a :: b :: r' => char_of_long (Libc.strtol16 [a; b]) :: decode_list r'
        | _ => c :: decode_list r
        end
      else if ch_eqb c "+" then " "%char :: decode_list r
      else c :: decode_list r
  end.

(** Decoding what [encode] writes for [c] gives [c] back, whatever follows;
    checked character by character. *)
Definition encode_char_ok (c : ascii) : bool :=
  match encode_char c with
  | [d] => negb (ch_eqb d "%") &&
           (if ch_eqb d "+" then ch_eqb c " " else ch_eqb d c)
  | [p; h; l] => ch_eqb p "%" && ch_eqb (char_of_long (Libc.strtol16 [h; l])) c
  | _ => false
  end.

(** [l] joined by [sep]. *)
Fixpoint join (sep : ascii) (l : list str) : str :=
  match l with
  | [] => []
  | [s] => s
  | s :: l' => s ++ sep :: join sep l'
  end.

(** A segment of a query string: a name alone, or a name, an equals sign
    and a value. *)
Definition segment := (str * option str)%type.

Definition render (d : segment) : str :=
  match d with
  | (n, None) => n
  | (n, Some v) => n ++ "="%char :: v
  end.

(** The entry of a segment: none when the name is empty, else the name with
    the percent-decoded value (empty when there is no equals sign). *)
Definition segment_entry (d : segment) : CaseInsensitiveMultimap :=
  match fst d with
  | [] => []
  | _ :: _ => [(fst d, Percent.decode (match snd d with Some v => v | None => [] end))]
  end.

(** The text is free of ampersands, and the equals sign that [render] writes
    is the last one of the segment. *)
Definition segment_last_eq (d : segment) : Prop :=
  ~ In "&"%char (fst d) /\
  match snd d with
  | None => ~ In "="%char (fst d)
  | Some v => ~ In "&"%char v /\ ~ In "="%char v
  end.

(** The scan state of [QueryString::parse] after a whole segment that
    started at position [p]. *)
Definition segment_state (d : segment) (p : Z) (r : CaseInsensitiveMultimap)
  : QueryString.scan :=
  match snd d with
  | None => QueryString.mkScan p npos npos r
  | Some _ => QueryString.mkScan p (p + size (fst d)) (p + size (fst d) + 1) r
  end.

(** What [QueryString::parse] does after its loop. *)
Definition parse_tail (query_string : str) (st : QueryString.scan)
  : CaseInsensitiveMultimap :=
  if QueryString.name_pos st <? size query_string then
    let name := substr query_string (QueryString.name_pos st)
                       (usub (QueryString.name_end_pos st) (QueryString.name_pos st)) in
    match name with
    | [] => QueryString.result st
    | _ :: _ =>
        let value :=
          if size query_string <=? QueryString.value_pos st then []
          else substr_from query_string (QueryString.value_pos st) in
        emplace (QueryString.result st) name (Percent.decode value)
    end
  else QueryString.result st.

(** The segment [QueryString::create] writes for a field. *)
Definition field_segment (field : str * str) : segment :=
  (fst field, Some (Percent.encode (snd field))).

(** [encode] writes neither [&] nor [=] for the character. *)
Definition encode_char_clean (c : ascii) : bool :=
  forallb (fun d => negb (ch_eqb d "&") && negb (ch_eqb d "=")) (encode_char c).

(** A header line as its name and the text after the first colon. *)
Definition header_text (h : str * str) : str := fst h ++ ":"%char :: snd h.

(** The entry of a header line: the text after the colon loses one leading
    space, if it has one, and then its last character; there is no entry
    when nothing is left after the colon and that space. *)
Definition header_field (h : str * str) : CaseInsensitiveMultimap :=
  let after :=
    match snd h with
    | c :: a => if ch_eqb c " " then a else snd h
    | [] => []
    end in
  match after with
  | [] => []
  | _ :: _ => [(fst h, removelast after)]
  end.

(** The header lines of a stream, each ended by a line feed. *)
Definition header_lines (hs : list (str * str)) : str :=
  flat_map (fun h => header_text h ++ [newline]) hs.

(** What a stream looks like after [getline] read a line that was followed
    by [tail]: [tail] is empty at the end of input, else it starts with the
    line feed that ended the line. *)
Definition after_line (line tail : str) : istream :=
  match tail with
  | [] => mkStream [] true (match line with [] => true | _ => false end)
  | _ :: rest => mkStream rest false false
  end.

Definition header_line_ok (h : str * str) : Prop :=
  ~ In ":"%char (fst h) /\ ~ In newline (fst h) /\ ~ In newline (snd h).

(** [s] split at the last occurrence of [ch]. *)
Fixpoint split_last (ch : ascii) (s : str) : option (str * str) :=
  match s with
  | [] => None
  | c :: r =>
      match split_last ch r with
      | Some (a, b) => Some (c :: a, b)
      | None => if ch_eqb c ch then Some ([], r) else None
      end
  end.

(** The request line is not of the form
    method SP target SP [HTTP/] rest, for one of four reasons. *)
Inductive request_line_malformed (line : str) : Prop :=
| no_space_after_method :
    ~ In " "%char line -> request_line_malformed line
| no_space_after_target (m r : str) :
    line = m ++ " "%char :: r -> ~ In " "%char m -> ~ In " "%char r ->
    request_line_malformed line
| no_slash_after_target (m t r : str) :
    line = m ++ " "%char :: t ++ " "%char :: r ->
    ~ In " "%char m -> ~ In " "%char t -> ~ In "/"%char r ->
    request_line_malformed line
| protocol_not_http (m t p v : str) :
    line = m ++ " "%char :: t ++ " "%char :: p ++ "/"%char :: v ->
    ~ In " "%char m -> ~ In " "%char t -> ~ In "/"%char p ->
    p <> lit "HTTP" ->
    request_line_malformed line.

(** The out-parameters of [RequestMessage::parse] once method [m] and
    target [t] are read: the target is divided at its last question mark. *)
Definition request_outs_target (o : RequestMessage.outs) (m t : str)
  : RequestMessage.outs :=
  match split_last "?" t with
  | None =>
      RequestMessage.mkOuts m t (RequestMessage.query_string o)
                            (RequestMessage.version o) []
  | Some (a, b) => RequestMessage.mkOuts m a b (RequestMessage.version o) []
  end.

(** The position [scan_target] leaves in [query_start] after the text [t]
    that starts at position [i]. *)
Fixpoint query_mark (t : str) (i q : Z) : Z :=
  match t with
  | [] => q
  | c :: r => query_mark r (i + 1) (if ch_eqb c "?" then i + 1 else q)
  end.

(** The block of [RequestMessage::parse] that assigns [path] and
    [query_string]. *)
Definition request_target_outs (line : str) (method_end query_start e : Z)
           (o : RequestMessage.outs) : RequestMessage.outs :=
  if negb (query_start =? npos) then
    RequestMessage.mkOuts
      (substr line 0 method_end)
      (substr line (method_end + 1) (usub (usub query_start method_end) 2))
      (substr line query_start (usub e query_start))
      (RequestMessage.version o) []
  else
    RequestMessage.mkOuts
      (substr line 0 method_end)
      (substr line (method_end + 1) (usub (usub e method_end) 1))
      (RequestMessage.query_string o) (RequestMessage.version o) [].

(** The block of [RequestMessage::parse] that follows: protocol, version
    and header fields. *)
Definition request_protocol (fuel : nat) (line : str) (e : Z)
           (o : RequestMessage.outs) (stream : istream)
  : option (bool * RequestMessage.outs * istream) :=
  let protocol_end := find line "/" (e + 1) in
  if negb (protocol_end =? npos) then
    if negb (str_eqb (substr line (e + 1) (usub (usub protocol_end e) 1)) (lit "HTTP"))
    then Some (false, o, stream)
    else
      match HttpHeader.parse fuel stream with
      | Some (h, s) =>
          Some (true,
                RequestMessage.mkOuts
                  (RequestMessage.method o) (RequestMessage.path o)
                  (RequestMessage.query_string o)
                  (substr line (protocol_end + 1)
                          (usub (usub (size line) protocol_end) 2))
                  h,
                s)
      | None => None
      end
  else Some (false, o, stream).

(** A parameter of a Content-Disposition line: a bare name ended by a
    semicolon, or a name, an equals sign, any text up to the opening quote,
    and the quoted value. *)
Inductive cd_param : Type :=
| Bare (n : str)
| Quoted (n junk v : str).

Definition cd_text (p : cd_param) : str :=
  match p with
  | Bare n => n ++ [";"%char]
  | Quoted n junk v => n ++ "="%char :: junk ++ dquote :: v ++ [dquote]
  end.

Definition cd_entry (p : cd_param) : str * str :=
  match p with
  | Bare n => (n, [])
  | Quoted n _ v => (n, v)
  end.

(** A name: not empty, not starting with a space, free of [;] and [=]. *)
Definition cd_name_ok (n : str) : Prop :=
  (exists c n', n = c :: n' /\ c <> " "%char)
  /\ ~ In ";"%char n /\ ~ In "="%char n.

Definition cd_param_ok (p : cd_param) : Prop :=
  match p with
  | Bare n => cd_name_ok n
  | Quoted n junk v => cd_name_ok n /\ ~ In dquote junk /\ ~ In dquote v
  end.

(** Spaces and semicolons, as they may stand between parameters. *)
Definition cd_filler (ws : str) : Prop :=
  Forall (fun c => c = " "%char \/ c = ";"%char) ws.

(** A parameter and the filler behind it. *)
Definition cd_item := (cd_param * str)%type.

Definition cd_item_text (it : cd_item) : str := cd_text (fst it) ++ snd it.

Definition cd_item_ok (it : cd_item) : Prop :=
  cd_param_ok (fst it) /\ cd_filler (snd it).

(** How the line ends: after the last complete parameter, in a bare name,
    or in a name with an equals sign whose value has no closing quote. *)
Inductive cd_ending : Type :=
| EndNothing
| EndBare (n : str)
| EndOpen (n tail : str).

Definition cd_ending_text (e : cd_ending) : str :=
  match e with
  | EndNothing => []
  | EndBare n => n
  | EndOpen n tail => n ++ "="%char :: tail
  end.

Definition cd_ending_entries (e : cd_ending) : CaseInsensitiveMultimap :=
  match e with
  | EndBare n => [(n, [])]
  | _ => []
  end.

Definition cd_ending_ok (e : cd_ending) : Prop :=
  match e with
  | EndNothing => True
  | EndBare n => cd_name_ok n
  | EndOpen n tail =>
      cd_name_ok n /\
      (~ In dquote tail
       \/ exists junk v, tail = junk ++ dquote :: v
                         /\ ~ In dquote junk /\ ~ In dquote v)
  end.

(** What [ContentDisposition::parse] does after its loop. *)
Definition cd_finish (line : str) (st : ContentDisposition.scan)
  : CaseInsensitiveMultimap :=
  if negb (ContentDisposition.para_start_pos st =? npos)
     && (ContentDisposition.para_end_pos st =? npos)
  then emplace (ContentDisposition.result st)
               (substr_from line (ContentDisposition.para_start_pos st)) []
  else ContentDisposition.result st.

(** The scan state at the start of a parameter at position [p]: the first
    parameter of the line is entered with [para_start_pos = 0], a later one
    while no parameter is open. *)
Definition cd_start (first : bool) (p : Z) (r : CaseInsensitiveMultimap)
  : ContentDisposition.scan :=
  if first then ContentDisposition.mkScan p npos npos r
  else ContentDisposition.mkScan npos npos npos r.

(** [s] cut at every [sep]. *)
Fixpoint split_on (sep : ascii) (s : str) : list str :=
  match s with
  | [] => [[]]
  | c :: r =>
      if ch_eqb c sep then [] :: split_on sep r
      else match split_on sep r with
           | seg :: segs => (c :: seg) :: segs
           | [] => [[c]]
           end
  end.

(** A piece of a query string as a segment, divided at its last [=]. *)
Definition segment_of (piece : str) : segment :=
  match split_last "=" piece with
  | Some (n, v) => (n, Some v)
  | None => (piece, None)
  end.

(** The text as [case_insensitive_equal] and [CaseInsensitiveHash] see it:
    the lower-cased value of each character. *)
Definition lowered (s : str) : list Z :=
  map (fun c => CaseInsensitive.tolower (char_code c)) s.

(** All 256 characters. *)
Definition all_chars : list ascii := map ascii_of_nat (seq 0 256).

(** The one character a piece written by [Percent::encode] stands for. *)
Definition encoded_char (piece : str) : option ascii :=
  match piece with
  | [x] => Some (if ch_eqb x "+" then " "%char else x)
  | [_; h; l] => Some (char_of_long (Libc.strtol16 [h; l]))
  | _ => None
  end.

Definition is_digit (c : ascii) : bool :=
  let n := Z.of_N (N_of_ascii c) in (48 <=? n) && (n <=? 57).

(** What [Percent::encode] writes for a character is one character that is
    no digit, or a percent sign, a digit and one more character. *)
Definition encode_char_shape (c : ascii) : bool :=
  match encode_char c with
  | [x] => negb (is_digit x)
  | [p; h; _] => ch_eqb p "%" && is_digit h
  | _ => false
  end.

(** Space and the characters that [Percent::encode] escapes, other than the
    plus sign and the digits. *)
Definition delimiter (c : ascii) : bool :=
  existsb (ch_eqb c) (lit " !#$&'()*,/:;=?@[]").

(** A hex digit is no white space and no sign, so [strtol] starts with it. *)
Definition hex_digit_plain (c : ascii) : bool :=
  match Libc.hex_digit c with
  | Some _ => negb (Libc.isspace c) && negb (ch_eqb c "-") && negb (ch_eqb c "+")
  | None => true
  end.

(** Header fields written the usual way: name, colon, space, value, CR LF. *)
Definition written_headers (hs : CaseInsensitiveMultimap) : str :=
  flat_map (fun h => fst h ++ ":"%char :: " "%char :: snd h ++ [cr; newline]) hs.

(** A written header field as a header line: the text after the colon is
    the space, the value and the CR. *)
Definition written_line (h : str * str) : str * str :=
  (fst h, " "%char :: snd h ++ [cr]).

(** The fields of a [SharedMutex] agree with the locks alive: [r] counts
    the shared locks, [w] is set exactly while one unique lock is alive,
    and then no shared lock is. *)
Definition mutex_inv (s : SharedMutex.state) : Prop :=
  SharedMutex.r s = Z.of_nat (SharedMutex.shared_held s)
  /\ SharedMutex.r s <= SharedMutex.INT_MAX
  /\ (SharedMutex.w s = true ->
      SharedMutex.unique_held s = 1%nat /\ SharedMutex.shared_held s = O)
  /\ (SharedMutex.w s = false -> SharedMutex.unique_held s = O).

(* ================================================================== *)
(** * Facts about strings, positions and loops *)

Lemma size_nonneg (s : str) : 0 <= size s.
Proof. unfold size. lia. Qed.

Lemma size_app (a b : str) : size (a ++ b) = size a + size b.
Proof. unfold size. rewrite length_app. lia. Qed.

Lemma size_cons (c : ascii) (s : str) : size (c :: s) = 1 + size s.
Proof. unfold size. simpl length. lia. Qed.

Lemma size_nil : size [] = 0.
Proof. reflexivity. Qed.

Lemma size_to_nat (s : str) : Z.to_nat (size s) = length s.
Proof. unfold size. lia. Qed.

Ltac sz := rewrite ?size_app, ?size_cons, ?size_nil in *.

(** Settle a comparison of positions that arithmetic decides. *)
Ltac decide_cmp :=
  match goal with
  | |- context [?a <? ?b] =>
      first [replace (a <? b) with true by lia | replace (a <? b) with false by lia]
  | |- context [?a <=? ?b] =>
      first [replace (a <=? b) with true by lia | replace (a <=? b) with false by lia]
  | |- context [?a =? ?b] =>
      first [replace (a =? b) with true by lia | replace (a =? b) with false by lia]
  end.

Lemma modulus_val : size_t_modulus = 18446744073709551616.
Proof. reflexivity. Qed.

Lemma npos_val : npos = 18446744073709551615.
Proof. reflexivity. Qed.

Lemma usub_small (a b : Z) : 0 <= b <= a -> a <= npos -> usub a b = a - b.
Proof.
  intros H1 H2. unfold usub. rewrite npos_val in H2.
  apply Z.mod_small. rewrite modulus_val. lia.
Qed.

(** Remove the wrap-around from subtractions that do not underflow. *)
Ltac usub_norm :=
  repeat match goal with
         | |- context [usub ?a ?b] => rewrite (usub_small a b) by lia
         end.

Lemma ch_eqb_eq (a b : ascii) : ch_eqb a b = true <-> a = b.
Proof. apply Ascii.eqb_eq. Qed.

Lemma ch_eqb_neq (a b : ascii) : ch_eqb a b = false <-> a <> b.
Proof. apply Ascii.eqb_neq. Qed.

Lemma ch_eqb_refl (a : ascii) : ch_eqb a a = true.
Proof. apply Ascii.eqb_refl. Qed.

Lemma at_app (pre : str) (c : ascii) (rest : str) :
  at_ (pre ++ c :: rest) (size pre) = c.
Proof.
  unfold at_. rewrite size_to_nat.
  rewrite app_nth2 by lia. rewrite Nat.sub_diag. reflexivity.
Qed.

(** [substr] seen from a split of the string at [pos]. *)
Lemma substr_app (pre t : str) (n : Z) :
  substr (pre ++ t) (size pre) n = firstn (Z.to_nat (Z.min n (size t))) t.
Proof.
  unfold substr. rewrite size_to_nat, size_app.
  rewrite skipn_app, skipn_all, Nat.sub_diag. simpl.
  f_equal. lia.
Qed.

Lemma substr_mid (pre mid rest : str) :
  substr (pre ++ mid ++ rest) (size pre) (size mid) = mid.
Proof.
  rewrite substr_app, size_app.
  rewrite Z.min_l by (pose proof (size_nonneg rest); lia).
  rewrite size_to_nat, firstn_app, Nat.sub_diag, firstn_all. simpl.
  apply app_nil_r.
Qed.

Lemma substr_tail (pre t : str) (n : Z) :
  size t <= n -> substr (pre ++ t) (size pre) n = t.
Proof.
  intros H. rewrite substr_app, Z.min_r by lia.
  rewrite size_to_nat. apply firstn_all.
Qed.

Lemma substr_zero (s : str) (pos : Z) : substr s pos 0 = [].
Proof.
  unfold substr.
  destruct (Z.min_spec 0 (size s - pos)) as [[_ ->] | [H ->]]; [reflexivity|].
  replace (Z.to_nat (size s - pos)) with O by lia. reflexivity.
Qed.

Lemma for_range_app {A : Type} (n m : nat) (c : Z) (body : Z -> A -> A) (st : A) :
  for_range (n + m) c body st =
  for_range m (c + Z.of_nat n) body (for_range n c body st).
Proof.
  revert c st. induction n as [| n IH]; intros c st; simpl.
  - f_equal. lia.
  - rewrite IH. f_equal. lia.
Qed.

(** [find] on a string split at the position the search starts from. *)
Lemma find_app (pre t : str) (ch : ascii) :
  find (pre ++ t) ch (size pre) =
  match t with [] => npos | _ => find_aux ch t (size pre) end.
Proof.
  unfold find. rewrite size_app.
  destruct t as [| c t].
  - rewrite size_nil. replace (size pre + 0 <=? size pre) with true by lia.
    reflexivity.
  - rewrite size_cons.
    replace (size pre + (1 + size t) <=? size pre) with false
      by (pose proof (size_nonneg t); lia).
    rewrite size_to_nat, skipn_app, skipn_all, Nat.sub_diag. reflexivity.
Qed.

Lemma find_aux_none (ch : ascii) (t : str) (i : Z) :
  ~ In ch t -> find_aux ch t i = npos.
Proof.
  revert i. induction t as [| c t IH]; intros i Hn; simpl; [reflexivity|].
  destruct (ch_eqb c ch) eqn:E.
  - apply ch_eqb_eq in E. subst. exfalso. apply Hn. left. reflexivity.
  - apply IH. intros Hin. apply Hn. right. assumption.
Qed.

Lemma find_aux_hit (ch : ascii) (a b : str) (i : Z) :
  ~ In ch a -> find_aux ch (a ++ ch :: b) i = i + size a.
Proof.
  revert i. induction a as [| c a IH]; intros i Hn; simpl.
  - rewrite ch_eqb_refl, size_nil. lia.
  - destruct (ch_eqb c ch) eqn:E.
    + apply ch_eqb_eq in E. subst. exfalso. apply Hn. left. reflexivity.
    + rewrite IH by (intros Hin; apply Hn; right; assumption).
      rewrite size_cons. lia.
Qed.

(** A found position is a real one: it is in range, holds the character,
    and nothing before it (from the start of the search) does. *)
Lemma find_aux_inv (ch : ascii) (t : str) (i : Z) :
  find_aux ch t i = npos /\ ~ In ch t \/
  exists a b, t = a ++ ch :: b /\ ~ In ch a /\ find_aux ch t i = i + size a.
Proof.
  revert i. induction t as [| c t IH]; intros i; simpl.
  - left. split; [reflexivity | intros []].
  - destruct (ch_eqb c ch) eqn:E.
    + apply ch_eqb_eq in E. subst. right. exists [], t.
      split; [reflexivity|]. split; [intros [] | rewrite size_nil; lia].
    + apply ch_eqb_neq in E.
      destruct (IH (i + 1)) as [[H1 H2] | (a & b & H1 & H2 & H3)].
      * left. split; [assumption|]. intros [Hc | Hin]; [congruence | contradiction].
      * right. exists (c :: a), b. subst t. split; [reflexivity|].
        split; [intros [Hc | Hin]; [congruence | contradiction]|].
        rewrite H3, size_cons. lia.
Qed.

Lemma str_eqb_eq (a b : str) : str_eqb a b = true <-> a = b.
Proof.
  revert b. induction a as [| x a IH]; intros [| y b]; simpl;
    try (split; [discriminate | discriminate]); try tauto.
  rewrite andb_true_iff, ch_eqb_eq, IH.
  split; [intros [-> ->]; reflexivity | intros H; inversion H; auto].
Qed.

Lemma split_first_cases (ch : ascii) (s : str) :
  ~ In ch s \/ exists a b, s = a ++ ch :: b /\ ~ In ch a.
Proof.
  induction s as [| c s IH]; [left; intros []|].
  destruct (ch_eqb c ch) eqn:E.
  - apply ch_eqb_eq in E. subst. right. exists [], s. split; [reflexivity | intros []].
  - apply ch_eqb_neq in E. destruct IH as [Hn | (a & b & -> & Hn)].
    + left. intros [H | H]; [congruence | contradiction].
    + right. exists (c :: a), b. split; [reflexivity|].
      intros [H | H]; [congruence | contradiction].
Qed.

Lemma split_last_none (ch : ascii) (s : str) :
  split_last ch s = None -> ~ In ch s.
Proof.
  induction s as [| c s IH]; simpl; [intros _ []|].
  destruct (split_last ch s) as [[a b] |]; [discriminate|].
  destruct (ch_eqb c ch) eqn:E; [discriminate|]. apply ch_eqb_neq in E.
  intros _ [H | H]; [congruence | exact (IH eq_refl H)].
Qed.

Lemma split_last_some (ch : ascii) (s a b : str) :
  split_last ch s = Some (a, b) -> s = a ++ ch :: b /\ ~ In ch b.
Proof.
  revert a b. induction s as [| c s IH]; simpl; intros a b; [discriminate|].
  destruct (split_last ch s) as [[a' b'] |] eqn:E.
  - intros H; inversion H; subst. destruct (IH a' b eq_refl) as [-> Hn].
    split; [reflexivity | assumption].
  - destruct (ch_eqb c ch) eqn:Ec; [|discriminate].
    apply ch_eqb_eq in Ec. subst. intros H; inversion H; subst.
    split; [reflexivity | apply split_last_none; assumption].
Qed.


(* ================================================================== *)
(** * Percent: encode and decode *)

Lemma encode_step_app (result : str) (chr : ascii) :
  Percent.encode_step result chr = result ++ encode_char chr.
Proof.
  unfold encode_char, Percent.encode_step.
  destruct (ch_eqb chr " "); [reflexivity|].
  destruct (Percent.reserved chr); reflexivity.
Qed.

Lemma encode_fold (value result : str) :
  fold_left Percent.encode_step value result = result ++ flat_map encode_char value.
Proof.
  revert result. induction value as [| c value IH]; intros result; simpl.
  - symmetry. apply app_nil_r.
  - rewrite IH, encode_step_app, <- app_assoc. reflexivity.
Qed.

Lemma encode_flat_map (value : str) :
  Percent.encode value = flat_map encode_char value.
Proof. unfold Percent.encode. apply encode_fold. Qed.

Lemma encode_app (a b : str) :
  Percent.encode (a ++ b) = Percent.encode a ++ Percent.encode b.
Proof. rewrite !encode_flat_map. apply flat_map_app. Qed.

(** The index loop of [decode] is the scanner [decode_list]. *)
Lemma decode_loop_spec (fuel : nat) :
  forall (pre rest result : str),
    (length rest <= fuel)%nat ->
    Percent.decode_loop fuel (pre ++ rest) (size pre) result =
    result ++ decode_list rest.
Proof.
  induction fuel as [| fuel IH]; intros pre rest result Hf.
  - destruct rest; [|simpl in Hf; lia]. simpl. symmetry. apply app_nil_r.
  - destruct rest as [| c rest].
    + simpl. rewrite app_nil_r, Z.ltb_irrefl. symmetry. apply app_nil_r.
    + cbn [Percent.decode_loop decode_list].
      rewrite at_app, size_app, size_cons.
      replace (size pre <? size pre + (1 + size rest)) with true
        by (pose proof (size_nonneg rest); lia).
      simpl in Hf.
      assert (Hstep : forall x, (result ++ [x]) ++ decode_list rest =
                result ++ x :: decode_list rest)
        by (intros x; rewrite <- app_assoc; reflexivity).
      assert (Hnext : forall res,
                Percent.decode_loop fuel (pre ++ c :: rest) (size pre + 1) res =
                res ++ decode_list rest).
      { intros res.
        replace (pre ++ c :: rest) with ((pre ++ [c]) ++ rest)
          by (rewrite <- app_assoc; reflexivity).
        replace (size pre + 1) with (size (pre ++ [c]))
          by (rewrite size_app, size_cons, size_nil; lia).
        apply IH. lia. }
      destruct (ch_eqb c "%") eqn:Ep; cbn [andb].
      * destruct rest as [| a [| b rest]].
        -- rewrite size_nil.
           replace (size pre + 2 <? size pre + (1 + 0)) with false by lia.
           apply ch_eqb_eq in Ep. subst c. cbn [ch_eqb Ascii.eqb Bool.eqb].
           rewrite Hnext. apply Hstep.
        -- rewrite size_cons, size_nil.
           replace (size pre + 2 <? size pre + (1 + (1 + 0))) with false by lia.
           apply ch_eqb_eq in Ep. subst c. cbn [ch_eqb Ascii.eqb Bool.eqb].
           rewrite Hnext. apply Hstep.
        -- rewrite !size_cons.
           replace (size pre + 2 <? size pre + (1 + (1 + (1 + size rest))))
             with true by (pose proof (size_nonneg rest); lia).
           replace (pre ++ c :: a :: b :: rest)
             with ((pre ++ [c]) ++ [a; b] ++ rest)
             by (rewrite <- app_assoc; reflexivity).
           replace (size pre + 1) with (size (pre ++ [c]))
             by (rewrite size_app, size_cons, size_nil; lia).
           replace 2 with (size [a; b]) at 2 by reflexivity.
           rewrite substr_mid.
           replace ((pre ++ [c]) ++ [a; b] ++ rest)
             with ((pre ++ [c; a; b]) ++ rest)
             by (rewrite <- !app_assoc; reflexivity).
           replace (size pre + 2 + 1) with (size (pre ++ [c; a; b]))
             by (rewrite size_app, !size_cons, size_nil; lia).
           rewrite IH by (simpl in *; lia).
           rewrite <- app_assoc. reflexivity.
      * destruct (ch_eqb c "+"); rewrite Hnext; apply Hstep.
Qed.

Lemma decode_scanner (value : str) : Percent.decode value = decode_list value.
Proof.
  unfold Percent.decode.
  exact (decode_loop_spec (length value) [] value [] (Nat.le_refl _)).
Qed.

Lemma encode_char_ok_all (c : ascii) : c <> "%"%char -> encode_char_ok c = true.
Proof.
  intros Hc.
  destruct c as [[] [] [] [] [] [] [] []];
    try (vm_compute; reflexivity); exfalso; apply Hc; reflexivity.
Qed.

Lemma decode_encode_char (c : ascii) (rest : str) :
  c <> "%"%char ->
  decode_list (encode_char c ++ rest) = c :: decode_list rest.
Proof.
  intros Hc. pose proof (encode_char_ok_all c Hc) as Hok.
  unfold encode_char_ok in Hok.
  destruct (encode_char c) as [| d [| h [| l [| x e]]]]; try discriminate.
  - apply andb_prop in Hok as [Hd Hdc].
    cbn [app decode_list].
    destruct (ch_eqb d "%"); [discriminate|].
    destruct (ch_eqb d "+").
    + apply ch_eqb_eq in Hdc. subst c. reflexivity.
    + apply ch_eqb_eq in Hdc. subst c. reflexivity.
  - apply andb_prop in Hok as [Hp Hv].
    cbn [app decode_list]. rewrite Hp.
    apply ch_eqb_eq in Hv. rewrite Hv. reflexivity.
Qed.

(** The round trip holds for text that has no percent sign. *)
Lemma decode_encode_no_percent (x : str) :
  ~ In "%"%char x -> Percent.decode (Percent.encode x) = x.
Proof.
  rewrite decode_scanner, encode_flat_map.
  induction x as [| c x IH]; intros Hn; [reflexivity|].
  simpl flat_map. rewrite decode_encode_char.
  - f_equal. apply IH. intros Hin. apply Hn. right. assumption.
  - intros ->. apply Hn. left. reflexivity.
Qed.

(** C1 (the code at the failing input).  [encode] leaves a percent sign as
    it is, and [decode] then reads it as the start of an escape: "%41"
    is encoded as "%%34%31", which decodes to the three bytes 0, '4', '1'
    and not to "%41". *)
Theorem percent_round_trip_fails :
  Percent.encode (lit "%41") = lit "%%34%31"
  /\ Percent.decode (Percent.encode (lit "%41")) = [zero; "4"%char; "1"%char]
  /\ Percent.decode (Percent.encode (lit "%41")) <> lit "%41".
Proof.
  split; [reflexivity|]. split; [reflexivity|]. discriminate.
Qed.

(* ================================================================== *)
(** * QueryString: parse and create *)

Section QueryStringFacts.
Import QueryString.

(** Re-associate [pre ++ x :: t] so that the loop index stays [size pre]. *)
Lemma shift_one (pre : str) (x : ascii) (t : str) :
  pre ++ x :: t = (pre ++ [x]) ++ t /\ size pre + 1 = size (pre ++ [x]).
Proof.
  split; [rewrite <- app_assoc; reflexivity|].
  rewrite size_app, size_cons, size_nil. lia.
Qed.

(** Characters other than [&] and [=] leave the scan state alone. *)
Lemma scan_plain (t pre rest : str) (st : scan) :
  ~ In "&"%char t -> ~ In "="%char t ->
  for_range (length t) (size pre) (parse_body (pre ++ t ++ rest)) st = st.
Proof.
  revert pre. induction t as [| x t IH]; intros pre Ha He; [reflexivity|].
  cbn [length for_range app].
  assert (Hb : parse_body (pre ++ x :: t ++ rest) (size pre) st = st).
  { unfold parse_body. rewrite at_app.
    destruct (ch_eqb x "&") eqn:E1.
    - apply ch_eqb_eq in E1. subst. exfalso. apply Ha. left. reflexivity.
    - destruct (ch_eqb x "=") eqn:E2; [|reflexivity].
      apply ch_eqb_eq in E2. subst. exfalso. apply He. left. reflexivity. }
  rewrite Hb.
  destruct (shift_one pre x (t ++ rest)) as [-> ->].
  apply IH; intros Hin; [apply Ha | apply He]; right; assumption.
Qed.

(** Characters other than [&] leave [name_pos] and [result] alone. *)
Lemma scan_no_amp (t pre rest : str) (st : scan) :
  ~ In "&"%char t ->
  exists e v,
    for_range (length t) (size pre) (parse_body (pre ++ t ++ rest)) st =
    mkScan (name_pos st) e v (result st).
Proof.
  revert pre st. induction t as [| x t IH]; intros pre st Ha.
  - exists (name_end_pos st), (value_pos st). destruct st; reflexivity.
  - cbn [length for_range app].
    assert (Hb : exists e v, parse_body (pre ++ x :: t ++ rest) (size pre) st =
                             mkScan (name_pos st) e v (result st)).
    { unfold parse_body. rewrite at_app.
      destruct (ch_eqb x "&") eqn:E1.
      - apply ch_eqb_eq in E1. subst. exfalso. apply Ha. left. reflexivity.
      - destruct (ch_eqb x "=").
        + eexists _, _. reflexivity.
        + exists (name_end_pos st), (value_pos st). destruct st; reflexivity. }
    destruct Hb as (e & v & ->).
    destruct (shift_one pre x (t ++ rest)) as [-> ->].
    destruct (IH (pre ++ [x]) (mkScan (name_pos st) e v (result st))) as (e' & v' & ->).
    + intros Hin. apply Ha. right. assumption.
    + exists e', v'. reflexivity.
Qed.

(** The scan of one whole segment. *)
Lemma scan_segment (d : segment) (pre rest : str) (r : CaseInsensitiveMultimap) :
  segment_last_eq d ->
  for_range (length (render d)) (size pre)
            (parse_body (pre ++ render d ++ rest)) (mkScan (size pre) npos npos r)
  = segment_state d (size pre) r.
Proof.
  destruct d as [n [v |]]; unfold segment_last_eq, segment_state;
    cbn [fst snd render].
  - intros (Hn & Hv1 & Hv2).
    replace (length (n ++ "="%char :: v)) with (length n + (1 + length v))%nat
      by (rewrite length_app; reflexivity).
    rewrite for_range_app.
    rewrite <- (app_assoc n).
    destruct (scan_no_amp n pre (("="%char :: v) ++ rest)
                          (mkScan (size pre) npos npos r) Hn) as (e & v' & ->).
    cbn [name_pos result].
    rewrite for_range_app.
    replace (size pre + Z.of_nat (length n)) with (size (pre ++ n))
      by (rewrite size_app; reflexivity).
    rewrite (app_assoc pre n). cbn [for_range app].
    unfold parse_body at 2. rewrite at_app. cbn [ch_eqb Ascii.eqb Bool.eqb].
    cbn [name_pos result].
    destruct (shift_one (pre ++ n) "="%char (v ++ rest)) as [-> _].
    replace (size (pre ++ n) + Z.of_nat 1) with (size ((pre ++ n) ++ ["="%char]))
      by (rewrite !size_app, size_cons, size_nil; lia).
    rewrite scan_plain by assumption.
    rewrite !size_app. reflexivity.
  - intros (Hn & He).
    apply scan_plain; assumption.
Qed.

(** A segment and the [&] after it: the entry is emitted and the scan starts
    afresh behind the [&]. *)
Lemma scan_segment_amp (d : segment) (pre rest : str) (r : CaseInsensitiveMultimap) :
  segment_last_eq d ->
  size (pre ++ render d ++ "&"%char :: rest) <= npos ->
  for_range (length (render d) + 1) (size pre)
            (parse_body (pre ++ render d ++ "&"%char :: rest))
            (mkScan (size pre) npos npos r)
  = mkScan (size pre + size (render d) + 1) npos npos (r ++ segment_entry d).
Proof.
  intros Hd Hsz.
  rewrite for_range_app, scan_segment by assumption.
  cbn [for_range].
  replace (size pre + Z.of_nat (length (render d))) with (size (pre ++ render d))
    by (rewrite size_app; reflexivity).
  rewrite (app_assoc pre (render d)).
  unfold parse_body. rewrite at_app. cbn [ch_eqb Ascii.eqb Bool.eqb].
  rewrite <- (app_assoc pre (render d)).
  pose proof (size_nonneg pre) as Hp. pose proof (size_nonneg rest) as Hr.
  rewrite !size_app, size_cons in Hsz.
  destruct d as [n [v |]]; unfold segment_state, segment_entry;
    cbn [fst snd render name_pos name_end_pos value_pos result] in *.
  - pose proof (size_nonneg n) as Hn. pose proof (size_nonneg v) as Hv.
    rewrite size_app, size_cons in Hsz.
    replace (size pre + size n =? npos) with false by lia.
    replace (size pre + size n + 1 =? npos) with false by lia.
    rewrite usub_small by lia.
    replace (size pre + size n - size pre) with (size n) by lia.
    rewrite <- (app_assoc n), substr_mid.
    rewrite usub_small by (rewrite !size_app, size_cons; lia).
    replace (pre ++ n ++ ("="%char :: v) ++ "&"%char :: rest)
      with ((pre ++ n ++ ["="%char]) ++ v ++ "&"%char :: rest)
      by (rewrite <- !app_assoc; reflexivity).
    replace (size pre + size n + 1) with (size (pre ++ n ++ ["="%char]))
      by (rewrite !size_app, size_cons, size_nil; lia).
    replace (size (pre ++ n ++ "="%char :: v) - size (pre ++ n ++ ["="%char]))
      with (size v) by (rewrite !size_app, !size_cons, size_nil; lia).
    rewrite substr_mid.
    rewrite !size_app, !size_cons.
    destruct n; unfold emplace; rewrite ?app_nil_r; f_equal; lia.
  - pose proof (size_nonneg n) as Hn.
    rewrite Z.eqb_refl.
    rewrite usub_small by (rewrite !size_app; lia).
    replace (size (pre ++ n) - size pre) with (size n) by (rewrite size_app; lia).
    rewrite substr_mid.
    rewrite !size_app.
    destruct n; unfold emplace; rewrite ?app_nil_r; f_equal; lia.
Qed.

Lemma parse_unfold (query_string : str) :
  query_string <> [] ->
  parse query_string =
  parse_tail query_string
             (for_range (length query_string) 0 (parse_body query_string)
                        (mkScan 0 npos npos [])).
Proof. destruct query_string; [congruence | reflexivity]. Qed.

(** The last segment: what the code after the loop makes of it. *)
Lemma parse_tail_segment (d : segment) (pre : str) (r : CaseInsensitiveMultimap) :
  segment_last_eq d ->
  size (pre ++ render d) <= npos ->
  parse_tail (pre ++ render d) (segment_state d (size pre) r) = r ++ segment_entry d.
Proof.
  intros Hd Hsz. unfold parse_tail.
  pose proof (size_nonneg pre) as Hp.
  rewrite size_app in *.
  destruct d as [n [v |]]; unfold segment_state, segment_entry;
    cbn [fst snd render name_pos name_end_pos value_pos result] in *.
  - pose proof (size_nonneg n) as Hn. pose proof (size_nonneg v) as Hv.
    rewrite size_app, size_cons in *.
    replace (size pre <? size pre + (size n + (1 + size v))) with true by lia.
    rewrite usub_small by lia.
    replace (size pre + size n - size pre) with (size n) by lia.
    rewrite substr_mid.
    destruct n as [| x n]; [rewrite app_nil_r; reflexivity|].
    unfold substr_from.
    replace (pre ++ (x :: n) ++ "="%char :: v)
      with ((pre ++ (x :: n) ++ ["="%char]) ++ v)
      by (rewrite <- !app_assoc; reflexivity).
    replace (size pre + size (x :: n) + 1) with (size (pre ++ (x :: n) ++ ["="%char]))
      by (rewrite !size_app, !size_cons, size_nil; lia).
    rewrite substr_tail by lia.
    rewrite !size_app, !size_cons, size_nil.
    destruct v as [| y v].
    + match goal with |- context [?a <=? ?b] => destruct (a <=? b) end; reflexivity.
    + rewrite size_cons. pose proof (size_nonneg v).
      match goal with |- context [?a <=? ?b] => destruct (Z.leb_spec a b) end;
        [lia | reflexivity].
  - pose proof (size_nonneg n) as Hn.
    destruct n as [| x n].
    + rewrite size_nil, Z.add_0_r, Z.ltb_irrefl, app_nil_r. reflexivity.
    + rewrite size_cons in *. pose proof (size_nonneg n).
      replace (size pre <? size pre + (1 + size n)) with true by lia.
      assert (Hu : usub npos (size pre) = npos - size pre).
      { apply usub_small; lia. }
      rewrite Hu.
      replace (pre ++ x :: n) with (pre ++ (x :: n)) by reflexivity.
      rewrite substr_tail by (rewrite size_cons; lia).
      replace (size pre + (1 + size n) <=? npos) with true by lia.
      reflexivity.
Qed.

(** The loop and the code after it, over segments joined by [&]. *)
Lemma parse_join (segs : list segment) :
  forall (d : segment) (pre : str) (r : CaseInsensitiveMultimap),
    Forall segment_last_eq (d :: segs) ->
    size (pre ++ join "&" (map render (d :: segs))) <= npos ->
    parse_tail (pre ++ join "&" (map render (d :: segs)))
               (for_range (length (join "&" (map render (d :: segs)))) (size pre)
                          (parse_body (pre ++ join "&" (map render (d :: segs))))
                          (mkScan (size pre) npos npos r))
    = r ++ flat_map segment_entry (d :: segs).
Proof.
  induction segs as [| d' segs IH]; intros d pre r Hall Hsz.
  - cbn [map join flat_map] in *. rewrite app_nil_r.
    inversion Hall; subst.
    replace (parse_body (pre ++ render d))
      with (parse_body (pre ++ render d ++ [])) by (rewrite app_nil_r; reflexivity).
    rewrite scan_segment by assumption.
    apply parse_tail_segment; assumption.
  - inversion Hall as [| ? ? Hd Hrest]; subst.
    change (join "&" (map render (d :: d' :: segs)))
      with (render d ++ "&"%char :: join "&" (map render (d' :: segs))) in *.
    set (J := join "&" (map render (d' :: segs))) in *.
    replace (length (render d ++ "&"%char :: J))
      with ((length (render d) + 1) + length J)%nat
      by (rewrite length_app; simpl; lia).
    rewrite for_range_app, scan_segment_amp by assumption.
    replace (pre ++ render d ++ "&"%char :: J)
      with ((pre ++ render d ++ ["&"%char]) ++ J) in *
      by (rewrite <- !app_assoc; reflexivity).
    replace (size pre + Z.of_nat (length (render d) + 1))
      with (size (pre ++ render d ++ ["&"%char]))
      by (rewrite !size_app, size_cons, size_nil; unfold size; lia).
    replace (size pre + size (render d) + 1)
      with (size (pre ++ render d ++ ["&"%char]))
      by (rewrite !size_app, size_cons, size_nil; lia).
    subst J. rewrite IH by assumption.
    cbn [flat_map]. rewrite <- app_assoc. reflexivity.
Qed.

(** [parse] on segments joined by [&], each split at its last [=]: the
    entries of the segments, in order. *)
Lemma parse_segments (segs : list segment) :
  Forall segment_last_eq segs ->
  size (join "&" (map render segs)) <= npos ->
  parse (join "&" (map render segs)) = flat_map segment_entry segs.
Proof.
  intros Hall Hsz.
  destruct segs as [| d segs]; [reflexivity|].
  destruct (join "&" (map render (d :: segs))) eqn:EJ.
  - (* every segment is empty: a lone empty segment *)
    destruct segs as [| d' segs].
    + cbn [map join] in EJ. cbn [flat_map]. rewrite app_nil_r.
      destruct d as [n [v |]]; cbn [render] in EJ.
      * destruct n; discriminate.
      * subst n. reflexivity.
    + cbn [map join] in EJ. destruct (render d); discriminate.
  - rewrite <- EJ in *. rewrite parse_unfold by (rewrite EJ; discriminate).
    exact (parse_join segs d [] [] Hall Hsz).
Qed.

Lemma split_on_cons (sep : ascii) (s : str) :
  exists seg segs, split_on sep s = seg :: segs.
Proof.
  induction s as [| c s (seg & segs & IH)]; simpl; [eauto|].
  destruct (ch_eqb c sep); [eauto|]. rewrite IH. eauto.
Qed.

Lemma join_split_on (sep : ascii) (s : str) : join sep (split_on sep s) = s.
Proof.
  induction s as [| c s IH]; [reflexivity|].
  simpl split_on. destruct (split_on_cons sep s) as (seg & segs & E).
  rewrite E in *. destruct (ch_eqb c sep) eqn:Ec.
  - apply ch_eqb_eq in Ec. subst c.
    change (join sep ([] :: seg :: segs)) with (sep :: join sep (seg :: segs)).
    rewrite IH. reflexivity.
  - destruct segs; simpl in *; rewrite IH; reflexivity.
Qed.

Lemma split_on_free (sep : ascii) (s : str) :
  Forall (fun seg => ~ In sep seg) (split_on sep s).
Proof.
  induction s as [| c s IH]; simpl; [constructor; [intros [] | constructor]|].
  destruct (ch_eqb c sep) eqn:Ec.
  - constructor; [intros [] | assumption].
  - apply ch_eqb_neq in Ec.
    destruct (split_on sep s) as [| seg segs]; [constructor; [|constructor]|].
    + intros [H | []]. congruence.
    + inversion IH; subst. constructor; [|assumption].
      intros [H | H]; [congruence | contradiction].
Qed.

Lemma render_segment_of (piece : str) : render (segment_of piece) = piece.
Proof.
  unfold segment_of. destruct (split_last "=" piece) as [[n v] |] eqn:E; [|reflexivity].
  apply split_last_some in E as [-> _]. reflexivity.
Qed.

Lemma segment_of_last_eq (piece : str) :
  ~ In "&"%char piece -> segment_last_eq (segment_of piece).
Proof.
  intros Hn. unfold segment_of, segment_last_eq.
  destruct (split_last "=" piece) as [[n v] |] eqn:E; cbn [fst snd].
  - apply split_last_some in E as [-> Hv].
    split; [|split; [|assumption]]; intros Hin; apply Hn; apply in_or_app;
      [left | right; right]; assumption.
  - split; [assumption | apply split_last_none; assumption].
Qed.

(** [parse] on any query string: the entries of its pieces between
    ampersands, each divided at its last [=]. *)
Lemma query_parse_total (query_string : str) :
  size query_string <= npos ->
  parse query_string =
  flat_map segment_entry (map segment_of (split_on "&" query_string)).
Proof.
  intros Hsz.
  assert (Hj : join "&" (map render (map segment_of (split_on "&" query_string)))
               = query_string).
  { rewrite map_map.
    rewrite (map_ext _ (fun x => x) render_segment_of), map_id.
    apply join_split_on. }
  rewrite <- Hj at 1. apply parse_segments.
  - rewrite Forall_map. eapply Forall_impl; [|apply split_on_free].
    exact segment_of_last_eq.
  - rewrite Hj. assumption.
Qed.

End QueryStringFacts.

(** C2 (the code at the failing input).  The segment "a=b=c" has two equals
    signs; the result is the one entry with name "a=b" and value "c": the
    segment is divided at its last equals sign, not at the first, which
    would give name "a" and value "b=c". *)
Theorem query_parse_two_equals :
  QueryString.parse (lit "a=b=c") = [(lit "a=b", lit "c")]
  /\ lit "a=b" <> lit "a" /\ lit "c" <> lit "b=c".
Proof.
  split; [reflexivity|]. split; discriminate.
Qed.

(* ================================================================== *)
(** * QueryString: create followed by parse *)

Lemma join_cons (sep : ascii) (x : str) (l : list str) :
  join sep (x :: l) = x ++ flat_map (fun s => sep :: s) l.
Proof.
  revert x. induction l as [| y l IH]; intros x.
  - simpl. symmetry. apply app_nil_r.
  - change (join sep (x :: y :: l)) with (x ++ sep :: join sep (y :: l)).
    rewrite IH. reflexivity.
Qed.

Lemma create_fold (fields : CaseInsensitiveMultimap) (res : str) :
  fst (fold_left QueryString.create_step fields (res, false)) =
  res ++ flat_map (fun s => "&"%char :: s) (map render (map field_segment fields)).
Proof.
  revert res. induction fields as [| f fields IH]; intros res.
  - simpl. symmetry. apply app_nil_r.
  - cbn [fold_left QueryString.create_step negb map flat_map].
    rewrite IH. unfold field_segment at 2. cbn [render fst snd].
    repeat first [rewrite <- app_assoc | progress cbn [app]]. reflexivity.
Qed.

(** [create] writes the fields' segments joined by [&]. *)
Lemma create_join (fields : CaseInsensitiveMultimap) :
  QueryString.create fields = join "&" (map render (map field_segment fields)).
Proof.
  destruct fields as [| f fields]; [reflexivity|].
  unfold QueryString.create.
  cbn [fold_left QueryString.create_step negb map].
  rewrite create_fold, join_cons.
  unfold field_segment at 2. cbn [render fst snd].
  repeat first [rewrite <- app_assoc | progress cbn [app]]. reflexivity.
Qed.

Lemma encode_char_clean_all (c : ascii) : encode_char_clean c = true.
Proof. destruct c as [[] [] [] [] [] [] [] []]; vm_compute; reflexivity. Qed.

Lemma encode_clean (v : str) :
  ~ In "&"%char (Percent.encode v) /\ ~ In "="%char (Percent.encode v).
Proof.
  rewrite encode_flat_map.
  induction v as [| c v [IH1 IH2]]; [split; intros []|].
  pose proof (encode_char_clean_all c) as Hc. unfold encode_char_clean in Hc.
  rewrite forallb_forall in Hc.
  simpl flat_map. split; intros Hin; apply in_app_or in Hin as [Hin | Hin];
    try contradiction; apply Hc in Hin; discriminate.
Qed.

Lemma field_entries (m : CaseInsensitiveMultimap) :
  Forall (fun kv => fst kv <> [] /\ ~ In "%"%char (snd kv)) m ->
  flat_map segment_entry (map field_segment m) = m.
Proof.
  induction 1 as [| [k v] m [Hk Hv] _ IH]; [reflexivity|].
  cbn [map flat_map]. rewrite IH.
  unfold segment_entry, field_segment. cbn [fst snd] in *.
  destruct k; [congruence|].
  rewrite decode_encode_no_percent by assumption. reflexivity.
Qed.

(** C4 (as amended).  For a multimap whose keys are non-empty and free of
    [&] and whose values are free of [%], [parse (create m)] holds the same
    (key, value) pairs as [m], ignoring order. *)
Theorem query_create_parse (m : CaseInsensitiveMultimap) :
  Forall (fun kv => fst kv <> [] /\ ~ In "&"%char (fst kv)
                    /\ ~ In "%"%char (snd kv)) m ->
  size (QueryString.create m) <= npos ->
  Permutation (QueryString.parse (QueryString.create m)) m.
Proof.
  intros Hm Hsz. rewrite create_join in *.
  rewrite parse_segments; [| | assumption].
  - rewrite field_entries; [apply Permutation_refl|].
    eapply Forall_impl; [|exact Hm]. cbn beta. tauto.
  - rewrite Forall_map. eapply Forall_impl; [|exact Hm].
    intros [k v] (_ & Hk & _). unfold segment_last_eq, field_segment.
    cbn [fst snd] in *. split; [assumption|]. apply encode_clean.
Qed.

(** The theorem at the multimap \{k: "a b&c=d", z: ""\}. *)
Lemma query_create_parse_witness :
  Permutation
    (QueryString.parse
       (QueryString.create [(lit "k", lit "a b&c=d"); (lit "z", [])]))
    [(lit "k", lit "a b&c=d"); (lit "z", [])].
Proof.
  apply query_create_parse.
  - repeat constructor; cbn; intuition discriminate.
  - vm_compute. discriminate.
Defined.

(** C4 (counterexample).  A key holding [&] comes back as two entries, and
    a value holding a percent sign comes back changed; both keys are
    non-empty. *)
Lemma query_create_parse_counterexample :
  ~ Permutation (QueryString.parse (QueryString.create [(lit "a&b", lit "v")]))
                [(lit "a&b", lit "v")]
  /\ ~ Permutation (QueryString.parse (QueryString.create [(lit "k", lit "%41")]))
                   [(lit "k", lit "%41")].
Proof.
  split; intros H.
  - apply Permutation_length in H. vm_compute in H. discriminate.
  - apply Permutation_sym, Permutation_length_1_inv in H.
    vm_compute in H. discriminate.
Qed.

(* ================================================================== *)
(** * getline and HttpHeader *)

Lemma read_line_to_newline (l rest : str) :
  ~ In newline l -> read_line (l ++ newline :: rest) = (l, Some rest).
Proof.
  induction l as [| c l IH]; intros Hn; simpl.
  - reflexivity.
  - destruct (ch_eqb c newline) eqn:E.
    + apply ch_eqb_eq in E. subst. exfalso. apply Hn. left. reflexivity.
    + rewrite IH by (intros H; apply Hn; right; assumption). reflexivity.
Qed.

Lemma read_line_to_end (l : str) : ~ In newline l -> read_line l = (l, None).
Proof.
  induction l as [| c l IH]; intros Hn; simpl; [reflexivity|].
  destruct (ch_eqb c newline) eqn:E.
  - apply ch_eqb_eq in E. subst. exfalso. apply Hn. left. reflexivity.
  - rewrite IH by (intros H; apply Hn; right; assumption). reflexivity.
Qed.

(** [getline] on a good stream that starts with a line. *)
Lemma getline_line (l tail prev : str) :
  ~ In newline l ->
  (tail = [] \/ exists rest, tail = newline :: rest) ->
  getline (stream_of (l ++ tail)) prev = (l, after_line l tail).
Proof.
  intros Hn [-> | (rest & ->)]; unfold getline, stream_of, good; cbn [unread eofbit failbit negb andb].
  - rewrite app_nil_r, read_line_to_end by assumption. reflexivity.
  - rewrite read_line_to_newline by assumption. reflexivity.
Qed.

Lemma find_first (s a b : str) (ch : ascii) :
  s = a ++ ch :: b -> ~ In ch a -> find s ch 0 = size a.
Proof.
  intros -> Hn. change 0 with (size []).
  change (a ++ ch :: b) with ([] ++ (a ++ ch :: b)).
  rewrite find_app.
  destruct (a ++ ch :: b) eqn:E; [destruct a; discriminate|].
  rewrite <- E, find_aux_hit by assumption. rewrite size_nil. lia.
Qed.

Lemma find_absent (s : str) (ch : ascii) (pos : Z) :
  0 <= pos -> ~ In ch s -> find s ch pos = npos.
Proof.
  intros Hp Hn. unfold find. destruct (size s <=? pos); [reflexivity|].
  apply find_aux_none. intros Hin. apply Hn.
  rewrite <- (firstn_skipn (Z.to_nat pos) s). apply in_or_app. right. assumption.
Qed.

Lemma firstn_pred_removelast (a : str) (n : Z) :
  n = size a - 1 -> firstn (Z.to_nat n) a = removelast a.
Proof.
  intros ->. rewrite removelast_firstn_len. f_equal. unfold size. lia.
Qed.

(** The body of the header loop on a line with a colon. *)
Lemma header_line_field (h : str * str) (r : CaseInsensitiveMultimap) :
  size (header_text h) <= npos ->
  HttpHeader.header_line (header_text h) (size (fst h)) r = r ++ header_field h.
Proof.
  destruct h as [name after]. unfold header_text, header_field, HttpHeader.header_line.
  cbn [fst snd]. intros Hsz.
  pose proof (size_nonneg name) as Hname.
  rewrite size_app, size_cons in *.
  destruct after as [| c a].
  - rewrite size_nil. decide_cmp. symmetry. apply app_nil_r.
  - rewrite size_cons in *. pose proof (size_nonneg a) as Ha.
    decide_cmp.
    replace (name ++ ":"%char :: c :: a) with ((name ++ [":"%char]) ++ c :: a)
      by (rewrite <- app_assoc; reflexivity).
    replace (size name + 1) with (size (name ++ [":"%char]))
      by (rewrite size_app, size_cons, size_nil; lia).
    rewrite at_app.
    assert (Hname0 : forall t, substr ((name ++ [":"%char]) ++ t) 0 (size name) = name).
    { intros t. rewrite <- app_assoc.
      change (name ++ [":"%char] ++ t) with ([] ++ name ++ ([":"%char] ++ t)).
      change 0 with (size []). apply substr_mid. }
    rewrite Hname0.
    destruct (ch_eqb c " ") eqn:Ec.
    + replace ((name ++ [":"%char]) ++ c :: a) with ((name ++ [":"%char; c]) ++ a)
        by (rewrite <- !app_assoc; reflexivity).
      replace (size (name ++ [":"%char]) + 1) with (size (name ++ [":"%char; c]))
        by (rewrite !size_app, !size_cons, size_nil; lia).
      rewrite substr_app.
      destruct a as [| y a].
      * rewrite !size_app, !size_cons, !size_nil. decide_cmp.
        symmetry. apply app_nil_r.
      * rewrite !size_app, !size_cons, size_nil in *.
        pose proof (size_nonneg a).
        decide_cmp.
        usub_norm.
        rewrite Z.min_l by lia.
        rewrite firstn_pred_removelast by (rewrite size_cons; lia). reflexivity.
    + rewrite substr_app.
      rewrite !size_app, !size_cons, size_nil in *.
      decide_cmp.
      usub_norm.
      rewrite Z.min_l by lia.
      rewrite firstn_pred_removelast by (rewrite size_cons; lia).
      reflexivity.
Qed.

(** [getline] followed by the header loop, over header lines and then a
    line without a colon. *)
Lemma header_loop_lines (t tail : str) (hs : list (str * str)) :
  ~ In ":"%char t -> ~ In newline t ->
  (tail = [] \/ exists rest, tail = newline :: rest) ->
  Forall header_line_ok hs ->
  forall (fuel : nat) (prev : str) (r : CaseInsensitiveMultimap),
    size (header_lines hs ++ t ++ tail) <= npos ->
    (length hs < fuel)%nat ->
    (let '(line, stream) := getline (stream_of (header_lines hs ++ t ++ tail)) prev in
     HttpHeader.parse_loop fuel stream line r)
    = Some (r ++ flat_map header_field hs, after_line t tail).
Proof.
  intros Ht1 Ht2 Htail. induction 1 as [| h hs (Hh1 & Hh2 & Hh3) _ IH];
    intros fuel prev r Hsz Hfuel.
  - cbn [header_lines flat_map app] in *.
    rewrite getline_line by assumption.
    destruct fuel as [| fuel]; [simpl in Hfuel; lia|].
    cbn [HttpHeader.parse_loop].
    rewrite find_absent by (assumption || lia).
    rewrite Z.eqb_refl. cbn [negb]. rewrite app_nil_r. reflexivity.
  - cbn [header_lines flat_map] in *. fold (header_lines hs) in *.
    rewrite <- !app_assoc in *. cbn [app] in *.
    rewrite getline_line.
    2:{ unfold header_text. intros Hin. apply in_app_or in Hin as [Hin | [Hin | Hin]];
        [contradiction | discriminate | contradiction]. }
    2:{ right. eexists. reflexivity. }
    destruct fuel as [| fuel]; [simpl in Hfuel; lia|].
    cbn [HttpHeader.parse_loop after_line].
    rewrite (find_first (header_text h) (fst h) (snd h)) by (reflexivity || assumption).
    pose proof (size_nonneg (fst h)). pose proof (size_nonneg (snd h)).
    pose proof (size_nonneg (header_lines hs ++ t ++ tail)).
    rewrite size_app, size_cons in Hsz.
    assert (Hline : size (header_text h) <= npos) by lia.
    unfold header_text in Hline at 1. rewrite size_app, size_cons in Hline.
    replace (size (fst h) =? npos) with false by lia. cbn [negb].
    rewrite header_line_field by (unfold header_text; rewrite size_app, size_cons; lia).
    change (mkStream (header_lines hs ++ t ++ tail) false false)
      with (stream_of (header_lines hs ++ t ++ tail)).
    pose proof (size_nonneg (header_text h)).
    rewrite IH; [| lia | simpl in Hfuel; lia].
    rewrite <- app_assoc. reflexivity.
Qed.

(** C8 (as amended).  [HttpHeader::parse] has no failure result.  On a
    stream that holds [n] lines with a colon, each ended by a line feed,
    and then a line without a colon (ended by a line feed or by the end of
    input), it returns after [n + 1] rounds of its loop, having consumed
    exactly these lines.  A line with at least one character after the
    colon and the one optional space gives one entry: the name is the text
    before the first colon, the value the text after it without that space
    and without its last character.  The other lines give no entry.  On
    "Name: value" CRLF CRLF the result is the one entry Name, value. *)
Theorem header_parse_lines (hs : list (str * str)) (t tail : str) (fuel : nat) :
  Forall header_line_ok hs ->
  ~ In ":"%char t -> ~ In newline t ->
  (tail = [] \/ exists rest, tail = newline :: rest) ->
  size (header_lines hs ++ t ++ tail) <= npos ->
  (length hs < fuel)%nat ->
  HttpHeader.parse fuel (stream_of (header_lines hs ++ t ++ tail))
  = Some (flat_map header_field hs, after_line t tail)
  /\ HttpHeader.parse 2 (stream_of (lit "Name: value" ++ [cr; newline; cr; newline]))
     = Some ([(lit "Name", lit "value")], stream_of []).
Proof.
  intros Hhs Ht1 Ht2 Htail Hsz Hfuel. split; [|reflexivity].
  unfold HttpHeader.parse.
  exact (header_loop_lines t tail hs Ht1 Ht2 Htail Hhs fuel [] [] Hsz Hfuel).
Qed.

(** The theorem at a stream of three header lines, a blank line and a body. *)
Lemma header_parse_lines_witness :
  HttpHeader.parse 4
    (stream_of (lit "Host: a" ++ [cr; newline] ++ lit "X:" ++ [newline]
                ++ lit "Y:1" ++ [cr; newline] ++ [cr] ++ newline :: lit "body"))
  = Some ([(lit "Host", lit "a"); (lit "Y", lit "1")], stream_of (lit "body")).
Proof.
  apply (header_parse_lines
           [(lit "Host", lit " a" ++ [cr]); (lit "X", []); (lit "Y", lit "1" ++ [cr])]
           [cr] (newline :: lit "body") 4).
  - repeat constructor; cbn; intuition discriminate.
  - cbn; intuition discriminate.
  - cbn; intuition discriminate.
  - right. eexists. reflexivity.
  - vm_compute. discriminate.
  - simpl. lia.
Defined.

(** C8 (counterexample).  The line "A:" has a colon and is consumed, but
    nothing follows the colon and no entry is emitted for it. *)
Lemma header_parse_counterexample :
  HttpHeader.parse 2 (stream_of (lit "A:" ++ [newline; newline]))
  = Some ([], stream_of []).
Proof. reflexivity. Qed.

(** On input that ends inside a line with a colon the next [getline] finds
    the stream at its end and leaves [line] as it was, so the loop test
    never changes: the loop does not finish, whatever the fuel. *)
Lemma header_loop_stuck (fuel : nat) :
  forall (line : str) (r : CaseInsensitiveMultimap) (fb : bool),
    find line ":" 0 <> npos ->
    HttpHeader.parse_loop fuel (mkStream [] true fb) line r = None.
Proof.
  induction fuel as [| fuel IH]; intros line r fb Hf; [reflexivity|].
  cbn [HttpHeader.parse_loop].
  replace (find line ":" 0 =? npos) with false by lia. cbn [negb].
  unfold getline, good. cbn [eofbit negb andb unread failbit].
  apply IH. assumption.
Qed.

Lemma header_parse_truncated (fuel : nat) :
  HttpHeader.parse fuel (stream_of (lit "A: b")) = None.
Proof.
  unfold HttpHeader.parse. cbn [getline]. 
  change (getline (stream_of (lit "A: b")) []) with (lit "A: b", mkStream [] true false).
  cbv iota beta. apply header_loop_stuck. vm_compute. discriminate.
Qed.

(* ================================================================== *)
(** * RequestMessage *)

Section RequestMessageFacts.
Import RequestMessage.

Lemma query_mark_split (t : str) (i q : Z) :
  query_mark t i q =
  match split_last "?" t with
  | None => q
  | Some (a, _) => i + size a + 1
  end.
Proof.
  revert i q. induction t as [| c t IH]; intros i q; [reflexivity|].
  cbn [query_mark split_last]. rewrite IH.
  destruct (split_last "?" t) as [[a b] |].
  - rewrite size_cons. lia.
  - destruct (ch_eqb c "?"); [rewrite size_nil; lia | reflexivity].
Qed.

(** The scan of a target that a space ends. *)
Lemma scan_target_space (t : str) :
  forall (pre rest : str) (q : Z),
    ~ In " "%char t ->
    scan_target (length (t ++ " "%char :: rest)) (pre ++ t ++ " "%char :: rest)
                (size pre) q npos
    = (query_mark t (size pre) q, size pre + size t).
Proof.
  induction t as [| c t IH]; intros pre rest q Hn.
  - cbn [app length scan_target query_mark]. rewrite at_app.
    cbn [ch_eqb Ascii.eqb Bool.eqb andb]. rewrite size_nil. f_equal. lia.
  - cbn [app length scan_target query_mark]. rewrite at_app.
    assert (Hc : ch_eqb c " " = false).
    { apply ch_eqb_neq. intros ->. apply Hn. left. reflexivity. }
    assert (Hlt : (size pre + 1 <? size (pre ++ c :: t ++ " "%char :: rest)) = true).
    { rewrite !size_app, !size_cons, size_app, size_cons.
      pose proof (size_nonneg t). pose proof (size_nonneg rest). lia. }
    rewrite Hlt, Hc, andb_true_r.
    destruct (shift_one pre c (t ++ " "%char :: rest)) as [-> ->].
    destruct (ch_eqb c "?"); rewrite IH by (intros H; apply Hn; right; assumption);
      rewrite !size_app, !size_cons, size_nil; f_equal; lia.
Qed.

(** The scan of a target that no space ends. *)
Lemma scan_target_open (t : str) :
  forall (pre : str) (q : Z),
    ~ In " "%char t ->
    snd (scan_target (length t) (pre ++ t) (size pre) q npos) = npos.
Proof.
  induction t as [| c t IH]; intros pre q Hn; [reflexivity|].
  cbn [length scan_target]. rewrite at_app.
  assert (Hc : ch_eqb c " " = false).
  { apply ch_eqb_neq. intros ->. apply Hn. left. reflexivity. }
  rewrite Hc.
  destruct (shift_one pre c t) as [-> ->].
  destruct (ch_eqb c "?" && _); apply IH; intros H; apply Hn; right; assumption.
Qed.

(** [find] from the end of a prefix. *)
Lemma find_after (pre a b : str) (ch : ascii) :
  ~ In ch a -> find (pre ++ a ++ ch :: b) ch (size pre) = size pre + size a.
Proof.
  intros Hn. rewrite find_app.
  destruct (a ++ ch :: b) eqn:E; [destruct a; discriminate|].
  rewrite <- E. apply find_aux_hit. assumption.
Qed.

Lemma find_after_absent (pre t : str) (ch : ascii) :
  ~ In ch t -> find (pre ++ t) ch (size pre) = npos.
Proof.
  intros Hn. rewrite find_app. destruct t; [reflexivity|].
  apply find_aux_none. assumption.
Qed.

(** [parse] as its blocks. *)
Lemma request_parse_blocks (fuel : nat) (stream : istream) (o : outs) :
  parse fuel stream o =
  let '(line, stream') := getline stream [] in
  let method_end := find line " " 0 in
  if negb (method_end =? npos) then
    let '(query_start, e) :=
      scan_target (Z.to_nat (size line - (method_end + 1))) line
                  (method_end + 1) npos npos in
    if negb (e =? npos) then
      request_protocol fuel line e
                       (request_target_outs line method_end query_start e o) stream'
    else Some (false,
               mkOuts (substr line 0 method_end) (path o) (query_string o)
                      (version o) [], stream')
  else Some (false, mkOuts (method o) (path o) (query_string o) (version o) [],
             stream').
Proof.
  unfold parse, request_protocol, request_target_outs.
  destruct (getline stream []) as [line stream'].
  cbv zeta.
  destruct (negb (find line " " 0 =? npos)); [|reflexivity].
  destruct (scan_target _ _ _ _ _) as [query_start e].
  destruct (negb (e =? npos)); [|reflexivity].
  destruct (negb (query_start =? npos)); reflexivity.
Qed.

(** A request line without any space. *)
Lemma request_no_space (fuel : nat) (stream stream' : istream) (o : outs) (line : str) :
  getline stream [] = (line, stream') ->
  ~ In " "%char line ->
  parse fuel stream o =
  Some (false, mkOuts (method o) (path o) (query_string o) (version o) [], stream').
Proof.
  intros Hg Hn. rewrite request_parse_blocks, Hg. cbv zeta.
  rewrite find_absent by (assumption || lia). reflexivity.
Qed.

Lemma substr_prefix (a b : str) : substr (a ++ b) 0 (size a) = a.
Proof.
  change (a ++ b) with ([] ++ a ++ b). change 0 with (size []).
  apply substr_mid.
Qed.

(** A request line with a method and nothing that ends the target. *)
Lemma request_no_target_end (fuel : nat) (stream stream' : istream) (o : outs)
      (m r : str) :
  getline stream [] = (m ++ " "%char :: r, stream') ->
  size (m ++ " "%char :: r) <= npos ->
  ~ In " "%char m -> ~ In " "%char r ->
  parse fuel stream o =
  Some (false, mkOuts m (path o) (query_string o) (version o) [], stream').
Proof.
  intros Hg Hsz Hm Hr. rewrite request_parse_blocks, Hg. cbv zeta.
  rewrite (find_first _ m r) by (reflexivity || assumption).
  pose proof (size_nonneg m). pose proof (size_nonneg r).
  rewrite substr_prefix.
  rewrite size_app, size_cons in *.
  decide_cmp. cbn [negb].
  replace (Z.to_nat (size m + (1 + size r) - (size m + 1))) with (length r)
    by (unfold size; lia).
  destruct (shift_one m " "%char r) as [-> ->].
  pose proof (scan_target_open r (m ++ [" "%char]) npos Hr) as Hs.
  destruct (scan_target _ _ _ _ _) as [qs e]. cbn [snd] in Hs. subst e.
  reflexivity.
Qed.

(** The out-parameters after the target. *)
Lemma request_target_outs_spec (o : outs) (m t r : str) :
  size (m ++ " "%char :: t ++ " "%char :: r) <= npos ->
  request_target_outs (m ++ " "%char :: t ++ " "%char :: r) (size m)
                      (query_mark t (size m + 1) npos) (size m + 1 + size t) o
  = request_outs_target o m t.
Proof.
  intros Hsz. unfold request_target_outs, request_outs_target.
  pose proof (size_nonneg m). pose proof (size_nonneg t). pose proof (size_nonneg r).
  rewrite size_app, size_cons, size_app, size_cons in Hsz.
  rewrite substr_prefix, query_mark_split.
  assert (Hp2 : size m + 1 = size (m ++ [" "%char]))
    by (rewrite size_app, size_cons, size_nil; lia).
  destruct (split_last "?" t) as [[a b] |] eqn:Es.
  - apply split_last_some in Es as [Et _].
    pose proof (size_nonneg a). pose proof (size_nonneg b).
    assert (Hta : size t = size a + 1 + size b)
      by (rewrite Et, size_app, size_cons; lia).
    decide_cmp. cbn [negb]. usub_norm.
    f_equal.
    + replace (size m + 1 + size a + 1 - size m - 2) with (size a) by lia.
      rewrite Hp2, Et.
      replace (m ++ " "%char :: (a ++ "?"%char :: b) ++ " "%char :: r)
        with ((m ++ [" "%char]) ++ a ++ ("?"%char :: b ++ " "%char :: r))
        by (repeat first [rewrite <- app_assoc | progress cbn [app]]; reflexivity).
      apply substr_mid.
    + replace (size m + 1 + size t - (size m + 1 + size a + 1)) with (size b) by lia.
      replace (size m + 1 + size a + 1) with (size (m ++ " "%char :: a ++ ["?"%char]))
        by (rewrite size_app, size_cons, size_app, size_cons, size_nil; lia).
      rewrite Et.
      replace (m ++ " "%char :: (a ++ "?"%char :: b) ++ " "%char :: r)
        with ((m ++ " "%char :: a ++ ["?"%char]) ++ b ++ (" "%char :: r))
        by (repeat first [rewrite <- app_assoc | progress cbn [app]]; reflexivity).
      apply substr_mid.
  - rewrite Z.eqb_refl. cbn [negb]. usub_norm.
    replace (size m + 1 + size t - size m - 1) with (size t) by lia.
    f_equal. rewrite Hp2.
    replace (m ++ " "%char :: t ++ " "%char :: r)
      with ((m ++ [" "%char]) ++ t ++ (" "%char :: r))
      by (rewrite <- app_assoc; reflexivity).
    apply substr_mid.
Qed.

(** A request line with method and target: what is left is the protocol
    block. *)
Lemma request_after_target (fuel : nat) (stream stream' : istream) (o : outs)
      (m t r : str) :
  getline stream [] = (m ++ " "%char :: t ++ " "%char :: r, stream') ->
  size (m ++ " "%char :: t ++ " "%char :: r) <= npos ->
  ~ In " "%char m -> ~ In " "%char t ->
  parse fuel stream o =
  request_protocol fuel (m ++ " "%char :: t ++ " "%char :: r)
                   (size m + 1 + size t) (request_outs_target o m t) stream'.
Proof.
  intros Hg Hsz Hm Ht. rewrite request_parse_blocks, Hg. cbv zeta.
  rewrite (find_first _ m (t ++ " "%char :: r)) by (reflexivity || assumption).
  pose proof (size_nonneg m). pose proof (size_nonneg t). pose proof (size_nonneg r).
  pose proof Hsz as Hsz'.
  rewrite size_app, size_cons, size_app, size_cons in Hsz'.
  decide_cmp. cbn [negb].
  replace (Z.to_nat (size (m ++ " "%char :: t ++ " "%char :: r) - (size m + 1)))
    with (length (t ++ " "%char :: r))
    by (rewrite size_app, size_cons; unfold size; lia).
  assert (Hs : scan_target (length (t ++ " "%char :: r))
                           (m ++ " "%char :: t ++ " "%char :: r)
                           (size m + 1) npos npos
               = (query_mark t (size m + 1) npos, size m + 1 + size t)).
  { destruct (shift_one m " "%char (t ++ " "%char :: r)) as [-> ->].
    rewrite scan_target_space by assumption. reflexivity. }
  rewrite Hs. decide_cmp. cbn [negb].
  rewrite request_target_outs_spec by assumption. reflexivity.
Qed.

(** The protocol block, by what follows the target. *)
Lemma request_protocol_no_slash (fuel : nat) (o1 : outs) (stream' : istream)
      (pre r : str) :
  ~ In "/"%char r ->
  request_protocol fuel (pre ++ " "%char :: r) (size pre) o1 stream'
  = Some (false, o1, stream').
Proof.
  intros Hr. unfold request_protocol.
  destruct (shift_one pre " "%char r) as [-> ->].
  rewrite find_after_absent by assumption. reflexivity.
Qed.

Lemma request_protocol_slash (fuel : nat) (o1 : outs) (stream' : istream)
      (pre p v : str) :
  size (pre ++ " "%char :: p ++ "/"%char :: v) <= npos ->
  ~ In "/"%char p ->
  request_protocol fuel (pre ++ " "%char :: p ++ "/"%char :: v) (size pre) o1 stream'
  = if negb (str_eqb p (lit "HTTP")) then Some (false, o1, stream')
    else
      match HttpHeader.parse fuel stream' with
      | Some (h, s) =>
          Some (true, mkOuts (method o1) (path o1) (query_string o1) (removelast v) h, s)
      | None => None
      end.
Proof.
  intros Hsz Hp. unfold request_protocol.
  pose proof (size_nonneg pre). pose proof (size_nonneg p). pose proof (size_nonneg v).
  assert (Hline : size (pre ++ " "%char :: p ++ "/"%char :: v)
                  = size pre + 1 + size p + 1 + size v)
    by (rewrite size_app, size_cons, size_app, size_cons; lia).
  rewrite Hline in *.
  destruct (shift_one pre " "%char (p ++ "/"%char :: v)) as [-> Hp2].
  rewrite Hp2, find_after by assumption. rewrite <- Hp2.
  cbv zeta. decide_cmp. cbn [negb]. usub_norm.
  replace (size pre + 1 + size p - size pre - 1) with (size p) by lia.
  rewrite Hp2 at 1. rewrite substr_mid.
  destruct (negb (str_eqb p (lit "HTTP"))); [reflexivity|].
  destruct (HttpHeader.parse fuel stream') as [[h s] |]; [|reflexivity].
  do 3 f_equal.
  replace ((pre ++ [" "%char]) ++ p ++ "/"%char :: v)
    with ((pre ++ " "%char :: p ++ ["/"%char]) ++ v)
    by (repeat first [rewrite <- app_assoc | progress cbn [app]]; reflexivity).
  replace (size pre + 1 + size p + 1)
    with (size (pre ++ " "%char :: p ++ ["/"%char]))
    by (rewrite size_app, size_cons, size_app, size_cons, size_nil; lia).
  rewrite substr_app.
  rewrite size_app, size_cons, size_app, size_cons, size_nil.
  destruct v as [| x v].
  - rewrite firstn_nil. reflexivity.
  - rewrite size_cons in *. pose proof (size_nonneg v). usub_norm.
    rewrite Z.min_l by lia.
    rewrite firstn_pred_removelast by (rewrite size_cons; lia). reflexivity.
Qed.

(** Every line has one of these shapes. *)
Lemma request_line_shapes (line : str) :
  ~ In " "%char line
  \/ (exists m r, line = m ++ " "%char :: r /\ ~ In " "%char m /\ ~ In " "%char r)
  \/ (exists m t r, line = m ++ " "%char :: t ++ " "%char :: r
                    /\ ~ In " "%char m /\ ~ In " "%char t /\ ~ In "/"%char r)
  \/ (exists m t p v, line = m ++ " "%char :: t ++ " "%char :: p ++ "/"%char :: v
                      /\ ~ In " "%char m /\ ~ In " "%char t /\ ~ In "/"%char p).
Proof.
  destruct (split_first_cases " " line) as [Hn | (m & r & -> & Hm)]; [left; assumption|].
  right.
  destruct (split_first_cases " " r) as [Hn | (t & r' & -> & Ht)];
    [left; exists m, r; auto|].
  right.
  destruct (split_first_cases "/" r') as [Hn | (p & v & -> & Hp)].
  - left. exists m, t, r'. auto.
  - right. exists m, t, p, v. auto.
Qed.

(** A well-formed request line: method, target divided at its last question
    mark, version without its last character, then the header fields. *)
Lemma request_parse_well_formed (fuel : nat) (stream stream' : istream) (o : outs)
      (m t v : str) :
  getline stream [] = (m ++ " "%char :: t ++ " "%char :: lit "HTTP" ++ "/"%char :: v,
                       stream') ->
  size (m ++ " "%char :: t ++ " "%char :: lit "HTTP" ++ "/"%char :: v) <= npos ->
  ~ In " "%char m -> ~ In " "%char t ->
  parse fuel stream o =
  match HttpHeader.parse fuel stream' with
  | Some (h, s) =>
      let o1 := request_outs_target o m t in
      Some (true, mkOuts m (path o1) (query_string o1) (removelast v) h, s)
  | None => None
  end.
Proof.
  intros Hg Hsz Hm Ht.
  rewrite (request_after_target fuel stream stream' o m t _ Hg Hsz Hm Ht).
  replace (m ++ " "%char :: t ++ " "%char :: lit "HTTP" ++ "/"%char :: v)
    with ((m ++ " "%char :: t) ++ " "%char :: lit "HTTP" ++ "/"%char :: v) in *
    by (repeat first [rewrite <- app_assoc | progress cbn [app]]; reflexivity).
  replace (size m + 1 + size t) with (size (m ++ " "%char :: t))
    by (rewrite size_app, size_cons; lia).
  rewrite request_protocol_slash; [| assumption | cbn; intuition discriminate].
  cbn [str_eqb lit list_ascii_of_string ch_eqb Ascii.eqb Bool.eqb andb negb].
  destruct (HttpHeader.parse fuel stream') as [[h s] |]; [|reflexivity].
  cbv zeta. unfold request_outs_target.
  destruct (split_last "?" t) as [[a b] |]; reflexivity.
Qed.

Lemma request_outs_target_fixed (o : outs) (m t : str) :
  header (request_outs_target o m t) = []
  /\ version (request_outs_target o m t) = version o
  /\ method (request_outs_target o m t) = m.
Proof.
  unfold request_outs_target.
  destruct (split_last "?" t) as [[a b] |]; repeat split.
Qed.

(** What a failed call leaves in the out-parameters, by the shape of the
    line. *)
Lemma request_parse_false (fuel : nat) (stream : istream) (o o' : outs) (s' : istream) :
  size (fst (getline stream [])) <= npos ->
  parse fuel stream o = Some (false, o', s') ->
  request_line_malformed (fst (getline stream []))
  /\ header o' = [] /\ version o' = version o
  /\ (o' = mkOuts (method o) (path o) (query_string o) (version o) []
      \/ (exists m r, fst (getline stream []) = m ++ " "%char :: r
                      /\ ~ In " "%char m
                      /\ o' = mkOuts m (path o) (query_string o) (version o) [])
      \/ (exists m t r, fst (getline stream []) = m ++ " "%char :: t ++ " "%char :: r
                        /\ ~ In " "%char m /\ ~ In " "%char t
                        /\ o' = request_outs_target o m t)).
Proof.
  destruct (getline stream []) as [line stream'] eqn:Hg. cbn [fst].
  intros Hsz Hp.
  destruct (request_line_shapes line)
    as [Hn | [(m & r & -> & Hm & Hr) | [(m & t & r & -> & Hm & Ht & Hr)
                                       | (m & t & p & v & -> & Hm & Ht & Hpp)]]].
  - rewrite (request_no_space fuel stream stream' o line Hg Hn) in Hp.
    inversion Hp; subst. cbn.
    split; [apply no_space_after_method; assumption | auto].
  - rewrite (request_no_target_end fuel stream stream' o m r Hg Hsz Hm Hr) in Hp.
    inversion Hp; subst. cbn.
    split; [eapply no_space_after_target; eauto|].
    repeat split. right. left. exists m, r. auto.
  - rewrite (request_after_target fuel stream stream' o m t r Hg Hsz Hm Ht) in Hp.
    replace (m ++ " "%char :: t ++ " "%char :: r)
      with ((m ++ " "%char :: t) ++ " "%char :: r) in Hp
      by (repeat first [rewrite <- app_assoc | progress cbn [app]]; reflexivity).
    replace (size m + 1 + size t) with (size (m ++ " "%char :: t)) in Hp
      by (rewrite size_app, size_cons; lia).
    rewrite request_protocol_no_slash in Hp by assumption.
    inversion Hp; subst.
    destruct (request_outs_target_fixed o m t) as (H1 & H2 & H3).
    split; [eapply no_slash_after_target; eauto|].
    repeat split; try assumption. right. right. exists m, t, r. auto.
  - rewrite (request_after_target fuel stream stream' o m t _ Hg Hsz Hm Ht) in Hp.
    replace (m ++ " "%char :: t ++ " "%char :: p ++ "/"%char :: v)
      with ((m ++ " "%char :: t) ++ " "%char :: p ++ "/"%char :: v) in Hp, Hsz
      by (repeat first [rewrite <- app_assoc | progress cbn [app]]; reflexivity).
    replace (size m + 1 + size t) with (size (m ++ " "%char :: t)) in Hp
      by (rewrite size_app, size_cons; lia).
    rewrite request_protocol_slash in Hp by assumption.
    destruct (str_eqb p (lit "HTTP")) eqn:Eh; cbn [negb] in Hp.
    + destruct (HttpHeader.parse fuel stream') as [[h s] |]; discriminate.
    + inversion Hp; subst.
      destruct (request_outs_target_fixed o m t) as (H1 & H2 & H3).
      split.
      * eapply protocol_not_http; eauto.
        intros ->. vm_compute in Eh. discriminate.
      * repeat split; try assumption. right. right.
        exists m, t, (p ++ "/"%char :: v).
        repeat split; assumption.
Qed.

(** A malformed line makes the call fail. *)
Lemma request_malformed_false (fuel : nat) (stream : istream) (o : outs) :
  size (fst (getline stream [])) <= npos ->
  request_line_malformed (fst (getline stream [])) ->
  exists o' s', parse fuel stream o = Some (false, o', s').
Proof.
  destruct (getline stream []) as [line stream'] eqn:Hg. cbn [fst].
  intros Hsz [Hn | m r -> Hm Hr | m t r -> Hm Ht Hr | m t p v -> Hm Ht Hp Hne].
  - rewrite (request_no_space fuel stream stream' o line Hg Hn). eauto.
  - rewrite (request_no_target_end fuel stream stream' o m r Hg Hsz Hm Hr). eauto.
  - rewrite (request_after_target fuel stream stream' o m t r Hg Hsz Hm Ht).
    replace (m ++ " "%char :: t ++ " "%char :: r)
      with ((m ++ " "%char :: t) ++ " "%char :: r)
      by (repeat first [rewrite <- app_assoc | progress cbn [app]]; reflexivity).
    replace (size m + 1 + size t) with (size (m ++ " "%char :: t))
      by (rewrite size_app, size_cons; lia).
    rewrite request_protocol_no_slash by assumption. eauto.
  - rewrite (request_after_target fuel stream stream' o m t _ Hg Hsz Hm Ht).
    replace (m ++ " "%char :: t ++ " "%char :: p ++ "/"%char :: v)
      with ((m ++ " "%char :: t) ++ " "%char :: p ++ "/"%char :: v) in *
      by (repeat first [rewrite <- app_assoc | progress cbn [app]]; reflexivity).
    replace (size m + 1 + size t) with (size (m ++ " "%char :: t))
      by (rewrite size_app, size_cons; lia).
    rewrite request_protocol_slash by assumption.
    destruct (str_eqb p (lit "HTTP")) eqn:Eh; cbn [negb]; [|eauto].
    apply str_eqb_eq in Eh. contradiction.
Qed.

(** C6.  [RequestMessage::parse] returns [false] exactly when the request
    line (the first line of the stream) has no space after the method, or
    no space that ends the target, or no slash after the target, or a text
    other than HTTP between the space that ends the target and that slash.
    The line BADLINE, followed by CR LF, is of the first kind. *)
Theorem request_parse_failure (fuel : nat) (stream : istream) (o : RequestMessage.outs) :
  size (fst (getline stream [])) <= npos ->
  ((exists o' s', RequestMessage.parse fuel stream o = Some (false, o', s'))
   <-> request_line_malformed (fst (getline stream [])))
  /\ (exists o' s',
        RequestMessage.parse fuel (stream_of (lit "BADLINE" ++ [cr; newline])) o
        = Some (false, o', s')).
Proof.
  intros Hsz. split; [split|].
  - intros (o' & s' & Hp). exact (proj1 (request_parse_false _ _ _ _ _ Hsz Hp)).
  - apply request_malformed_false. assumption.
  - eexists _, _. reflexivity.
Qed.

End RequestMessageFacts.

(** The theorem at the stream "GET /x FTP/1.1" CR LF: the call fails. *)
Lemma request_parse_failure_witness :
  exists o' s',
    RequestMessage.parse 1 (stream_of (lit "GET /x FTP/1.1" ++ [cr; newline]))
                         (RequestMessage.mkOuts [] [] [] [] [])
    = Some (false, o', s').
Proof.
  apply (proj1 (request_parse_failure
                  1 (stream_of (lit "GET /x FTP/1.1" ++ [cr; newline]))
                  (RequestMessage.mkOuts [] [] [] [] [])
                  ltac:(vm_compute; discriminate))).
  apply (protocol_not_http _ (lit "GET") (lit "/x") (lit "FTP") (lit "1.1" ++ [cr]));
    cbn; intuition discriminate.
Defined.

(** C10.  When [RequestMessage::parse] returns [false] the header
    out-parameter is empty, whatever it held before the call, and [version]
    holds what it held before the call.  The other out-parameters hold what
    was assigned before the point of failure: nothing when the line has no
    space; the method when nothing ends the target; method, path and (when
    the target has a question mark) query string when the failure comes
    later. *)
Theorem request_parse_failure_header
        (fuel : nat) (stream : istream) (o o' : RequestMessage.outs) (s' : istream) :
  size (fst (getline stream [])) <= npos ->
  RequestMessage.parse fuel stream o = Some (false, o', s') ->
  RequestMessage.header o' = []
  /\ RequestMessage.version o' = RequestMessage.version o
  /\ (o' = RequestMessage.mkOuts (RequestMessage.method o) (RequestMessage.path o)
                                 (RequestMessage.query_string o)
                                 (RequestMessage.version o) []
      \/ (exists m r, fst (getline stream []) = m ++ " "%char :: r
                      /\ ~ In " "%char m
                      /\ o' = RequestMessage.mkOuts m (RequestMessage.path o)
                                                    (RequestMessage.query_string o)
                                                    (RequestMessage.version o) [])
      \/ (exists m t r, fst (getline stream []) = m ++ " "%char :: t ++ " "%char :: r
                        /\ ~ In " "%char m /\ ~ In " "%char t
                        /\ o' = request_outs_target o m t)).
Proof.
  intros Hsz Hp. exact (proj2 (request_parse_false _ _ _ _ _ Hsz Hp)).
Qed.

(** The theorem at "GET /x?q FTP/1.1" CR LF with out-parameters that hold
    stale values: the header comes back empty, while method, path and query
    string keep what the failed call assigned. *)
Lemma request_parse_failure_header_witness :
  let o := RequestMessage.mkOuts (lit "m") (lit "p") (lit "q") (lit "v")
                                 [(lit "Old", lit "entry")] in
  exists o' s',
    RequestMessage.parse 1 (stream_of (lit "GET /x?y FTP/1.1" ++ [cr; newline])) o
    = Some (false, o', s')
    /\ RequestMessage.header o' = []
    /\ RequestMessage.method o' = lit "GET"
    /\ RequestMessage.path o' = lit "/x"
    /\ RequestMessage.query_string o' = lit "y"
    /\ RequestMessage.version o' = lit "v".
Proof.
  intros o. eexists _, _. split; [reflexivity|]. split.
  - refine (proj1 (request_parse_failure_header
                     1 (stream_of (lit "GET /x?y FTP/1.1" ++ [cr; newline])) o _ _ _ _));
      [vm_compute; discriminate | reflexivity].
  - repeat split.
Defined.

(** C3 (the code at the failing input).  The target "/a?b?c" has two
    question marks; the call succeeds with path "/a?b" and query string
    "c": the last question mark is taken as the separator, not the first,
    which would give path "/a" and query string "b?c". *)
Theorem request_parse_two_question_marks (o : RequestMessage.outs) :
  RequestMessage.parse 1 (stream_of (lit "GET /a?b?c HTTP/1.1" ++ [cr; newline; cr; newline])) o
  = Some (true,
          RequestMessage.mkOuts (lit "GET") (lit "/a?b") (lit "c") (lit "1.1") [],
          stream_of [])
  /\ lit "/a?b" <> lit "/a" /\ lit "c" <> lit "b?c".
Proof.
  split; [reflexivity|]. split; discriminate.
Qed.

(** The request of the specification's example. *)
Example request_parse_get (o : RequestMessage.outs) :
  RequestMessage.parse 2
    (stream_of (lit "GET /a/b?x=1&y=2 HTTP/1.1" ++ [cr; newline]
                ++ lit "Host: h" ++ [cr; newline; cr; newline]))
    o
  = Some (true,
          RequestMessage.mkOuts (lit "GET") (lit "/a/b") (lit "x=1&y=2") (lit "1.1")
                                [(lit "Host", lit "h")],
          stream_of []).
Proof. reflexivity. Qed.

(* ================================================================== *)
(** * ResponseMessage *)

Section ResponseMessageFacts.
Import ResponseMessage.

(** A status line without any space. *)
Lemma response_no_space (fuel : nat) (stream stream' : istream) (o : outs) (line : str) :
  getline stream [] = (line, stream') ->
  ~ In " "%char line ->
  parse fuel stream o = Some (false, mkOuts (version o) (status_code o) [], stream').
Proof.
  intros Hg Hn. unfold parse. rewrite Hg.
  rewrite find_absent by (assumption || lia). reflexivity.
Qed.

(** The text [substr(5, version_end - 5)] yields, by where the first space
    is: up to the space when it is at offset 5 or later, and up to the end
    of the line when it is before offset 5, where the subtraction wraps. *)
Lemma response_version (a b : str) :
  size (a ++ " "%char :: b) <= npos ->
  substr (a ++ " "%char :: b) 5 (usub (size a) 5) =
  if 5 <=? size a then skipn 5 a else skipn 5 (a ++ " "%char :: b).
Proof.
  intros Hsz. pose proof (size_nonneg a). pose proof (size_nonneg b).
  rewrite size_app, size_cons in Hsz.
  unfold substr. change (Z.to_nat 5) with 5%nat.
  destruct (5 <=? size a) eqn:E.
  - usub_norm. rewrite size_app, size_cons.
    rewrite Z.min_l by lia.
    rewrite skipn_app.
    replace (Z.to_nat (size a - 5)) with (length (skipn 5 a))
      by (rewrite length_skipn; unfold size; lia).
    rewrite firstn_app, Nat.sub_diag, firstn_all. simpl. apply app_nil_r.
  - unfold usub. rewrite modulus_val.
    replace ((size a - 5) mod 18446744073709551616)
      with (size a - 5 + 18446744073709551616)
      by (apply Z.mod_unique with (q := -1); lia).
    rewrite npos_val in Hsz. rewrite size_app, size_cons.
    rewrite Z.min_r by lia.
    apply firstn_all2. rewrite length_skipn, length_app. simpl length.
    unfold size. lia.
Qed.

(** A status line with a space. *)
Lemma response_space (fuel : nat) (stream stream' : istream) (o : outs) (a b : str) :
  getline stream [] = (a ++ " "%char :: b, stream') ->
  size (a ++ " "%char :: b) <= npos ->
  ~ In " "%char a ->
  parse fuel stream o =
  let line := a ++ " "%char :: b in
  if 5 <? size line then
    let v := if 5 <=? size a then skipn 5 a else skipn 5 line in
    match b with
    | [] => Some (false, mkOuts v (status_code o) [], stream')
    | _ :: _ =>
        match HttpHeader.parse fuel stream' with
        | Some (h, s) => Some (true, mkOuts v (removelast b) h, s)
        | None => None
        end
    end
  else Some (false, mkOuts (version o) (status_code o) [], stream').
Proof.
  intros Hg Hsz Ha. unfold parse. rewrite Hg. cbv zeta.
  rewrite (find_first _ a b) by (reflexivity || assumption).
  pose proof (size_nonneg a). pose proof (size_nonneg b).
  pose proof Hsz as Hsz'. rewrite size_app, size_cons in Hsz'.
  decide_cmp. cbn [negb version status_code header].
  destruct (5 <? size (a ++ " "%char :: b)); [|reflexivity].
  rewrite response_version by assumption.
  rewrite size_app, size_cons.
  destruct b as [| x b].
  - rewrite size_nil. decide_cmp. reflexivity.
  - rewrite size_cons in *. pose proof (size_nonneg b). decide_cmp.
    destruct (HttpHeader.parse fuel stream') as [[h s] |]; [|reflexivity].
    do 3 f_equal.
    replace (a ++ " "%char :: x :: b) with ((a ++ [" "%char]) ++ x :: b)
      by (rewrite <- app_assoc; reflexivity).
    replace (size a + 1) with (size (a ++ [" "%char]))
      by (rewrite size_app, size_cons, size_nil; lia).
    rewrite substr_app.
    rewrite size_app, !size_cons, size_nil. usub_norm.
    rewrite Z.min_l by lia.
    rewrite firstn_pred_removelast by (rewrite size_cons; lia). reflexivity.
Qed.

(** When [ResponseMessage::parse] returns [false]: the status line has no
    space, or at most five characters, or nothing after its first space. *)
Lemma response_parse_false_iff (fuel : nat) (stream : istream) (o : outs) :
  size (fst (getline stream [])) <= npos ->
  (exists o' s', parse fuel stream o = Some (false, o', s'))
  <-> (~ In " "%char (fst (getline stream []))
       \/ size (fst (getline stream [])) <= 5
       \/ exists a, fst (getline stream []) = a ++ [" "%char] /\ ~ In " "%char a).
Proof.
  destruct (getline stream []) as [line stream'] eqn:Hg. cbn [fst]. intros Hsz.
  destruct (split_first_cases " " line) as [Hn | (a & b & -> & Ha)].
  - rewrite (response_no_space fuel stream stream' o line Hg Hn).
    split; [auto | eauto].
  - rewrite (response_space fuel stream stream' o a b Hg Hsz Ha). cbv zeta.
    destruct (5 <? size (a ++ " "%char :: b)) eqn:E5.
    + destruct b as [| x b].
      * split; [intros _ | eauto]. right; right. exists a. auto.
      * split.
        -- intros (o' & s' & Hp).
           destruct (HttpHeader.parse fuel stream') as [[h s] |]; discriminate.
        -- intros [Hn | [Hle | (a' & Heq & Ha')]].
           ++ exfalso. apply Hn. apply in_or_app. right. left. reflexivity.
           ++ lia.
           ++ exfalso. apply (f_equal (@removelast ascii)) in Heq.
              rewrite removelast_last, removelast_app in Heq by discriminate.
              apply Ha'. rewrite <- Heq. apply in_or_app. right. left. reflexivity.
    + split; [intros _ | eauto]. right; left. lia.
Qed.

(** C7 (the code at the failing input).  On the status line "AB CDEFG" the
    first space is at offset 2, before offset 5.  The call succeeds, the
    status is "CDEFG", and the version is "EFG" followed by CR: the text
    from offset 5 to the end of the line, not the (empty) text from offset
    5 up to the first space. *)
Theorem response_parse_early_space (o : ResponseMessage.outs) :
  ResponseMessage.parse 1 (stream_of (lit "AB CDEFG" ++ [cr; newline])) o
  = Some (true,
          ResponseMessage.mkOuts (lit "EFG" ++ [cr]) (lit "CDEFG") [],
          mkStream [] true true)
  /\ find (lit "AB CDEFG" ++ [cr]) " " 0 = 2
  /\ lit "EFG" ++ [cr] <> [].
Proof.
  split; [reflexivity|]. split; [reflexivity | discriminate].
Qed.

(** The status line of the specification's example. *)
Example response_parse_200 (o : ResponseMessage.outs) :
  ResponseMessage.parse 1 (stream_of (lit "HTTP/1.1 200 OK" ++ [cr; newline])) o
  = Some (true, ResponseMessage.mkOuts (lit "1.1") (lit "200 OK") [],
          mkStream [] true true).
Proof. reflexivity. Qed.

End ResponseMessageFacts.

(* ================================================================== *)
(** * ContentDisposition *)

Section ContentDispositionFacts.
Import ContentDisposition.

(** Characters that leave a scan state alone, whatever the line and the
    position, leave it alone along a whole stretch of text. *)
Lemma cd_stable (st : scan) (t : str) :
  (forall x line c, In x t -> at_ line c = x -> parse_body line c st = st) ->
  forall pre rest,
    for_range (length t) (size pre) (parse_body (pre ++ t ++ rest)) st = st.
Proof.
  induction t as [| x t IH]; intros Hst pre rest; [reflexivity|].
  cbn [length for_range app].
  rewrite (Hst x _ _ (or_introl eq_refl) (at_app pre x (t ++ rest))).
  destruct (shift_one pre x (t ++ rest)) as [-> ->].
  apply IH. intros y line c Hin. apply Hst. right. assumption.
Qed.

(** Inside a name. *)
Lemma cd_in_name (p : Z) (r : CaseInsensitiveMultimap) (t pre rest : str) :
  p <> npos -> ~ In ";"%char t -> ~ In "="%char t ->
  for_range (length t) (size pre) (parse_body (pre ++ t ++ rest))
            (mkScan p npos npos r)
  = mkScan p npos npos r.
Proof.
  intros Hp Hs He. apply cd_stable. intros x line c Hin Hat.
  unfold parse_body. cbn [para_start_pos para_end_pos]. rewrite Hat.
  replace (p =? npos) with false by lia. rewrite Z.eqb_refl. cbn [negb].
  destruct (ch_eqb x ";") eqn:E1; [apply ch_eqb_eq in E1; rewrite E1 in Hin; contradiction|].
  destruct (ch_eqb x "=") eqn:E2; [apply ch_eqb_eq in E2; rewrite E2 in Hin; contradiction|].
  reflexivity.
Qed.

(** Between parameters. *)
Lemma cd_between (r : CaseInsensitiveMultimap) (ws pre rest : str) :
  cd_filler ws ->
  for_range (length ws) (size pre) (parse_body (pre ++ ws ++ rest))
            (mkScan npos npos npos r)
  = mkScan npos npos npos r.
Proof.
  intros Hws. apply cd_stable. intros x line c Hin Hat.
  unfold parse_body. cbn [para_start_pos]. rewrite Hat, Z.eqb_refl. cbn [negb].
  unfold cd_filler in Hws. rewrite Forall_forall in Hws.
  destruct (Hws x Hin) as [-> | ->]; reflexivity.
Qed.

(** After the equals sign, before the opening quote. *)
Lemma cd_before_quote (p e : Z) (r : CaseInsensitiveMultimap) (t pre rest : str) :
  p <> npos -> e <> npos -> ~ In dquote t ->
  for_range (length t) (size pre) (parse_body (pre ++ t ++ rest))
            (mkScan p e npos r)
  = mkScan p e npos r.
Proof.
  intros Hp He Hq. apply cd_stable. intros x line c Hin Hat.
  unfold parse_body. cbn [para_start_pos para_end_pos value_start_pos]. rewrite Hat.
  replace (p =? npos) with false by lia.
  replace (e =? npos) with false by lia. rewrite Z.eqb_refl. cbn [negb].
  destruct (ch_eqb x dquote) eqn:E1; [apply ch_eqb_eq in E1; rewrite E1 in Hin; contradiction|].
  reflexivity.
Qed.

(** Inside the quoted value. *)
Lemma cd_in_value (p e v : Z) (r : CaseInsensitiveMultimap) (t pre rest : str) :
  p <> npos -> e <> npos -> v <> npos -> ~ In dquote t ->
  for_range (length t) (size pre) (parse_body (pre ++ t ++ rest))
            (mkScan p e v r)
  = mkScan p e v r.
Proof.
  intros Hp He Hv Hq. apply cd_stable. intros x line c Hin Hat.
  unfold parse_body. cbn [para_start_pos para_end_pos value_start_pos]. rewrite Hat.
  replace (p =? npos) with false by lia.
  replace (e =? npos) with false by lia.
  replace (v =? npos) with false by lia. cbn [negb].
  destruct (ch_eqb x dquote) eqn:E1; [apply ch_eqb_eq in E1; rewrite E1 in Hin; contradiction|].
  reflexivity.
Qed.

(** A name, from the start of a parameter. *)
Lemma cd_name (first : bool) (r : CaseInsensitiveMultimap) (n pre rest : str) :
  cd_name_ok n ->
  size (pre ++ n ++ rest) <= npos ->
  for_range (length n) (size pre) (parse_body (pre ++ n ++ rest))
            (cd_start first (size pre) r)
  = mkScan (size pre) npos npos r.
Proof.
  intros ((c & n' & -> & Hc) & Hs & He) Hsz.
  pose proof (size_nonneg pre). pose proof (size_nonneg n'). pose proof (size_nonneg rest).
  rewrite size_app, size_app, size_cons in Hsz.
  assert (Hp : size pre <> npos) by lia.
  destruct first; unfold cd_start.
  - apply cd_in_name; assumption.
  - cbn [length for_range app].
    unfold parse_body at 2. cbn [para_start_pos para_end_pos value_start_pos result].
    rewrite at_app, Z.eqb_refl. cbn [negb].
    assert (Hc1 : ch_eqb c " " = false) by (apply ch_eqb_neq; assumption).
    assert (Hc2 : ch_eqb c ";" = false).
    { apply ch_eqb_neq. intros ->. apply Hs. left. reflexivity. }
    rewrite Hc1, Hc2. cbn [negb andb].
    destruct (shift_one pre c (n' ++ rest)) as [-> Hp2].
    rewrite Hp2.
    apply cd_in_name.
    + lia.
    + intros Hin. apply Hs. right. assumption.
    + intros Hin. apply He. right. assumption.
Qed.

(** Bookkeeping for positions inside a line given as a concatenation. *)
Ltac split_line :=
  subst; rewrite ?app_nil_r;
  repeat first [rewrite <- app_assoc | progress cbn [app]]; reflexivity.

Ltac split_pos :=
  repeat first [rewrite size_app | rewrite size_cons | rewrite size_nil]; lia.

Lemma at_split (line pre rest : str) (x : ascii) (i : Z) :
  line = pre ++ x :: rest -> i = size pre -> at_ line i = x.
Proof. intros -> ->. apply at_app. Qed.

Lemma substr_split (line pre mid rest : str) (i n : Z) :
  line = pre ++ mid ++ rest -> i = size pre -> n = size mid ->
  substr line i n = mid.
Proof. intros -> -> ->. apply substr_mid. Qed.

Lemma cd_stretch (st : scan) (line pre t rest : str) (i : Z) :
  line = pre ++ t ++ rest -> i = size pre ->
  for_range (length t) (size pre) (parse_body (pre ++ t ++ rest)) st = st ->
  for_range (length t) i (parse_body line) st = st.
Proof. intros -> ->. trivial. Qed.

Lemma for_range_stretch {A : Type} (t : str) (m : nat) (c : Z)
      (body : Z -> A -> A) (st : A) :
  for_range (length t + m) c body st =
  for_range m (c + size t) body (for_range (length t) c body st).
Proof. apply for_range_app. Qed.

Lemma for_range_one {A : Type} (m : nat) (c : Z) (body : Z -> A -> A) (st : A) :
  for_range (1 + m) c body st = for_range m (c + 1) body (body c st).
Proof. reflexivity. Qed.

(** A complete parameter and the filler behind it: its entry is emitted and
    no parameter is open afterwards. *)
Lemma cd_item_scan (first : bool) (it : cd_item) (pre rest : str)
      (r : CaseInsensitiveMultimap) :
  cd_item_ok it ->
  size (pre ++ cd_item_text it ++ rest) <= npos ->
  for_range (length (cd_item_text it)) (size pre)
            (parse_body (pre ++ cd_item_text it ++ rest))
            (cd_start first (size pre) r)
  = mkScan npos npos npos (r ++ [cd_entry (fst it)]).
Proof.
  destruct it as [p ws]. unfold cd_item_ok, cd_item_text. cbn [fst snd].
  intros [Hp Hws] Hsz.
  pose proof (size_nonneg pre). pose proof (size_nonneg rest).
  pose proof (size_nonneg ws).
  remember (pre ++ (cd_text p ++ ws) ++ rest) as line eqn:Hline.
  destruct p as [n | n j v]; cbn [cd_text cd_param_ok cd_entry] in *.
  - (* a bare name and its semicolon *)
    pose proof (size_nonneg n).
    assert (Hszl : size line = size pre + size n + 1 + size ws + size rest)
      by (subst line; rewrite !size_app, size_cons, size_nil; lia).
    replace (length ((n ++ [";"%char]) ++ ws))
      with (length n + (1 + (length ws + 0)))%nat
      by (rewrite !length_app; simpl; lia).
    rewrite for_range_stretch.
    assert (Hname : for_range (length n) (size pre) (parse_body line)
                              (cd_start first (size pre) r)
                    = mkScan (size pre) npos npos r).
    { rewrite Hline.
      replace (pre ++ ((n ++ [";"%char]) ++ ws) ++ rest)
        with (pre ++ n ++ (";"%char :: ws ++ rest)) by split_line.
      apply cd_name; [assumption|].
      rewrite Hline in Hsz. revert Hsz.
      rewrite !size_app, !size_cons, size_app, size_nil. lia. }
    rewrite Hname. rewrite for_range_one.
    unfold parse_body at 2.
    cbn [para_start_pos para_end_pos value_start_pos result].
    rewrite (at_split line (pre ++ n) (ws ++ rest) ";")
      by (split_line || split_pos).
    repeat decide_cmp. cbn [negb andb ch_eqb Ascii.eqb Bool.eqb].
    rewrite (substr_split line pre n (";"%char :: ws ++ rest))
      by (split_line || split_pos || (usub_norm; lia)).
    rewrite for_range_stretch.
    rewrite (cd_stretch _ line (pre ++ n ++ [";"%char]) ws rest)
      by (split_line || split_pos || (apply cd_between; assumption)).
    reflexivity.
  - (* a name, an equals sign, and a quoted value *)
    destruct Hp as (Hn & Hj & Hv).
    pose proof (size_nonneg n). pose proof (size_nonneg j). pose proof (size_nonneg v).
    assert (Hszl : size line = size pre + size n + 1 + size j + 1 + size v + 1
                               + size ws + size rest)
      by (subst line; rewrite !size_app, size_cons, size_app, size_cons,
            size_app, size_cons, size_nil; lia).
    replace (length ((n ++ "="%char :: j ++ dquote :: v ++ [dquote]) ++ ws))
      with (length n + (1 + (length j + (1 + (length v + (1 + (length ws + 0)))))))%nat
      by (rewrite !length_app; simpl; rewrite !length_app; simpl;
          rewrite !length_app; simpl; lia).
    rewrite for_range_stretch.
    assert (Hname : for_range (length n) (size pre) (parse_body line)
                              (cd_start first (size pre) r)
                    = mkScan (size pre) npos npos r).
    { rewrite Hline.
      replace (pre ++ ((n ++ "="%char :: j ++ dquote :: v ++ [dquote]) ++ ws) ++ rest)
        with (pre ++ n ++ ("="%char :: j ++ dquote :: v ++ dquote :: ws ++ rest))
        by split_line.
      apply cd_name; [assumption|].
      rewrite Hline in Hsz. revert Hsz.
      rewrite !size_app, !size_cons, !size_app, !size_cons, !size_app, !size_cons,
        ?size_app, ?size_nil. lia. }
    rewrite Hname. clear Hname.
    (* the equals sign *)
    rewrite for_range_one.
    unfold parse_body at 2.
    cbn [para_start_pos para_end_pos value_start_pos result].
    rewrite (at_split line (pre ++ n) (j ++ dquote :: v ++ dquote :: ws ++ rest) "=")
      by (split_line || split_pos).
    repeat decide_cmp. cbn [negb andb ch_eqb Ascii.eqb Bool.eqb].
    (* up to the opening quote *)
    rewrite for_range_stretch.
    rewrite (cd_stretch _ line (pre ++ n ++ ["="%char]) j
                        (dquote :: v ++ dquote :: ws ++ rest));
      [| split_line | split_pos | apply cd_before_quote; [lia | lia | assumption]].
    (* the opening quote *)
    rewrite for_range_one.
    unfold parse_body at 2.
    cbn [para_start_pos para_end_pos value_start_pos result].
    rewrite (at_split line (pre ++ n ++ "="%char :: j) (v ++ dquote :: ws ++ rest) dquote)
      by (split_line || split_pos).
    rewrite ch_eqb_refl. repeat decide_cmp. cbn [negb andb].
    (* the value *)
    rewrite for_range_stretch.
    rewrite (cd_stretch _ line (pre ++ n ++ "="%char :: j ++ [dquote]) v
                        (dquote :: ws ++ rest));
      [| split_line | split_pos | apply cd_in_value; [lia | lia | lia | assumption]].
    (* the closing quote *)
    rewrite for_range_one.
    unfold parse_body at 2.
    cbn [para_start_pos para_end_pos value_start_pos result].
    rewrite (at_split line (pre ++ n ++ "="%char :: j ++ dquote :: v) (ws ++ rest) dquote)
      by (split_line || split_pos).
    rewrite ch_eqb_refl. repeat decide_cmp. cbn [negb].
    rewrite (substr_split line pre n ("="%char :: j ++ dquote :: v ++ dquote :: ws ++ rest))
      by (split_line || split_pos || (usub_norm; lia)).
    rewrite (substr_split line (pre ++ n ++ "="%char :: j ++ [dquote]) v
                          (dquote :: ws ++ rest))
      by (split_line || split_pos || (usub_norm; lia)).
    rewrite for_range_stretch.
    rewrite (cd_stretch _ line (pre ++ n ++ "="%char :: j ++ dquote :: v ++ [dquote])
                        ws rest)
      by (split_line || split_pos || (apply cd_between; assumption)).
    reflexivity.
Qed.
(** After an equals sign, text without a closing quote leaves the parameter
    open to the end of the line. *)
Lemma cd_open_tail (p e : Z) (r : CaseInsensitiveMultimap) (pre tail : str) :
  p <> npos -> e <> npos ->
  size (pre ++ tail) <= npos ->
  (~ In dquote tail
   \/ exists junk v, tail = junk ++ dquote :: v /\ ~ In dquote junk /\ ~ In dquote v) ->
  exists v',
    for_range (length tail) (size pre) (parse_body (pre ++ tail)) (mkScan p e npos r)
    = mkScan p e v' r.
Proof.
  intros Hp He Hsz [Hn | (j & v & -> & Hj & Hv)].
  - exists npos.
    replace (pre ++ tail) with (pre ++ tail ++ []) by (rewrite app_nil_r; reflexivity).
    apply cd_before_quote; assumption.
  - pose proof (size_nonneg pre). pose proof (size_nonneg j). pose proof (size_nonneg v).
    remember (pre ++ j ++ dquote :: v) as line eqn:Hline.
    assert (Hszl : size line = size pre + size j + 1 + size v)
      by (subst line; split_pos).
    replace (length (j ++ dquote :: v)) with (length j + (1 + (length v + 0)))%nat
      by (rewrite length_app; simpl; lia).
    rewrite for_range_stretch.
    rewrite (cd_stretch _ line pre j (dquote :: v));
      [| split_line | reflexivity | apply cd_before_quote; assumption].
    rewrite for_range_one.
    unfold parse_body at 2.
    cbn [para_start_pos para_end_pos value_start_pos result].
    rewrite (at_split line (pre ++ j) v dquote) by (split_line || split_pos).
    rewrite ch_eqb_refl.
    replace (p =? npos) with false by lia.
    replace (e =? npos) with false by lia.
    rewrite Z.eqb_refl. cbn [negb andb].
    destruct v as [| x v].
    + rewrite size_nil in Hszl. decide_cmp. exists npos. reflexivity.
    + rewrite size_cons in *. pose proof (size_nonneg v). decide_cmp.
      exists (size pre + size j + 1).
      rewrite for_range_stretch.
      rewrite (cd_stretch _ line (pre ++ j ++ [dquote]) (x :: v) []);
        [reflexivity | split_line | split_pos
        | apply cd_in_value; [assumption | assumption | lia | assumption]].
Qed.

(** The end of the line. *)
Lemma cd_ending_scan (first : bool) (e : cd_ending) (pre : str)
      (r : CaseInsensitiveMultimap) :
  cd_ending_ok e ->
  (first = true -> e <> EndNothing) ->
  size (pre ++ cd_ending_text e) <= npos ->
  cd_finish (pre ++ cd_ending_text e)
            (for_range (length (cd_ending_text e)) (size pre)
                       (parse_body (pre ++ cd_ending_text e))
                       (cd_start first (size pre) r))
  = r ++ cd_ending_entries e.
Proof.
  intros Hok Hfirst Hsz. pose proof (size_nonneg pre).
  destruct e as [| n | n tail]; cbn [cd_ending_text cd_ending_entries cd_ending_ok] in *.
  - destruct first; [exfalso; apply Hfirst; reflexivity|].
    cbn [length for_range cd_start]. unfold cd_finish.
    cbn [para_start_pos para_end_pos result].
    rewrite Z.eqb_refl. cbn [negb andb]. rewrite app_nil_r. reflexivity.
  - pose proof (size_nonneg n).
    assert (Hne : size n <> 0).
    { destruct Hok as ((c & n' & -> & _) & _). rewrite size_cons.
      pose proof (size_nonneg n'). lia. }
    rewrite size_app in Hsz.
    replace (parse_body (pre ++ n)) with (parse_body (pre ++ n ++ []))
      by (rewrite app_nil_r; reflexivity).
    rewrite cd_name; [| assumption | rewrite app_nil_r, size_app; assumption].
    unfold cd_finish. cbn [para_start_pos para_end_pos result].
    repeat decide_cmp. cbn [negb andb].
    unfold substr_from. rewrite substr_tail by lia. reflexivity.
  - destruct Hok as [Hn Htail].
    pose proof (size_nonneg n). pose proof (size_nonneg tail).
    remember (pre ++ n ++ "="%char :: tail) as line eqn:Hline.
    assert (Hszl : size line = size pre + size n + 1 + size tail)
      by (subst line; split_pos).
    replace (length (n ++ "="%char :: tail)) with (length n + (1 + (length tail + 0)))%nat
      by (rewrite length_app; simpl; lia).
    rewrite for_range_stretch.
    assert (Hname : for_range (length n) (size pre) (parse_body line)
                              (cd_start first (size pre) r)
                    = mkScan (size pre) npos npos r).
    { rewrite Hline. apply cd_name; [assumption|]. rewrite <- Hline. assumption. }
    rewrite Hname. rewrite for_range_one.
    unfold parse_body at 2.
    cbn [para_start_pos para_end_pos value_start_pos result].
    rewrite (at_split line (pre ++ n) tail "=") by (split_line || split_pos).
    repeat decide_cmp. cbn [negb andb ch_eqb Ascii.eqb Bool.eqb].
    rewrite for_range_stretch.
    destruct (cd_open_tail (size pre) (size pre + size n) r (pre ++ n ++ ["="%char]) tail)
      as (v' & Hv'); [lia | lia | | assumption |].
    { replace ((pre ++ n ++ ["="%char]) ++ tail) with line by split_line. assumption. }
    replace ((pre ++ n ++ ["="%char]) ++ tail) with line in Hv' by split_line.
    replace (size (pre ++ n ++ ["="%char])) with (size pre + size n + 1) in Hv'
      by split_pos.
    rewrite Hv'. cbn [for_range].
    unfold cd_finish. cbn [para_start_pos para_end_pos result].
    repeat decide_cmp. cbn [negb andb]. rewrite app_nil_r. reflexivity.
Qed.

(** The whole line: complete parameters, then the ending. *)
Lemma cd_scan_items (items : list cd_item) :
  forall (first : bool) (pre : str) (r : CaseInsensitiveMultimap) (e : cd_ending),
    Forall cd_item_ok items ->
    cd_ending_ok e ->
    (first = true -> items <> [] \/ e <> EndNothing) ->
    size (pre ++ flat_map cd_item_text items ++ cd_ending_text e) <= npos ->
    cd_finish (pre ++ flat_map cd_item_text items ++ cd_ending_text e)
              (for_range (length (flat_map cd_item_text items ++ cd_ending_text e))
                         (size pre)
                         (parse_body (pre ++ flat_map cd_item_text items
                                          ++ cd_ending_text e))
                         (cd_start first (size pre) r))
    = r ++ map (fun it => cd_entry (fst it)) items ++ cd_ending_entries e.
Proof.
  induction items as [| it items IH]; intros first pre r e Hitems He Hfirst Hsz.
  - cbn [flat_map map app] in *. apply cd_ending_scan; try assumption.
    intros Hf. destruct (Hfirst Hf) as [Hc | Hc]; [congruence | assumption].
  - inversion Hitems as [| ? ? Hit Hrest]; subst.
    cbn [flat_map map] in *.
    set (body := flat_map cd_item_text items ++ cd_ending_text e) in *.
    replace ((cd_item_text it ++ flat_map cd_item_text items) ++ cd_ending_text e)
      with (cd_item_text it ++ body) in * by (unfold body; rewrite app_assoc; reflexivity).
    replace (length (cd_item_text it ++ body))
      with (length (cd_item_text it) + length body)%nat by (rewrite length_app; reflexivity).
    rewrite for_range_stretch.
    rewrite cd_item_scan by assumption.
    replace (pre ++ cd_item_text it ++ body) with ((pre ++ cd_item_text it) ++ body) in *
      by (rewrite app_assoc; reflexivity).
    replace (size pre + size (cd_item_text it)) with (size (pre ++ cd_item_text it))
      by (rewrite size_app; reflexivity).
    change (mkScan npos npos npos (r ++ [cd_entry (fst it)]))
      with (cd_start false (size (pre ++ cd_item_text it)) (r ++ [cd_entry (fst it)])).
    unfold body in *. rewrite IH; try assumption.
    + rewrite <- app_assoc. reflexivity.
    + discriminate.
Qed.

(** [parse] on a line of complete parameters and an ending. *)
Lemma cd_parse_line (items : list cd_item) (e : cd_ending) :
  Forall cd_item_ok items ->
  cd_ending_ok e ->
  items <> [] \/ e <> EndNothing ->
  size (flat_map cd_item_text items ++ cd_ending_text e) <= npos ->
  parse (flat_map cd_item_text items ++ cd_ending_text e)
  = map (fun it => cd_entry (fst it)) items ++ cd_ending_entries e.
Proof.
  intros Hitems He Hne Hsz.
  exact (cd_scan_items items true [] [] e Hitems He (fun _ => Hne) Hsz).
Qed.

End ContentDispositionFacts.

(** C9.  Let a line start with complete parameters (each a bare name with
    its semicolon or a name with a quoted value, followed by any spaces and
    semicolons), whose entries are [entries].
    - If the line ends with a bare name, without semicolon or equals sign,
      that name is emitted too, with an empty value.
    - If the line ends with a name and an equals sign whose value has no
      closing quote, nothing is emitted for that name.
    - The text between an equals sign and the opening quote is not part of
      the value.
    - The line form-data; name="f"; filename="a.txt" gives exactly the
      entries form-data with empty value, name with f and filename with
      a.txt. *)
Theorem content_disposition_parse (items : list cd_item) (n tail junk v : str) :
  Forall cd_item_ok items ->
  cd_name_ok n ->
  (~ In dquote tail
   \/ exists j w, tail = j ++ dquote :: w /\ ~ In dquote j /\ ~ In dquote w) ->
  ~ In dquote junk -> ~ In dquote v ->
  let pre := flat_map cd_item_text items in
  let entries := map (fun it => cd_entry (fst it)) items in
  size (pre ++ n ++ "="%char :: tail) <= npos ->
  size (pre ++ n ++ "="%char :: junk ++ dquote :: v ++ [dquote]) <= npos ->
  ContentDisposition.parse (pre ++ n) = entries ++ [(n, [])]
  /\ ContentDisposition.parse (pre ++ n ++ "="%char :: tail) = entries
  /\ ContentDisposition.parse (pre ++ n ++ "="%char :: junk ++ dquote :: v ++ [dquote])
     = entries ++ [(n, v)]
  /\ ContentDisposition.parse
       (lit "form-data; name=" ++ [dquote] ++ lit "f" ++ [dquote]
        ++ lit "; filename=" ++ [dquote] ++ lit "a.txt" ++ [dquote])
     = [(lit "form-data", []); (lit "name", lit "f"); (lit "filename", lit "a.txt")].
Proof.
  intros Hitems Hn Htail Hjunk Hv pre entries Hsz1 Hsz2.
  subst pre entries.
  pose proof (size_nonneg (flat_map cd_item_text items)). pose proof (size_nonneg n).
  pose proof (size_nonneg tail).
  repeat split.
  - apply (cd_parse_line items (EndBare n)); try assumption.
    + right. discriminate.
    + cbn [cd_ending_text]. revert Hsz1.
      repeat first [rewrite size_app | rewrite size_cons]. lia.
  - change (n ++ "="%char :: tail) with (cd_ending_text (EndOpen n tail)).
    rewrite cd_parse_line; try assumption.
    + cbn [cd_ending_entries]. apply app_nil_r.
    + split; assumption.
    + right. discriminate.
  - pose proof (cd_parse_line (items ++ [(Quoted n junk v, [])]) EndNothing) as H2.
    rewrite flat_map_app, map_app in H2.
    cbn [flat_map map cd_item_text cd_text cd_entry cd_ending_text cd_ending_entries
         fst snd] in H2.
    assert (Heq : cd_item_text (Quoted n junk v, [])
                  = n ++ "="%char :: junk ++ dquote :: v ++ [dquote])
      by (unfold cd_item_text; cbn [fst snd cd_text]; apply app_nil_r).
    rewrite !app_nil_r, Heq in H2.
    apply H2.
    + apply Forall_app. split; [assumption|].
      constructor; [|constructor]. split; [|constructor].
      cbn. auto.
    + exact I.
    + left. destruct items; discriminate.
    + exact Hsz2.
Qed.

(** The theorem after the parameter [form-data;] and a space. *)
Lemma content_disposition_parse_witness :
  ContentDisposition.parse (lit "form-data; name") = [(lit "form-data", []); (lit "name", [])]
  /\ ContentDisposition.parse (lit "form-data; name=" ++ [dquote] ++ lit "f") = [(lit "form-data", [])]
  /\ ContentDisposition.parse (lit "form-data; name= x " ++ [dquote] ++ lit "f" ++ [dquote])
     = [(lit "form-data", []); (lit "name", lit "f")].
Proof.
  pose proof (content_disposition_parse
                [(Bare (lit "form-data"), lit " ")] (lit "name")
                ([dquote] ++ lit "f") (lit " x ") (lit "f")) as H.
  cbv zeta in H.
  destruct H as (H1 & H2 & H3 & _).
  - repeat constructor; cbn; try (eexists _, _; split; [reflexivity | discriminate]);
      intuition discriminate.
  - split; [|split]; cbn; try (eexists _, _; split; [reflexivity | discriminate]);
      intuition discriminate.
  - right. exists [], (lit "f"). cbn. intuition discriminate.
  - cbn. intuition discriminate.
  - cbn. intuition discriminate.
  - vm_compute. discriminate.
  - vm_compute. discriminate.
  - exact (conj H1 (conj H2 H3)).
Defined.
(* ================================================================== *)
(** * Properties of ScopeRunner *)

Section ScopeRunnerFacts.
Import ScopeRunner.

Lemma long_wrap_id z : - 2 ^ 63 <= z < 2 ^ 63 -> long_wrap z = z.
Proof.
  intros H. unfold long_wrap.
  rewrite Z.mod_small; lia.
Qed.

Lemma runner_inv_init : runner_inv init.
Proof. right. simpl. unfold LONG_MAX. lia. Qed.

Lemma continue_lock_step_cases spurious c e c' p ev :
  continue_lock_step spurious c e = Some (c', p, ev) ->
  (ev = ReturnLock /\ p = Idle /\ 0 <= e /\ c = e /\ e <> LONG_MAX /\ c' = e + 1) \/
  (ev = Spin /\ p = ContinueLoop c /\ 0 <= e /\ c' = c) \/
  (ev = ReturnNull /\ p = Idle /\ e < 0 /\ c' = c).
Proof.
  unfold continue_lock_step, compare_exchange_weak.
  destruct (e >=? 0) eqn:He; rewrite Z.geb_leb in He.
  - destruct (e =? LONG_MAX) eqn:Hm; [discriminate|].
    destruct ((c =? e) && negb spurious) eqn:Hc; intros H; inversion H; subst.
    + left. apply andb_prop in Hc as [Hc _]. repeat split; lia.
    + right; left. repeat split; lia.
  - intros H; inversion H; subst. right; right. repeat split; lia.
Qed.

Lemma stop_step_cases spurious c c' p ev :
  stop_step spurious c = (c', p, ev) ->
  (ev = StopClosed /\ p = Idle /\ c = 0 /\ c' = -1) \/
  (ev = StopAlready /\ p = Idle /\ c < 0 /\ c' = c) \/
  (ev = Spin /\ p = StopLoop /\ 0 <= c /\ c' = c).
Proof.
  unfold stop_step, compare_exchange_weak.
  destruct ((c =? 0) && negb spurious) eqn:Hc.
  - intros H; inversion H; subst. left. apply andb_prop in Hc as [Hc _].
    repeat split; lia.
  - destruct (c <? 0) eqn:Hn; intros H; inversion H; subst.
    + right; left. repeat split; lia.
    + right; right. repeat split; lia.
Qed.

Lemma runner_inv_step s ev s' : runner_inv s -> step s ev s' -> runner_inv s'.
Proof.
  intros Hinv Hstep. unfold runner_inv in *.
  destruct Hstep as [s i Hi | s i e sp c' p ev Hi Hs | s i Hi
                    | s i sp c' p ev Hi Hs | s n Hl]; simpl.
  - exact Hinv.
  - apply continue_lock_step_cases in Hs.
    destruct Hs as [(-> & _ & He & Hc & Hm & ->) | [(-> & _ & _ & ->) | (-> & _ & _ & ->)]];
      try exact Hinv.
    right. destruct Hinv as [[H1 _] | [H1 H2]]; lia.
  - exact Hinv.
  - apply stop_step_cases in Hs.
    destruct Hs as [(-> & _ & Hc & ->) | [(-> & _ & _ & ->) | (-> & _ & _ & ->)]];
      try exact Hinv.
    left. destruct Hinv as [[H1 _] | [H1 H2]]; lia.
  - destruct Hinv as [[H1 H2] | [H1 H2]]; [congruence|].
    right. unfold fetch_sub. rewrite long_wrap_id; unfold LONG_MAX in *; lia.
Qed.

Lemma runner_inv_steps s tr s' : steps s tr s' -> runner_inv s -> runner_inv s'.
Proof.
  induction 1 as [| s ev s1 tr s2 Hst _ IH]; intros Hinv; [assumption|].
  apply IH. eapply runner_inv_step; eassumption.
Qed.

(** A step from a closed runner leaves it closed and returns no lock. *)
Lemma closed_step s ev s' :
  runner_inv s -> count s = -1 -> step s ev s' ->
  count s' = -1 /\ ev <> ReturnLock.
Proof.
  intros Hinv Hc Hstep.
  destruct Hstep as [s i Hi | s i e sp c' p ev Hi Hs | s i Hi
                    | s i sp c' p ev Hi Hs | s n Hl]; simpl.
  - split; [assumption | discriminate].
  - apply continue_lock_step_cases in Hs.
    destruct Hs as [(-> & _ & He & Hce & _) | [(-> & _ & _ & ->) | (-> & _ & _ & ->)]].
    + lia.
    + split; [assumption | discriminate].
    + split; [assumption | discriminate].
  - split; [assumption | discriminate].
  - apply stop_step_cases in Hs.
    destruct Hs as [(-> & _ & Hc0 & ->) | [(-> & _ & _ & ->) | (-> & _ & _ & ->)]];
      (split; [lia || assumption | discriminate]).
  - destruct Hinv as [[_ H2] | [H1 _]]; [congruence | lia].
Qed.

Lemma closed_steps s tr s' :
  steps s tr s' -> runner_inv s -> count s = -1 ->
  count s' = -1 /\ ~ In ReturnLock tr.
Proof.
  induction 1 as [| s ev s1 tr s2 Hst _ IH]; intros Hinv Hc.
  - split; [assumption | intros []].
  - destruct (closed_step _ _ _ Hinv Hc Hst) as [Hc1 Hev].
    destruct (IH (runner_inv_step _ _ _ Hinv Hst) Hc1) as [Hc2 Hno].
    split; [assumption|].
    intros [Heq | Hin]; [congruence | contradiction].
Qed.

(** [stop] returns only when the counter is, or has just become, [-1]. *)
Lemma stop_returns s ev s' :
  step s ev s' -> ev = StopClosed \/ ev = StopAlready -> count s' = -1 \/ count s' < 0.
Proof.
  intros Hstep Hev.
  destruct Hstep as [s i Hi | s i e sp c' p ev Hi Hs | s i Hi
                    | s i sp c' p ev Hi Hs | s n Hl]; simpl;
    try (destruct Hev; discriminate).
  - apply continue_lock_step_cases in Hs.
    destruct Hs as [(-> & _) | [(-> & _) | (-> & _)]]; destruct Hev; discriminate.
  - apply stop_step_cases in Hs.
    destruct Hs as [(_ & _ & _ & ->) | [(_ & _ & Hc & ->) | (-> & _)]];
      [left; reflexivity | right; assumption | destruct Hev; discriminate].
Qed.

(** C5.  ScopeRunner's counter, in every state an execution from the
    constructor can reach: it is [>= 0] or exactly [-1]; it becomes [-1]
    only by the successful compare-exchange of [stop()], and that happens
    only when the counter is 0 and no lock is alive; when [stop()] returns,
    no lock is alive; once the counter is [-1] it stays [-1] along every
    further execution, no [continue_lock()] in progress or started later
    returns a lock, and a [continue_lock()] called then returns
    [nullptr]. *)
Theorem scope_runner_counter (tr : list event) (s : state) :
  steps init tr s ->
  (0 <= count s \/ count s = -1)
  /\ (forall ev s', step s ev s' ->
        count s' = -1 -> count s = -1 \/ ev = StopClosed)
  /\ (forall s', step s StopClosed s' ->
        count s = 0 /\ live s = O /\ count s' = -1)
  /\ (forall ev s', step s ev s' -> ev = StopClosed \/ ev = StopAlready ->
        count s' = -1 /\ live s' = O)
  /\ (count s = -1 ->
        (forall tr' s', steps s tr' s' -> count s' = -1 /\ ~ In ReturnLock tr')
        /\ (forall fuel spurious,
              continue_lock (S fuel) spurious (count s) = Some (-1, false))).
Proof.
  intros Hreach.
  pose proof (runner_inv_steps _ _ _ Hreach runner_inv_init) as Hinv.
  split; [|split; [|split; [|split]]].
  - destruct Hinv as [[H _] | [H _]]; lia.
  - intros ev s' Hstep Hc'.
    destruct Hstep as [s i Hi | s i e sp c' p ev Hi Hs | s i Hi
                      | s i sp c' p ev Hi Hs | s n Hl]; simpl in Hc'.
    + left; assumption.
    + apply continue_lock_step_cases in Hs.
      destruct Hs as [(-> & _ & He & Hce & _ & ->) | [(-> & _ & _ & ->) | (-> & _ & _ & ->)]];
        [lia | left; assumption | left; assumption].
    + left; assumption.
    + apply stop_step_cases in Hs.
      destruct Hs as [(-> & _) | [(-> & _ & _ & ->) | (-> & _ & _ & ->)]];
        [right; reflexivity | left; assumption | left; assumption].
    + exfalso. destruct Hinv as [[_ H2] | [H1 H2]]; [congruence|].
      unfold fetch_sub in Hc'. rewrite long_wrap_id in Hc'; unfold LONG_MAX in *; lia.
  - intros s' Hstep.
    pose proof (runner_inv_step _ _ _ Hinv Hstep) as Hinv'.
    inversion Hstep as [| ? i e sp c' p ev Hi Hs | | ? i sp c' p ev Hi Hs |]; subst.
    + apply continue_lock_step_cases in Hs.
      destruct Hs as [(He & _) | [(He & _) | (He & _)]]; discriminate.
    + apply stop_step_cases in Hs.
      destruct Hs as [(_ & _ & Hc & Hc') | [(He & _) | (He & _)]];
        [| discriminate | discriminate].
      simpl. repeat split; try assumption.
      destruct Hinv as [[H1 _] | [H1 _]]; lia.
  - intros ev s' Hstep Hev.
    pose proof (runner_inv_step _ _ _ Hinv Hstep) as Hinv'.
    destruct (stop_returns _ _ _ Hstep Hev) as [Hc | Hc];
      destruct Hinv' as [[H1 H2] | [H1 H2]]; split; try assumption; lia.
  - intros Hc. split.
    + intros tr' s' Hsteps. eapply closed_steps; eassumption.
    + intros fuel spurious. rewrite Hc. reflexivity.
Qed.

(** The theorem at the state reached when one thread calls [stop()] on a
    fresh runner and its compare-exchange succeeds: the counter is [-1]. *)
Lemma scope_runner_counter_witness :
  let closed := mkState (-1) 0 (set_pc (set_pc (fun _ => Idle) 0%nat StopLoop) 0%nat Idle) in
  steps init [CallStop; StopClosed] closed
  /\ forall fuel spurious, continue_lock (S fuel) spurious (count closed) = Some (-1, false).
Proof.
  intros closed.
  assert (Hsteps : steps init [CallStop; StopClosed] closed).
  { apply (steps_cons init CallStop
                       (mkState 0 0 (set_pc (fun _ => Idle) 0%nat StopLoop))).
    - exact (step_call_stop init 0%nat eq_refl).
    - apply (steps_cons _ StopClosed closed).
      + exact (step_stop (mkState 0 0 (set_pc (fun _ => Idle) 0%nat StopLoop))
                         0%nat false (-1) Idle StopClosed eq_refl eq_refl).
      + apply steps_nil. }
  split; [exact Hsteps|].
  exact (proj2 (proj2 (proj2 (proj2 (proj2
           (scope_runner_counter [CallStop; StopClosed] closed Hsteps)))) eq_refl)).
Defined.

End ScopeRunnerFacts.

(* ================================================================== *)
(** * Case-insensitive comparison and hash: properties *)

Section CaseInsensitiveFacts.
Import CaseInsensitive.

Lemma std_equal_lowered (s1 s2 : str) :
  length s1 = length s2 ->
  std_equal (fun a b => tolower (char_code a) =? tolower (char_code b)) s1 s2 = true
  <-> lowered s1 = lowered s2.
Proof.
  revert s2. induction s1 as [| a s1 IH]; intros [| b s2] Hl; simpl in *;
    try discriminate; [tauto|].
  rewrite andb_true_iff, Z.eqb_eq, IH by lia.
  split; [intros [-> ->]; reflexivity | intros H; inversion H; auto].
Qed.

Lemma case_insensitive_equal_lowered (s1 s2 : str) :
  case_insensitive_equal s1 s2 = true <-> lowered s1 = lowered s2.
Proof.
  unfold case_insensitive_equal. rewrite andb_true_iff, Z.eqb_eq. split.
  - intros [Hs He]. apply std_equal_lowered; [unfold size in Hs; lia | assumption].
  - intros H.
    assert (Hl : length s1 = length s2).
    { apply (f_equal (@length Z)) in H. unfold lowered in H.
      rewrite !length_map in H. assumption. }
    split; [unfold size; lia | apply std_equal_lowered; assumption].
Qed.

Lemma hash_fold_lowered (hash : Z -> Z) (s : str) (h : Z) :
  fold_left (hash_step hash) s h =
  fold_left (fun h z =>
               Z.lxor h ((hash z + 2654435769 + (Z.shiftl h 6) mod size_t_modulus
                          + Z.shiftr h 2) mod size_t_modulus))
            (lowered s) h.
Proof.
  revert h. induction s as [| c s IH]; intros h; [reflexivity|].
  simpl. apply IH.
Qed.

End CaseInsensitiveFacts.

(** X1.  [case_insensitive_equal] holds exactly for texts that are equal
    once every character is lower-cased, so it is reflexive, symmetric and
    transitive. *)
Theorem case_insensitive_equal_equivalence :
  (forall s1 s2, CaseInsensitive.case_insensitive_equal s1 s2 = true
                 <-> lowered s1 = lowered s2)
  /\ (forall s, CaseInsensitive.case_insensitive_equal s s = true)
  /\ (forall s1 s2, CaseInsensitive.case_insensitive_equal s1 s2
                    = CaseInsensitive.case_insensitive_equal s2 s1)
  /\ (forall s1 s2 s3,
        CaseInsensitive.case_insensitive_equal s1 s2 = true ->
        CaseInsensitive.case_insensitive_equal s2 s3 = true ->
        CaseInsensitive.case_insensitive_equal s1 s3 = true).
Proof.
  split; [exact case_insensitive_equal_lowered|].
  split; [intros s; apply case_insensitive_equal_lowered; reflexivity|].
  split.
  - intros s1 s2.
    destruct (CaseInsensitive.case_insensitive_equal s1 s2) eqn:E1;
      destruct (CaseInsensitive.case_insensitive_equal s2 s1) eqn:E2; try reflexivity.
    + apply case_insensitive_equal_lowered in E1. symmetry in E1.
      apply case_insensitive_equal_lowered in E1. congruence.
    + apply case_insensitive_equal_lowered in E2. symmetry in E2.
      apply case_insensitive_equal_lowered in E2. congruence.
  - intros s1 s2 s3 H1 H2. apply case_insensitive_equal_lowered.
    apply case_insensitive_equal_lowered in H1, H2. congruence.
Qed.

(** X2.  Keys that [case_insensitive_equal] accepts as equal have the same
    [CaseInsensitiveHash], whatever [std::hash<int>] is. *)
Theorem case_insensitive_hash_agrees (hash : Z -> Z) (s1 s2 : str) :
  CaseInsensitive.case_insensitive_equal s1 s2 = true ->
  CaseInsensitive.CaseInsensitiveHash hash s1 = CaseInsensitive.CaseInsensitiveHash hash s2.
Proof.
  intros H. apply case_insensitive_equal_lowered in H.
  unfold CaseInsensitive.CaseInsensitiveHash.
  rewrite !hash_fold_lowered, H. reflexivity.
Qed.

(** The theorem at "Content-Type" and "content-TYPE", with the identity as
    [std::hash<int>]. *)
Lemma case_insensitive_hash_agrees_witness :
  CaseInsensitive.CaseInsensitiveHash (fun z => z) (lit "Content-Type")
  = CaseInsensitive.CaseInsensitiveHash (fun z => z) (lit "content-TYPE").
Proof.
  apply case_insensitive_hash_agrees. reflexivity.
Defined.

(* ================================================================== *)
(** * Percent: further properties *)

Lemma encode_char_shape_all (c : ascii) : encode_char_shape c = true.
Proof. destruct c as [[] [] [] [] [] [] [] []]; vm_compute; reflexivity. Qed.

Lemma encoded_char_all (c : ascii) : encoded_char (encode_char c) = Some c.
Proof. destruct c as [[] [] [] [] [] [] [] []]; vm_compute; reflexivity. Qed.

Lemma encode_char_no_delimiter (c : ascii) :
  forallb (fun d => negb (delimiter d)) (encode_char c) = true.
Proof. destruct c as [[] [] [] [] [] [] [] []]; vm_compute; reflexivity. Qed.

Lemma hex_digit_plain_all (c : ascii) : hex_digit_plain c = true.
Proof. destruct c as [[] [] [] [] [] [] [] []]; vm_compute; reflexivity. Qed.

(** The first character [encode] writes for a character is no digit. *)
Lemma encode_char_head (c : ascii) :
  exists x r, encode_char c = x :: r /\ is_digit x = false.
Proof.
  pose proof (encode_char_shape_all c) as H. unfold encode_char_shape in H.
  destruct (encode_char c) as [| x [| h [| l [| z r]]]]; try discriminate.
  - exists x, []. split; [reflexivity|]. destruct (is_digit x); [discriminate | reflexivity].
  - exists x, [h; l]. split; [reflexivity|].
    apply andb_prop in H as [Hp _]. apply ch_eqb_eq in Hp. subst x. reflexivity.
Qed.

Lemma encoded_text_head (x : str) (h : ascii) (t : str) :
  flat_map encode_char x = h :: t -> is_digit h = false.
Proof.
  destruct x as [| e x]; [discriminate|]. simpl.
  destruct (encode_char_head e) as (z & r & -> & Hz).
  intros H. inversion H; subst. assumption.
Qed.

Lemma encode_char_inj (c d : ascii) : encode_char c = encode_char d -> c = d.
Proof.
  intros H. pose proof (encoded_char_all c) as Hc.
  rewrite H, encoded_char_all in Hc. congruence.
Qed.

Lemma encoded_text_inj (x : str) :
  forall y, flat_map encode_char x = flat_map encode_char y -> x = y.
Proof.
  induction x as [| c x IH]; intros [| d y] H; simpl in H.
  - reflexivity.
  - destruct (encode_char_head d) as (z & r & E & _). rewrite E in H. discriminate.
  - destruct (encode_char_head c) as (z & r & E & _). rewrite E in H. discriminate.
  - pose proof (encode_char_shape_all c) as Sc.
    pose proof (encode_char_shape_all d) as Sd.
    unfold encode_char_shape in Sc, Sd.
    destruct (encode_char c) as [| c1 [| c2 [| c3 [| ? ?]]]] eqn:Ec; try discriminate;
      destruct (encode_char d) as [| d1 [| d2 [| d3 [| ? ?]]]] eqn:Ed; try discriminate;
      simpl in H; inversion H; subst.
    + f_equal; [apply encode_char_inj; congruence | apply IH; assumption].
    + exfalso. apply andb_prop in Sd as [_ Sd].
      match goal with Hx : flat_map encode_char x = _ |- _ =>
        apply encoded_text_head in Hx; congruence end.
    + exfalso. apply andb_prop in Sc as [_ Sc].
      match goal with Hy : _ = flat_map encode_char y |- _ =>
        symmetry in Hy; apply encoded_text_head in Hy; congruence end.
    + f_equal; [apply encode_char_inj; congruence | apply IH; assumption].
Qed.

Lemma encode_char_length (c : ascii) :
  (1 <= length (encode_char c) <= 3)%nat.
Proof.
  pose proof (encode_char_shape_all c) as H. unfold encode_char_shape in H.
  destruct (encode_char c) as [| x [| h [| l [| z r]]]]; try discriminate; simpl; lia.
Qed.

Lemma decode_list_length (n : nat) :
  forall s, (length s <= n)%nat -> (length (decode_list s) <= length s)%nat.
Proof.
  induction n as [| n IH]; intros s Hn.
  - destruct s; [simpl; lia | simpl in Hn; lia].
  - destruct s as [| c s]; [simpl; lia|].
    simpl in Hn. cbn [decode_list].
    assert (Hs : (length (decode_list s) <= length s)%nat) by (apply IH; lia).
    destruct (ch_eqb c "%").
    + destruct s as [| a [| b s']]; simpl in *; try lia.
      assert ((length (decode_list s') <= length s')%nat) by (apply IH; lia). lia.
    + destruct (ch_eqb c "+"); simpl; lia.
Qed.

(** X3.  For every text without a percent sign,
    [decode (encode x) = x]. *)
Theorem percent_round_trip (x : str) :
  ~ In "%"%char x -> Percent.decode (Percent.encode x) = x.
Proof. exact (decode_encode_no_percent x). Qed.

(** The theorem at a text with spaces, reserved characters and a byte
    above 127. *)
Lemma percent_round_trip_witness :
  Percent.decode (Percent.encode (lit "a b+c&d=1/2?" ++ [ascii_of_nat 200]))
  = lit "a b+c&d=1/2?" ++ [ascii_of_nat 200].
Proof.
  apply percent_round_trip. cbn. intuition discriminate.
Defined.

(** X4.  [encode] is injective: different texts have different
    encodings. *)
Theorem percent_encode_injective (x y : str) :
  Percent.encode x = Percent.encode y -> x = y.
Proof.
  rewrite !encode_flat_map. apply encoded_text_inj.
Qed.

(** The theorem at two spellings of one text. *)
Lemma percent_encode_injective_witness : lit "a%41" = lit "a%" ++ lit "41".
Proof.
  apply percent_encode_injective. reflexivity.
Defined.

Lemma encode_no_delimiter (x : str) :
  Forall (fun c => delimiter c = false) (Percent.encode x).
Proof.
  rewrite encode_flat_map. induction x as [| c x IH]; [constructor|].
  simpl. apply Forall_app. split; [|assumption].
  pose proof (encode_char_no_delimiter c) as H. rewrite forallb_forall in H.
  apply Forall_forall. intros d Hd. apply H in Hd.
  destruct (delimiter d); [discriminate | reflexivity].
Qed.

(** X5.  The text [encode] writes holds no space and none of the
    characters ! # $ & ' ( ) * , / : ; = ? @ [ ]. *)
Theorem percent_encode_alphabet (x : str) :
  Forall (fun c => delimiter c = false) (Percent.encode x).
Proof. exact (encode_no_delimiter x). Qed.

(** X6.  [encode] never shortens a text and at most triples its length;
    [decode] never lengthens a text. *)
Theorem percent_lengths (x : str) :
  size x <= size (Percent.encode x) <= 3 * size x
  /\ size (Percent.decode x) <= size x.
Proof.
  split.
  - rewrite encode_flat_map. unfold size.
    induction x as [| c x IH]; [simpl; lia|].
    simpl flat_map. rewrite length_app. pose proof (encode_char_length c).
    simpl length. lia.
  - rewrite decode_scanner. unfold size.
    pose proof (decode_list_length (length x) x (Nat.le_refl _)). lia.
Qed.

(** X7.  [encode] works character by character: the encoding of a
    concatenation is the concatenation of the encodings. *)
Theorem percent_encode_concat (a b : str) :
  Percent.encode (a ++ b) = Percent.encode a ++ Percent.encode b.
Proof. exact (encode_app a b). Qed.

Lemma strtol16_two_digits (a b : ascii) (da db : Z) :
  Libc.hex_digit a = Some da -> Libc.hex_digit b = Some db ->
  Libc.strtol16 [a; b] = 16 * da + db.
Proof.
  intros Ha Hb. pose proof (hex_digit_plain_all a) as Hp.
  unfold hex_digit_plain in Hp. rewrite Ha in Hp.
  apply andb_prop in Hp as [Hp Hplus]. apply andb_prop in Hp as [Hsp Hminus].
  unfold Libc.strtol16. cbn [Libc.skip_space].
  destruct (Libc.isspace a); [discriminate|].
  destruct (ch_eqb a "-"); [discriminate|].
  destruct (ch_eqb a "+"); [discriminate|].
  cbn [Libc.digits16]. rewrite Ha. cbn [Libc.digits16]. rewrite Hb. lia.
Qed.

(** X8.  [decode] reads a percent sign followed by two hex digits, in
    either case, as the byte they spell, whatever comes after them. *)
Theorem percent_decode_escape (a b : ascii) (da db : Z) (rest : str) :
  Libc.hex_digit a = Some da -> Libc.hex_digit b = Some db ->
  Percent.decode ("%"%char :: a :: b :: rest)
  = char_of_long (16 * da + db) :: Percent.decode rest.
Proof.
  intros Ha Hb. rewrite !decode_scanner. cbn [decode_list ch_eqb Ascii.eqb Bool.eqb].
  rewrite (strtol16_two_digits a b da db Ha Hb). reflexivity.
Qed.

(** The theorem at "%e9" followed by "t%". *)
Lemma percent_decode_escape_witness :
  Percent.decode (lit "%e9t%") = ascii_of_nat 233 :: Percent.decode (lit "t%").
Proof.
  exact (percent_decode_escape "e" "9" 14 9 (lit "t%") eq_refl eq_refl).
Defined.

Lemma decode_list_plain (s : str) :
  ~ In "%"%char s -> ~ In "+"%char s -> decode_list s = s.
Proof.
  induction s as [| c s IH]; intros Hp Hq; [reflexivity|].
  cbn [decode_list].
  destruct (ch_eqb c "%") eqn:E1.
  { apply ch_eqb_eq in E1. subst. exfalso. apply Hp. left. reflexivity. }
  destruct (ch_eqb c "+") eqn:E2.
  { apply ch_eqb_eq in E2. subst. exfalso. apply Hq. left. reflexivity. }
  f_equal. apply IH; intros H; [apply Hp | apply Hq]; right; assumption.
Qed.

(** X25.  [decode] leaves a text without percent and plus signs as it
    is. *)
Theorem percent_decode_plain (s : str) :
  ~ In "%"%char s -> ~ In "+"%char s -> Percent.decode s = s.
Proof. rewrite decode_scanner. apply decode_list_plain. Qed.

(** The theorem at "a=b&c d/e". *)
Lemma percent_decode_plain_witness : Percent.decode (lit "a=b&c d/e") = lit "a=b&c d/e".
Proof.
  apply percent_decode_plain; cbn; intuition discriminate.
Defined.

(* ================================================================== *)
(** * QueryString: further properties *)

(** X9.  [QueryString::parse] on any query string: the string is cut at
    every ampersand; each piece is divided at its last equals sign into a
    name and a value, or is a name alone when it has none; pieces with an
    empty name are dropped; every other piece gives one entry, the name with
    the percent-decoded value.  The result holds these entries, each as
    often as its piece occurs, and no others; the container keeps no order
    among them. *)
Theorem query_parse_pieces (query_string : str) :
  size query_string <= npos ->
  Permutation (QueryString.parse query_string)
              (flat_map segment_entry (map segment_of (split_on "&" query_string))).
Proof.
  intros Hsz. rewrite (query_parse_total query_string Hsz). apply Permutation_refl.
Qed.

(** The theorem at "a=1&&b&=x&c=d=e%21&b". *)
Lemma query_parse_pieces_witness :
  Permutation (QueryString.parse (lit "a=1&&b&=x&c=d=e%21&b"))
              [(lit "a", lit "1"); (lit "b", []); (lit "c=d", lit "e!"); (lit "b", [])].
Proof.
  apply (query_parse_pieces (lit "a=1&&b&=x&c=d=e%21&b")).
  vm_compute. discriminate.
Defined.

Lemma segment_of_name (piece : str) :
  exists rest, piece = fst (segment_of piece) ++ rest.
Proof.
  unfold segment_of. destruct (split_last "=" piece) as [[n v] |] eqn:E; cbn [fst].
  - apply split_last_some in E as [-> _]. eauto.
  - exists []. symmetry. apply app_nil_r.
Qed.

(** X10.  No entry that [QueryString::parse] returns has an empty name or
    an ampersand in its name. *)
Theorem query_parse_names (query_string k v : str) :
  size query_string <= npos ->
  In (k, v) (QueryString.parse query_string) ->
  k <> [] /\ ~ In "&"%char k.
Proof.
  intros Hsz Hin. rewrite query_parse_total in Hin by assumption.
  apply in_flat_map in Hin as (d & Hd & Hin).
  apply in_map_iff in Hd as (piece & <- & Hpiece).
  unfold segment_entry in Hin.
  destruct (fst (segment_of piece)) as [| c n] eqn:En; [destruct Hin|].
  destruct Hin as [Hin | []]. inversion Hin; subst k.
  split; [discriminate|].
  pose proof (split_on_free "&" query_string) as Hfree.
  rewrite Forall_forall in Hfree. specialize (Hfree piece Hpiece).
  destruct (segment_of_name piece) as (rest & Hrest). rewrite En in Hrest.
  intros Hk. apply Hfree. rewrite Hrest. apply in_or_app. left. assumption.
Qed.

(** The theorem at the entry of "k=v" in "&k=v&=w". *)
Lemma query_parse_names_witness : lit "k" <> [] /\ ~ In "&"%char (lit "k").
Proof.
  apply (query_parse_names (lit "&k=v&=w") (lit "k") (lit "v")).
  - vm_compute. discriminate.
  - left. reflexivity.
Defined.

(* ================================================================== *)
(** * HttpHeader: further properties *)

Lemma find_present (t : str) (ch : ascii) :
  In ch t -> size t <= npos -> find t ch 0 <> npos.
Proof.
  intros Hin Hsz.
  destruct (split_first_cases ch t) as [Hn | (a & b & -> & Ha)]; [contradiction|].
  rewrite (find_first _ a b) by (reflexivity || assumption).
  rewrite size_app, size_cons in Hsz.
  pose proof (size_nonneg a). pose proof (size_nonneg b). lia.
Qed.

(** [getline] followed by the header loop, over header lines and then a
    line with a colon that the end of input cuts short. *)
Lemma header_loop_truncated (t : str) (hs : list (str * str)) :
  In ":"%char t -> ~ In newline t ->
  Forall header_line_ok hs ->
  forall (fuel : nat) (prev : str) (r : CaseInsensitiveMultimap),
    size (header_lines hs ++ t) <= npos ->
    (let '(line, stream) := getline (stream_of (header_lines hs ++ t)) prev in
     HttpHeader.parse_loop fuel stream line r) = None.
Proof.
  intros Ht1 Ht2. induction 1 as [| h hs (Hh1 & Hh2 & Hh3) _ IH];
    intros fuel prev r Hsz.
  - cbn [header_lines flat_map app] in *.
    replace t with (t ++ []) at 1 by apply app_nil_r.
    rewrite getline_line by (assumption || (left; reflexivity)).
    cbn [after_line]. destruct t as [| c t]; [destruct Ht1|].
    apply header_loop_stuck. apply find_present; assumption.
  - cbn [header_lines flat_map] in *. fold (header_lines hs) in *.
    rewrite <- !app_assoc in *. cbn [app] in *.
    rewrite getline_line.
    2:{ unfold header_text. intros Hin. apply in_app_or in Hin as [Hin | [Hin | Hin]];
        [contradiction | discriminate | contradiction]. }
    2:{ right. eexists. reflexivity. }
    destruct fuel as [| fuel]; [reflexivity|].
    cbn [HttpHeader.parse_loop after_line].
    rewrite (find_first (header_text h) (fst h) (snd h)) by (reflexivity || assumption).
    pose proof (size_nonneg (fst h)). pose proof (size_nonneg (snd h)).
    pose proof (size_nonneg (header_lines hs ++ t)).
    rewrite size_app, size_cons in Hsz.
    assert (Hline : size (header_text h) <= npos) by lia.
    unfold header_text in Hline at 1. rewrite size_app, size_cons in Hline.
    replace (size (fst h) =? npos) with false by lia. cbn [negb].
    change (mkStream (header_lines hs ++ t) false false)
      with (stream_of (header_lines hs ++ t)).
    pose proof (size_nonneg (header_text h)).
    apply IH. lia.
Qed.

(** X11.  When the input ends inside a line that has a colon, and every
    line before it has a colon too, the loop of [HttpHeader::parse] does
    not finish, whatever the number of rounds: the [getline] after that
    line fails and leaves the line in place. *)
Theorem header_parse_cut_short (hs : list (str * str)) (t : str) (fuel : nat) :
  Forall header_line_ok hs ->
  In ":"%char t -> ~ In newline t ->
  size (header_lines hs ++ t) <= npos ->
  HttpHeader.parse fuel (stream_of (header_lines hs ++ t)) = None.
Proof.
  intros Hhs Ht1 Ht2 Hsz. unfold HttpHeader.parse.
  exact (header_loop_truncated t hs Ht1 Ht2 Hhs fuel [] [] Hsz).
Qed.

(** The theorem at "Host: a" CR LF "Accept: */*", with a thousand rounds. *)
Lemma header_parse_cut_short_witness :
  HttpHeader.parse 1000 (stream_of (lit "Host: a" ++ [cr; newline] ++ lit "Accept: */*"))
  = None.
Proof.
  apply (header_parse_cut_short [(lit "Host", lit " a" ++ [cr])] (lit "Accept: */*") 1000).
  - repeat constructor; cbn; intuition discriminate.
  - cbn. tauto.
  - cbn. intuition discriminate.
  - vm_compute. discriminate.
Defined.

Lemma written_headers_lines (hs : CaseInsensitiveMultimap) :
  written_headers hs = header_lines (map written_line hs).
Proof.
  unfold written_headers, header_lines.
  induction hs as [| h hs IH]; [reflexivity|].
  cbn [flat_map map]. rewrite IH. f_equal.
  unfold header_text, written_line. cbn [fst snd].
  repeat first [rewrite <- app_assoc | progress cbn [app]]. reflexivity.
Qed.

Lemma written_line_field (h : str * str) : header_field (written_line h) = [h].
Proof.
  destruct h as [n v]. unfold header_field, written_line. cbn [fst snd].
  cbn [ch_eqb Ascii.eqb Bool.eqb].
  destruct (v ++ [cr]) eqn:E; [destruct v; discriminate|].
  rewrite <- E, removelast_last. reflexivity.
Qed.

(** X12.  Header fields written as name, colon, space, value, CR LF, and
    ended by an empty line, are read back as they were: the result holds
    exactly the fields written, each as often as it was written (the
    container keeps no order among them), and the text behind the empty
    line is left unread.  Names must be free of colons and line feeds,
    values of line feeds. *)
Theorem header_parse_written (hs : CaseInsensitiveMultimap) (body : str) (fuel : nat) :
  Forall (fun h => ~ In ":"%char (fst h) /\ ~ In newline (fst h)
                   /\ ~ In newline (snd h)) hs ->
  size (written_headers hs ++ [cr; newline] ++ body) <= npos ->
  (length hs < fuel)%nat ->
  exists result,
    HttpHeader.parse fuel (stream_of (written_headers hs ++ [cr; newline] ++ body))
    = Some (result, stream_of body)
    /\ Permutation result hs.
Proof.
  intros Hhs Hsz Hfuel. exists hs. split; [|apply Permutation_refl].
  rewrite written_headers_lines in *.
  unfold HttpHeader.parse.
  change ([cr; newline] ++ body) with ([cr] ++ newline :: body) in *.
  rewrite (header_loop_lines [cr] (newline :: body) (map written_line hs)).
  - cbn [app after_line]. f_equal. f_equal.
    rewrite flat_map_concat_map, map_map.
    rewrite (map_ext _ (fun h => [h]) written_line_field).
    rewrite <- flat_map_concat_map.
    clear. induction hs as [| h hs IH]; [reflexivity|]. simpl. rewrite IH. reflexivity.
  - cbn. intuition discriminate.
  - cbn. intuition discriminate.
  - right. eexists. reflexivity.
  - rewrite Forall_map. eapply Forall_impl; [|exact Hhs].
    intros [n v] (H1 & H2 & H3). unfold header_line_ok, written_line. cbn [fst snd] in *.
    split; [assumption|]. split; [assumption|].
    intros [Hc | Hin]; [discriminate|].
    apply in_app_or in Hin as [Hin | [Hc | []]]; [contradiction | discriminate].
  - assumption.
  - rewrite length_map. assumption.
Qed.

(** The theorem at two fields, one with an empty value, and a body. *)
Lemma header_parse_written_witness :
  exists result,
    HttpHeader.parse 3
      (stream_of (lit "Host: example.org" ++ [cr; newline] ++ lit "X-Empty: "
                  ++ [cr; newline] ++ [cr; newline] ++ lit "body"))
    = Some (result, stream_of (lit "body"))
    /\ Permutation result [(lit "Host", lit "example.org"); (lit "X-Empty", [])].
Proof.
  apply (header_parse_written
           [(lit "Host", lit "example.org"); (lit "X-Empty", [])] (lit "body") 3).
  - repeat constructor; cbn; intuition discriminate.
  - vm_compute. discriminate.
  - simpl. lia.
Defined.

(* ================================================================== *)
(** * RequestMessage: further properties *)



(** X13.  On a request line method SP target SP HTTP/version, once the
    header fields are read, [RequestMessage::parse] returns [true]; the
    method is the text before the first space, the version the text after
    the slash without its last character, the header what
    [HttpHeader::parse] returns.  A target without a question mark is the
    path, and the query string is left as it was before the call; a target
    with a question mark is the path, a question mark and the query string,
    and the query string holds no question mark. *)
Theorem request_parse_success
        (fuel : nat) (stream stream' s : istream) (o : RequestMessage.outs)
        (m t v : str) (h : CaseInsensitiveMultimap) :
  getline stream [] = (m ++ " "%char :: t ++ " "%char :: lit "HTTP" ++ "/"%char :: v,
                       stream') ->
  size (m ++ " "%char :: t ++ " "%char :: lit "HTTP" ++ "/"%char :: v) <= npos ->
  ~ In " "%char m -> ~ In " "%char t ->
  HttpHeader.parse fuel stream' = Some (h, s) ->
  exists o',
    RequestMessage.parse fuel stream o = Some (true, o', s)
    /\ RequestMessage.method o' = m
    /\ RequestMessage.version o' = removelast v
    /\ RequestMessage.header o' = h
    /\ ((~ In "?"%char t /\ RequestMessage.path o' = t
         /\ RequestMessage.query_string o' = RequestMessage.query_string o)
        \/ (RequestMessage.path o' ++ "?"%char :: RequestMessage.query_string o' = t
            /\ ~ In "?"%char (RequestMessage.query_string o'))).
Proof.
  intros Hg Hsz Hm Ht Hh.
  rewrite (request_parse_well_formed fuel stream stream' o m t v Hg Hsz Hm Ht), Hh.
  cbv zeta. eexists. split; [reflexivity|]. cbn [RequestMessage.method
    RequestMessage.version RequestMessage.header RequestMessage.path
    RequestMessage.query_string].
  repeat split. unfold request_outs_target.
  destruct (split_last "?" t) as [[a b] |] eqn:E; cbn.
  - right. apply split_last_some in E as [-> Hb]. split; [reflexivity | assumption].
  - left. apply split_last_none in E. auto.
Qed.

(** The theorem at "GET /a?b?c HTTP/1.1" CR LF CR LF. *)
Lemma request_parse_success_witness :
  exists o',
    RequestMessage.parse 1
      (stream_of (lit "GET /a?b?c HTTP/1.1" ++ [cr; newline; cr; newline]))
      (RequestMessage.mkOuts [] [] [] [] [])
    = Some (true, o', stream_of [])
    /\ RequestMessage.method o' = lit "GET"
    /\ RequestMessage.version o' = lit "1.1".
Proof.
  destruct (request_parse_success
              1 (stream_of (lit "GET /a?b?c HTTP/1.1" ++ [cr; newline; cr; newline]))
              (stream_of [cr; newline]) (stream_of [])
              (RequestMessage.mkOuts [] [] [] [] [])
              (lit "GET") (lit "/a?b?c") (lit "1.1" ++ [cr]) [])
    as (o' & H1 & H2 & H3 & _).
  - reflexivity.
  - vm_compute. discriminate.
  - cbn. intuition discriminate.
  - cbn. intuition discriminate.
  - reflexivity.
  - exists o'. auto.
Defined.

(** X14.  A call of [RequestMessage::parse] that returns [false] has read
    the first line of the stream and nothing more. *)
Theorem request_parse_failure_stream
        (fuel : nat) (stream : istream) (o o' : RequestMessage.outs) (s' : istream) :
  size (fst (getline stream [])) <= npos ->
  RequestMessage.parse fuel stream o = Some (false, o', s') ->
  s' = snd (getline stream []).
Proof.
  destruct (getline stream []) as [line stream'] eqn:Hg. cbn [fst snd].
  intros Hsz Hp.
  destruct (request_line_shapes line)
    as [Hn | [(m & r & -> & Hm & Hr) | [(m & t & r & -> & Hm & Ht & Hr)
                                       | (m & t & p & v & -> & Hm & Ht & Hpp)]]].
  - rewrite (request_no_space fuel stream stream' o line Hg Hn) in Hp. congruence.
  - rewrite (request_no_target_end fuel stream stream' o m r Hg Hsz Hm Hr) in Hp.
    congruence.
  - rewrite (request_after_target fuel stream stream' o m t r Hg Hsz Hm Ht) in Hp.
    replace (m ++ " "%char :: t ++ " "%char :: r)
      with ((m ++ " "%char :: t) ++ " "%char :: r) in Hp
      by (repeat first [rewrite <- app_assoc | progress cbn [app]]; reflexivity).
    replace (size m + 1 + size t) with (size (m ++ " "%char :: t)) in Hp
      by (rewrite size_app, size_cons; lia).
    rewrite request_protocol_no_slash in Hp by assumption. congruence.
  - rewrite (request_after_target fuel stream stream' o m t _ Hg Hsz Hm Ht) in Hp.
    replace (m ++ " "%char :: t ++ " "%char :: p ++ "/"%char :: v)
      with ((m ++ " "%char :: t) ++ " "%char :: p ++ "/"%char :: v) in Hp, Hsz
      by (repeat first [rewrite <- app_assoc | progress cbn [app]]; reflexivity).
    replace (size m + 1 + size t) with (size (m ++ " "%char :: t)) in Hp
      by (rewrite size_app, size_cons; lia).
    rewrite request_protocol_slash in Hp by assumption.
    destruct (str_eqb p (lit "HTTP")); cbn [negb] in Hp; [|congruence].
    destruct (HttpHeader.parse fuel stream') as [[h s] |]; discriminate.
Qed.

(** The theorem at "GET /x FTP/1.1" CR LF "Host: a" CR LF: the header line
    stays unread. *)
Lemma request_parse_failure_stream_witness :
  stream_of (lit "Host: a" ++ [cr; newline])
  = snd (getline (stream_of (lit "GET /x FTP/1.1" ++ [cr; newline]
                             ++ lit "Host: a" ++ [cr; newline])) []).
Proof.
  apply (request_parse_failure_stream
           1 (stream_of (lit "GET /x FTP/1.1" ++ [cr; newline]
                         ++ lit "Host: a" ++ [cr; newline]))
           (RequestMessage.mkOuts [] [] [] [] [])
           (RequestMessage.mkOuts (lit "GET") (lit "/x") [] [] [])
           (stream_of (lit "Host: a" ++ [cr; newline]))).
  - vm_compute. discriminate.
  - reflexivity.
Defined.






(* ================================================================== *)
(** * ResponseMessage: further properties *)

(** X16.  [ResponseMessage::parse] returns [false] exactly when the status
    line has no space, or at most five characters, or nothing after its
    first space. *)
Theorem response_parse_failure (fuel : nat) (stream : istream) (o : ResponseMessage.outs) :
  size (fst (getline stream [])) <= npos ->
  (exists o' s', ResponseMessage.parse fuel stream o = Some (false, o', s'))
  <-> (~ In " "%char (fst (getline stream []))
       \/ size (fst (getline stream [])) <= 5
       \/ exists a, fst (getline stream []) = a ++ [" "%char] /\ ~ In " "%char a).
Proof. exact (response_parse_false_iff fuel stream o). Qed.

(** The theorem at "OK" CR LF, a line without space: the call fails. *)
Lemma response_parse_failure_witness :
  exists o' s',
    ResponseMessage.parse 1 (stream_of (lit "OK" ++ [cr; newline]))
                          (ResponseMessage.mkOuts [] [] [])
    = Some (false, o', s').
Proof.
  apply (proj2 (response_parse_failure
                  1 (stream_of (lit "OK" ++ [cr; newline]))
                  (ResponseMessage.mkOuts [] [] [])
                  ltac:(vm_compute; discriminate))).
  left. cbn. intuition discriminate.
Defined.

(** X17.  On a status line of five characters, a version, a space, a status
    text and one last character, once the header fields are read,
    [ResponseMessage::parse] returns [true] with that version and that
    status text, whatever the five characters are. *)
Theorem response_parse_success
        (fuel : nat) (stream stream' s : istream) (o : ResponseMessage.outs)
        (prefix v status : str) (last : ascii) (h : CaseInsensitiveMultimap) :
  getline stream [] = ((prefix ++ v) ++ " "%char :: status ++ [last], stream') ->
  size ((prefix ++ v) ++ " "%char :: status ++ [last]) <= npos ->
  length prefix = 5%nat ->
  ~ In " "%char prefix -> ~ In " "%char v ->
  HttpHeader.parse fuel stream' = Some (h, s) ->
  ResponseMessage.parse fuel stream o
  = Some (true, ResponseMessage.mkOuts v status h, s).
Proof.
  intros Hg Hsz Hl Hp Hv Hh.
  rewrite (response_space fuel stream stream' o (prefix ++ v) (status ++ [last]) Hg Hsz).
  2:{ intros Hin. apply in_app_or in Hin as [Hin | Hin]; contradiction. }
  cbv zeta.
  pose proof (size_nonneg v).
  assert (Hs5 : size prefix = 5) by (unfold size; lia).
  assert (H5 : (5 <? size ((prefix ++ v) ++ " "%char :: status ++ [last])) = true).
  { rewrite !size_app, size_cons, Hs5.
    pose proof (size_nonneg (status ++ [last])). lia. }
  assert (H5' : (5 <=? size (prefix ++ v)) = true) by (rewrite size_app, Hs5; lia).
  rewrite H5, H5'.
  destruct (status ++ [last]) eqn:E; [destruct status; discriminate|].
  rewrite <- E, Hh, removelast_last.
  rewrite skipn_app, <- Hl, skipn_all, Nat.sub_diag. reflexivity.
Qed.

(** The theorem at "SHTTP1.3 200 OK" CR LF. *)
Lemma response_parse_success_witness :
  ResponseMessage.parse 1 (stream_of (lit "SHTTP1.3 200 OK" ++ [cr; newline]))
                        (ResponseMessage.mkOuts [] [] [])
  = Some (true, ResponseMessage.mkOuts (lit "1.3") (lit "200 OK") [], mkStream [] true true).
Proof.
  apply (response_parse_success
           1 (stream_of (lit "SHTTP1.3 200 OK" ++ [cr; newline])) (stream_of [])
           (mkStream [] true true) (ResponseMessage.mkOuts [] [] [])
           (lit "SHTTP") (lit "1.3") (lit "200 OK") cr []).
  - reflexivity.
  - vm_compute. discriminate.
  - reflexivity.
  - cbn. intuition discriminate.
  - cbn. intuition discriminate.
  - reflexivity.
Defined.

(* ================================================================== *)
(** * SharedMutex: properties *)

Section SharedMutexFacts.
Import SharedMutex.

Lemma mutex_inv_init : mutex_inv init.
Proof.
  unfold mutex_inv, init, INT_MAX. simpl. repeat split; try discriminate; lia.
Qed.

Lemma mutex_inv_step s ev s' : mutex_inv s -> step s ev s' -> mutex_inv s'.
Proof.
  intros (Hr & Hmax & Hw1 & Hw0) Hstep. unfold mutex_inv.
  destruct Hstep as [s i r' w' p ev Hi Ha | s n Hn | s i r' w' p ev Hi Ha | s n Hn];
    cbn [r w shared_held unique_held].
  - unfold shared_attempt in Ha. destruct (w s) eqn:Ew.
    + inversion Ha; subst. auto.
    + destruct (r s =? INT_MAX) eqn:Em; [discriminate|].
      inversion Ha; subst.
      repeat split; try discriminate; try lia; auto.
  - unfold shared_release. cbn [fst snd].
    destruct (w s) eqn:Ew.
    + destruct (Hw1 eq_refl) as [_ H0]. congruence.
    + repeat split; try discriminate; try lia; auto.
  - unfold unique_attempt in Ha. destruct (w s) eqn:Ew; cbn [orb] in Ha.
    + inversion Ha; subst. auto.
    + destruct (0 <? r s) eqn:Er; inversion Ha; subst.
      * auto.
      * pose proof (Hw0 eq_refl) as H0.
        repeat split; try discriminate; try lia.
  - unfold unique_release. cbn [fst snd].
    repeat split; try discriminate; try assumption.
    intros _. destruct (w s) eqn:Ew.
    + destruct (Hw1 eq_refl) as [H1 _]. lia.
    + rewrite (Hw0 eq_refl) in Hn. discriminate.
Qed.

Lemma mutex_inv_steps s tr s' : steps s tr s' -> mutex_inv s -> mutex_inv s'.
Proof.
  induction 1 as [| s ev s1 tr s2 Hst _ IH]; intros Hinv; [assumption|].
  apply IH. eapply mutex_inv_step; eassumption.
Qed.

(** X18.  Mutual exclusion: in every state an execution can reach, at most
    one [UniqueLock] is alive, and while one is alive no [SharedLock] is;
    [r] is the number of shared locks alive and [w] is set exactly while a
    unique lock is alive. *)
Theorem shared_mutex_exclusion (tr : list event) (s : state) :
  steps init tr s ->
  (unique_held s <= 1)%nat
  /\ (unique_held s = 1%nat -> shared_held s = O)
  /\ r s = Z.of_nat (shared_held s)
  /\ (w s = true <-> unique_held s = 1%nat).
Proof.
  intros Hreach.
  destruct (mutex_inv_steps _ _ _ Hreach mutex_inv_init) as (Hr & Hmax & Hw1 & Hw0).
  destruct (w s) eqn:Ew.
  - destruct (Hw1 eq_refl) as [H1 H0]. repeat split; try lia; auto.
  - pose proof (Hw0 eq_refl) as H0.
    repeat split; intros; try lia; try discriminate.
Qed.

(** The theorem after one thread took a shared lock and another waits for
    a unique one. *)
Lemma shared_mutex_exclusion_witness :
  let s := mkState 1 false 1 0
             (set_pc (set_pc (fun _ => Idle) 0%nat Idle) 1%nat InUniqueLock) in
  steps init [SharedAcquired; UniqueWaits] s /\ (unique_held s <= 1)%nat.
Proof.
  intros s.
  assert (Hsteps : steps init [SharedAcquired; UniqueWaits] s).
  { apply (steps_cons init SharedAcquired
                       (mkState 1 false 1 0 (set_pc (fun _ => Idle) 0%nat Idle))).
    - exact (step_shared init 0%nat 1 false Idle SharedAcquired
                         (or_introl eq_refl) eq_refl).
    - apply (steps_cons _ UniqueWaits s); [|apply steps_nil].
      exact (step_unique (mkState 1 false 1 0 (set_pc (fun _ => Idle) 0%nat Idle))
                         1%nat 1 false InUniqueLock UniqueWaits
                         (or_introl eq_refl) eq_refl). }
  split; [exact Hsteps|].
  exact (proj1 (shared_mutex_exclusion _ s Hsteps)).
Defined.

(** X19.  Who gets a lock, in every state an execution can reach: the
    constructor of [SharedLock] goes through exactly when no unique lock is
    alive, whether or not a thread waits for one, and waits otherwise; the
    constructor of [UniqueLock] goes through exactly when no lock of either
    kind is alive, and waits otherwise. *)
Theorem shared_mutex_admission (tr : list event) (s : state) :
  steps init tr s ->
  r s < INT_MAX ->
  (unique_held s = O ->
   shared_attempt (r s) (w s) = Some (r s + 1, false, Idle, SharedAcquired))
  /\ (unique_held s <> O ->
      shared_attempt (r s) (w s) = Some (r s, true, InSharedLock, SharedWaits))
  /\ (unique_held s = O -> shared_held s = O ->
      unique_attempt (r s) (w s) = (0, true, Idle, UniqueAcquired))
  /\ (unique_held s <> O \/ shared_held s <> O ->
      unique_attempt (r s) (w s) = (r s, w s, InUniqueLock, UniqueWaits)).
Proof.
  intros Hreach Hlt.
  destruct (mutex_inv_steps _ _ _ Hreach mutex_inv_init) as (Hr & Hmax & Hw1 & Hw0).
  unfold shared_attempt, unique_attempt.
  destruct (w s) eqn:Ew.
  - destruct (Hw1 eq_refl) as [H1 H0].
    split; [|split; [|split]]; intros; try reflexivity; exfalso; lia.
  - pose proof (Hw0 eq_refl) as H0. cbn [orb].
    replace (r s =? INT_MAX) with false by lia.
    split; [|split; [|split]]; intros.
    + reflexivity.
    + exfalso; lia.
    + replace (0 <? r s) with false by lia. f_equal. f_equal. f_equal. lia.
    + replace (0 <? r s) with true by lia. reflexivity.
Qed.

(** The theorem at two states: one where a thread holds a shared lock and
    another waits for a unique one, and one where a thread holds a unique
    lock.  At the first a further shared lock is granted and a unique one
    has to wait; at the second both have to wait. *)
Lemma shared_mutex_admission_witness :
  let s1 := mkState 1 false 1 0
              (set_pc (set_pc (fun _ => Idle) 0%nat Idle) 1%nat InUniqueLock) in
  let s2 := mkState 0 true 0 1 (set_pc (fun _ => Idle) 0%nat Idle) in
  (steps init [SharedAcquired; UniqueWaits] s1
   /\ shared_attempt 1 false = Some (2, false, Idle, SharedAcquired)
   /\ unique_attempt 1 false = (1, false, InUniqueLock, UniqueWaits))
  /\ (steps init [UniqueAcquired] s2
      /\ shared_attempt 0 true = Some (0, true, InSharedLock, SharedWaits)
      /\ unique_attempt 0 true = (0, true, InUniqueLock, UniqueWaits)).
Proof.
  intros s1 s2.
  assert (Hs1 : steps init [SharedAcquired; UniqueWaits] s1).
  { apply (steps_cons init SharedAcquired
                       (mkState 1 false 1 0 (set_pc (fun _ => Idle) 0%nat Idle))).
    - exact (step_shared init 0%nat 1 false Idle SharedAcquired
                         (or_introl eq_refl) eq_refl).
    - apply (steps_cons _ UniqueWaits s1); [|apply steps_nil].
      exact (step_unique (mkState 1 false 1 0 (set_pc (fun _ => Idle) 0%nat Idle))
                         1%nat 1 false InUniqueLock UniqueWaits
                         (or_introl eq_refl) eq_refl). }
  assert (Hs2 : steps init [UniqueAcquired] s2).
  { apply (steps_cons init UniqueAcquired s2); [|apply steps_nil].
    exact (step_unique init 0%nat 0 true Idle UniqueAcquired
                       (or_introl eq_refl) eq_refl). }
  assert (Hr1 : r s1 < INT_MAX) by (unfold INT_MAX; simpl; lia).
  assert (Hr2 : r s2 < INT_MAX) by (unfold INT_MAX; simpl; lia).
  destruct (shared_mutex_admission _ s1 Hs1 Hr1) as (A1 & _ & _ & A4).
  destruct (shared_mutex_admission _ s2 Hs2 Hr2) as (_ & B2 & _ & B4).
  split.
  - split; [exact Hs1|]. split.
    + exact (A1 eq_refl).
    + apply A4. right. discriminate.
  - split; [exact Hs2|]. split.
    + apply B2. discriminate.
    + apply B4. left. discriminate.
Defined.

End SharedMutexFacts.

(* ================================================================== *)
(** * ScopeRunner: further properties *)

Section ScopeRunnerMore.
Import ScopeRunner.

Lemma stop_loop_blocked (fuel : nat) :
  forall spurious k count, 0 < count -> stop_loop fuel spurious k count = None.
Proof.
  induction fuel as [| fuel IH]; intros spurious k count Hc; [reflexivity|].
  cbn [stop_loop]. unfold stop_step, compare_exchange_weak.
  replace (count =? 0) with false by lia. cbn [andb].
  replace (count <? 0) with false by lia. apply IH. assumption.
Qed.

Lemma stop_loop_drained (k : nat) :
  forall spurious k0 fuel,
    (forall j, (j < k)%nat -> spurious (k0 + j)%nat = true) ->
    spurious (k0 + k)%nat = false ->
    stop_loop (S k + fuel) spurious k0 0 = Some (-1).
Proof.
  induction k as [| k IH]; intros spurious k0 fuel Hbefore Hk.
  - cbn [Nat.add stop_loop]. unfold stop_step, compare_exchange_weak.
    rewrite Nat.add_0_r in Hk. rewrite Hk. reflexivity.
  - change (S (S k) + fuel)%nat with (S (S k + fuel)). cbn [stop_loop].
    unfold stop_step, compare_exchange_weak.
    rewrite <- (Nat.add_0_r k0) at 1. rewrite Hbefore by lia.
    cbn [Z.eqb andb negb Z.ltb Z.compare].
    apply IH.
    + intros j Hj. replace (S k0 + j)%nat with (k0 + S j)%nat by lia.
      apply Hbefore. lia.
    + replace (S k0 + k)%nat with (k0 + S k)%nat by lia. assumption.
Qed.

Lemma continue_lock_loop_open (k : nat) :
  forall spurious k0 fuel count,
    0 <= count -> count <> LONG_MAX ->
    (forall j, (j < k)%nat -> spurious (k0 + j)%nat = true) ->
    spurious (k0 + k)%nat = false ->
    continue_lock_loop (S k + fuel) spurious k0 count count = Some (count + 1, true).
Proof.
  induction k as [| k IH]; intros spurious k0 fuel count H0 Hmax Hbefore Hk.
  - cbn [Nat.add continue_lock_loop].
    unfold continue_lock_step, compare_exchange_weak.
    rewrite Nat.add_0_r in Hk. rewrite Hk.
    replace (count >=? 0) with true by lia.
    replace (count =? LONG_MAX) with false by lia.
    rewrite Z.eqb_refl. reflexivity.
  - change (S (S k) + fuel)%nat with (S (S k + fuel)). cbn [continue_lock_loop].
    unfold continue_lock_step, compare_exchange_weak.
    rewrite <- (Nat.add_0_r k0) at 1. rewrite Hbefore by lia.
    replace (count >=? 0) with true by lia.
    replace (count =? LONG_MAX) with false by lia.
    rewrite Z.eqb_refl. cbn [andb negb].
    apply IH; try assumption.
    + intros j Hj. replace (S k0 + j)%nat with (k0 + S j)%nat by lia.
      apply Hbefore. lia.
    + replace (S k0 + k)%nat with (k0 + S k)%nat by lia. assumption.
Qed.

(** X20.  A call of [stop()] that runs alone while locks are alive never
    returns, however long it spins. *)
Theorem scope_runner_stop_blocks (fuel : nat) (spurious : nat -> bool) (count : Z) :
  0 < count -> stop fuel spurious count = None.
Proof. intros H. apply stop_loop_blocked. assumption. Qed.

(** The theorem with one lock alive and a thousand rounds. *)
Lemma scope_runner_stop_blocks_witness : stop 1000 (fun _ => false) 1 = None.
Proof. apply scope_runner_stop_blocks. lia. Defined.

(** X21.  A call of [stop()] that runs alone on a runner without live locks
    sets the counter to [-1] and returns, as soon as one compare-exchange does
    not fail spuriously; on a runner that is closed already it returns at
    once and leaves the counter as it is. *)
Theorem scope_runner_stop_closes (k fuel : nat) (spurious : nat -> bool) (count : Z) :
  (forall j, (j < k)%nat -> spurious j = true) ->
  spurious k = false ->
  stop (S k + fuel) spurious 0 = Some (-1)
  /\ (count < 0 -> stop (S fuel) spurious count = Some count).
Proof.
  intros Hbefore Hk. split.
  - apply stop_loop_drained; assumption.
  - intros Hc. unfold stop. cbn [stop_loop]. unfold stop_step, compare_exchange_weak.
    replace (count =? 0) with false by lia. cbn [andb].
    replace (count <? 0) with true by lia. reflexivity.
Qed.

(** The theorem with two spurious failures before the exchange succeeds. *)
Lemma scope_runner_stop_closes_witness :
  stop 3 (fun j => Nat.ltb j 2) 0 = Some (-1).
Proof.
  apply (proj1 (scope_runner_stop_closes 2 0 (fun j => Nat.ltb j 2) (-1)
                  ltac:(intros [| [| j]] Hj; [reflexivity | reflexivity | lia])
                  eq_refl)).
Defined.

(** X22.  A call of [continue_lock()] that runs alone on an open runner
    returns a lock and raises the counter by one, as soon as one
    compare-exchange does not fail spuriously; destroying that lock puts
    the counter back. *)
Theorem scope_runner_lock_release (k fuel : nat) (spurious : nat -> bool) (count : Z) :
  0 <= count -> count < LONG_MAX ->
  (forall j, (j < k)%nat -> spurious j = true) ->
  spurious k = false ->
  continue_lock (S k + fuel) spurious count = Some (count + 1, true)
  /\ fetch_sub (count + 1) = count.
Proof.
  intros H0 Hmax Hbefore Hk. split.
  - apply continue_lock_loop_open; try assumption; lia.
  - unfold fetch_sub. rewrite long_wrap_id; unfold LONG_MAX in *; lia.
Qed.

(** The theorem with five locks alive and no spurious failure. *)
Lemma scope_runner_lock_release_witness :
  continue_lock 1 (fun _ => false) 5 = Some (6, true) /\ fetch_sub 6 = 5.
Proof.
  apply (scope_runner_lock_release 0 0 (fun _ => false) 5).
  - lia.
  - unfold LONG_MAX. lia.
  - intros j Hj. lia.
  - reflexivity.
Defined.

(** X23.  While the runner is open, its counter is the number of
    [SharedLock] objects alive. *)
Theorem scope_runner_counts_locks (tr : list event) (s : state) :
  steps init tr s -> 0 <= count s -> count s = Z.of_nat (live s).
Proof.
  intros Hreach H0.
  destruct (runner_inv_steps _ _ _ Hreach runner_inv_init) as [[H _] | [H _]];
    [lia | assumption].
Qed.

(** The theorem after one [continue_lock()] returned a lock. *)
Lemma scope_runner_counts_locks_witness :
  let s := mkState 1 1 (set_pc (set_pc (fun _ => Idle) 0%nat (ContinueLoop 0)) 0%nat Idle) in
  steps init [CallContinue; ReturnLock] s /\ count s = Z.of_nat (live s).
Proof.
  intros s.
  assert (Hsteps : steps init [CallContinue; ReturnLock] s).
  { apply (steps_cons init CallContinue
                       (mkState 0 0 (set_pc (fun _ => Idle) 0%nat (ContinueLoop 0)))).
    - exact (step_call_continue init 0%nat eq_refl).
    - apply (steps_cons _ ReturnLock s); [|apply steps_nil].
      exact (step_continue
               (mkState 0 0 (set_pc (fun _ => Idle) 0%nat (ContinueLoop 0)))
               0%nat 0 false 1 Idle ReturnLock eq_refl eq_refl). }
  split; [exact Hsteps|].
  apply (scope_runner_counts_locks _ s Hsteps). simpl. lia.
Defined.

End ScopeRunnerMore.

(* ================================================================== *)
(** * ContentDisposition: a further property *)

Section ContentDispositionMore.
Import ContentDisposition.

(** The scan only ever appends to the result. *)
Lemma cd_body_grows (line : str) (c : Z) (st : scan) :
  exists l, result (parse_body line c st) = result st ++ l.
Proof.
  unfold parse_body, emplace.
  repeat match goal with
         | |- context [if ?b then _ else _] => destruct b
         end;
    cbn [result]; try (exists []; symmetry; apply app_nil_r); eauto.
Qed.

Lemma cd_loop_grows (line : str) (n : nat) :
  forall (c : Z) (st : scan),
    exists l, result (for_range n c (parse_body line) st) = result st ++ l.
Proof.
  induction n as [| n IH]; intros c st.
  - exists []. symmetry. apply app_nil_r.
  - cbn [for_range]. destruct (IH (c + 1) (parse_body line c st)) as (l2 & ->).
    destruct (cd_body_grows line c st) as (l1 & ->).
    exists (l1 ++ l2). symmetry. apply app_assoc.
Qed.

(** X24.  The result for a line that starts with a semicolon holds an
    entry whose name and value are both empty, whatever follows the
    semicolon. *)
Theorem content_disposition_leading_semicolon (rest : str) :
  In ([], []) (ContentDisposition.parse (";"%char :: rest)).
Proof.
  unfold parse. cbn [length for_range].
  assert (H0 : parse_body (";"%char :: rest) 0 (mkScan 0 npos npos [])
               = mkScan npos npos npos [([], [])]).
  { unfold parse_body. cbn [para_start_pos para_end_pos value_start_pos result].
    change (at_ (";"%char :: rest) 0) with ";"%char.
    cbn [Z.eqb negb ch_eqb Ascii.eqb Bool.eqb]. rewrite substr_zero. reflexivity. }
  rewrite H0.
  destruct (cd_loop_grows (";"%char :: rest) (length rest) (0 + 1)
                          (mkScan npos npos npos [([], [])])) as (l & Hl).
  cbn [result] in Hl.
  destruct (negb _ && _).
  - rewrite Hl. unfold emplace. cbn [app]. left. reflexivity.
  - rewrite Hl. left. reflexivity.
Qed.

End ContentDispositionMore.
